(** * GGRC client base module ([ggrc_base.js]): decimal-string arithmetic and
    the deferred event queue.

    The development embeds, from [src/ggrc-client/js/ggrc_base.js],
    - [GGRC.Math.string_add], [string_half], [string_max], [string_less_than]
      (arbitrary precision arithmetic on decimal notation strings), and
    - [GGRC.eventqueue], [GGRC.queue_event], [GGRC.queue_exec_next]
      (a queue of callbacks drained one per timer tick).

    A JavaScript string is modelled by its sequence of code units
    ([list ascii], code units below 256); [a[i]] is [nth_error a i], whose
    [None] stands for [undefined].  Numbers are integers or [NaN]. *)

From Stdlib Require Import ZArith List Bool Ascii String Lia QArith.
From Stdlib Require Import DecimalString.
From Stdlib Require Import Lqa.
Import ListNotations.

Local Open Scope nat_scope.

(* ===================================================================== *)
(** ** JavaScript primitives used by the module                           *)
(* ===================================================================== *)

Module JS.

(** A completed call either returns a value or throws. *)
Inductive completion (A : Type) : Type :=
| Return (x : A)
| Throw (msg : string).
Arguments Return {A} x.
Arguments Throw {A} msg.

Definition bind {A B} (m : completion A) (k : A -> completion B)
  : completion B :=
  match m with
  | Return x => k x
  | Throw msg => Throw msg
  end.

(** The numbers the module computes with: small integers, or [NaN] when a
    code unit that is not numeric is converted. *)
Inductive number : Type :=
| Num (z : Z)
| NaN.

Definition chars := list ascii.

Definition code (c : ascii) : nat := nat_of_ascii c.

Definition is_digit (c : ascii) : bool :=
  (48 <=? code c) && (code c <=? 57).

(** White space and line terminators below 256: the string holding only
    one of them converts to [0]. *)
Definition is_space (c : ascii) : bool :=
  existsb (Nat.eqb (code c)) [9; 10; 11; 12; 13; 32; 160].

(** [+c] for a one code unit string [c]. *)
Definition to_number (c : ascii) : number :=
  if is_digit c then Num (Z.of_nat (code c) - 48)
  else if is_space c then Num 0
  else NaN.

(** [x + y] on numbers. *)
Definition add (x y : number) : number :=
  match x, y with
  | Num a, Num b => Num (a + b)
  | _, _ => NaN
  end.

(** [Math.floor(x / d)] for a positive integer literal [d]. *)
Definition floor_div (x : number) (d : Z) : number :=
  match x with
  | Num a => Num (a / d)
  | NaN => NaN
  end.

(** [x % d]: the remainder has the sign of the dividend. *)
Definition rem (x : number) (d : Z) : number :=
  match x with
  | Num a => Num (Z.rem a d)
  | NaN => NaN
  end.

(** Truthiness of a number: [0] and [NaN] are falsy. *)
Definition truthy (x : number) : bool :=
  match x with
  | Num a => negb (a =? 0)%Z
  | NaN => false
  end.

(** [x > 0]. *)
Definition gt0 (x : number) : bool :=
  match x with
  | Num a => (0 <? a)%Z
  | NaN => false
  end.

(** [x.toString(10)]. *)
Definition toString (x : number) : string :=
  match x with
  | Num a => NilZero.string_of_int (Z.to_int a)
  | NaN => "NaN"%string
  end.

(** [s.indexOf(c)]; [None] is the result [-1]. *)
Fixpoint indexOf (c : ascii) (s : chars) : option nat :=
  match s with
  | [] => None
  | x :: t => if Ascii.eqb x c then Some 0 else option_map S (indexOf c t)
  end.

(** [ret.join(sep)] with the empty separator. *)
Definition join (ret : list string) : string := String.concat EmptyString ret.

(** [ret[ret.length - 1] === "."] ([undefined] on the empty array). *)
Definition last_is_point (ret : list string) : bool :=
  match rev ret with
  | x :: _ => String.eqb x "."
  | [] => false
  end.

(** [x === "."] where [x] is a code unit, or [None] for a value that is
    not a string. *)
Definition is_point (x : option ascii) : bool :=
  match x with
  | Some c => Ascii.eqb c "."
  | None => false
  end.

End JS.

Import JS.

(* ===================================================================== *)
(** ** GGRC.Math                                                          *)
(* ===================================================================== *)

(** [if (adi < 0) { a = a + "."; adi = a.length - 1; }], with
    [adi = a.indexOf(".")]. *)
Definition with_point (a : chars) : chars * nat :=
  match indexOf "." a with
  | Some adi => (a, adi)
  | None => (a ++ ["."%char], List.length (a ++ ["."%char]) - 1)
  end.

(** [while (adi < bdi) { a = "0" + a; adi++; }]: the body runs [k = bdi - adi]
    times. *)
Fixpoint pad_while (k : nat) (a : chars) (adi : nat) : chars * nat :=
  match k with
  | O => (a, adi)
  | S k' => pad_while k' ("0"%char :: a) (S adi)
  end.

(** [_a = a[i] || 0; ... (+_a)]: an absent code unit counts as the number 0. *)
Definition plus (_a : option ascii) : number :=
  match _a with
  | Some c => to_number c
  | None => Num 0
  end.

(** The [for (i = n - 1; i >= 0; i--)] loop of [string_add]; [n] is [i + 1]. *)
Fixpoint add_loop (a b : chars) (n : nat) (_c : number) (ret : list string)
  : completion (list string * number) :=
  match n with
  | O => Return (ret, _c)
  | S i =>
    let _a := nth_error a i in
    let _b := nth_error b i in
    if is_point _a || is_point _b then
      if negb (is_point _a) || negb (is_point _b) then
        Throw "Decimal alignment error"
      else add_loop a b i _c ("."%string :: ret)
    else
      let s := add (add (plus _a) (plus _b)) _c in
      add_loop a b i (floor_div s 10) (toString (rem s 10) :: ret)
  end.

(** The two operands of [string_add] after the decimal points are aligned. *)
Definition align (a b : chars) : chars * chars :=
  let '(a, adi) := with_point a in
  let '(b, bdi) := with_point b in
  let '(a, adi) := pad_while (bdi - adi) a adi in
  let '(b, bdi) := pad_while (adi - bdi) b bdi in
  (a, b).

Definition string_add (a b : string) : completion string :=
  let '(a, b) := align (list_ascii_of_string a) (list_ascii_of_string b) in
  bind (add_loop a b (Nat.max (List.length a) (List.length b)) (Num 0) [])
    (fun '(ret, _c) =>
       let ret := if gt0 _c then toString _c :: ret else ret in
       let ret := if last_is_point ret then removelast ret else ret in
       Return (join ret)).

(** The [for (i = 0; i < a.length; i++)] loop of [string_half] reads the code
    units of [a] in order; [_c] is 0 or 10. *)
Fixpoint half_loop (a : chars) (_c : Z) (ret : list string)
  : list string * Z :=
  match a with
  | [] => (ret, _c)
  | _a :: rest =>
    if Ascii.eqb _a "." then half_loop rest _c (ret ++ ["."%string])
    else
      let q := floor_div (add (to_number _a) (Num _c)) 2 in
      let _c' := if truthy (rem (to_number _a) 2) then 10%Z else 0%Z in
      half_loop rest _c' (ret ++ [toString q])
  end.

(** [while (ret[0] === "0" && ret.length > 1) ret.shift();] *)
Fixpoint shift_zeros (ret : list string) : list string :=
  match ret with
  | x :: (_ :: _) as rest => if String.eqb x "0" then shift_zeros rest else ret
  | _ => ret
  end.

Definition string_half (a : string) : string :=
  let a := list_ascii_of_string a in
  let a := match indexOf "." a with
           | None => a ++ ["."%char]
           | Some _ => a
           end in
  let '(ret, _c) := half_loop a 0%Z [] in
  let ret := if (0 <? _c)%Z then ret ++ ["5"%string] else ret in
  let ret := if last_is_point ret then removelast ret else ret in
  join (shift_zeros ret).

(** [s.replace(/^0*/, empty)]: the leading zeros are removed. *)
Fixpoint strip_zeros (s : chars) : chars :=
  match s with
  | x :: t => if Ascii.eqb x "0" then strip_zeros t else s
  | [] => []
  end.

(** [(+x || 0)] where [x] is [s[i]]: [NaN] and [undefined] give 0. *)
Definition plus_or_zero (x : option ascii) : Z :=
  match x with
  | Some c => match to_number c with Num z => z | NaN => 0%Z end
  | None => 0%Z
  end.

(** The [for (i = 0; i < _a.length - 1; i++)] loop of [string_less_than];
    [n] iterations remain.  [Some r] is [return r], [None] falls out of the
    loop. *)
Fixpoint less_loop (_a _b : chars) (n i : nat) : option bool :=
  match n with
  | O => None
  | S n' =>
    if is_point (nth_error _a i) then less_loop _a _b n' (S i)
    else if (plus_or_zero (nth_error _a i) <? plus_or_zero (nth_error _b i))%Z
         then Some true
    else if (plus_or_zero (nth_error _a i) >? plus_or_zero (nth_error _b i))%Z
         then Some false
    else less_loop _a _b n' (S i)
  end.

Definition string_less_than (a b : string) : bool :=
  let '(_a, adi) := with_point (strip_zeros (list_ascii_of_string a)) in
  let '(_b, bdi) := with_point (strip_zeros (list_ascii_of_string b)) in
  if adi <? bdi then true
  else if bdi <? adi then false
  else match less_loop _a _b (List.length _a - 1) 0 with
       | Some r => r
       | None => if List.length _a <=? List.length _b then false else true
       end.

Definition string_max (a b : string) : string :=
  if string_less_than a b then b else a.

(** *** Decimal strings and their numeric value *)

(** A decimal string: only digits and at most one decimal point, no sign.
    Either side of the point may be empty ([string_half "1"] is [".5"]). *)
Definition decimal_chars (s : chars) : bool :=
  forallb (fun c => is_digit c || Ascii.eqb c ".") s
  && (count_occ ascii_dec s "."%char <=? 1).

Definition well_formed (s : string) : bool :=
  decimal_chars (list_ascii_of_string s).

Definition digit_val (c : ascii) : Z := Z.of_nat (code c) - 48.

(** The integer written by the digits of [s], the point left out. *)
Definition num (s : chars) : Z :=
  fold_left (fun acc c => if is_digit c then (10 * acc + digit_val c)%Z else acc)
            s 0%Z.

(** The number of code units after the decimal point. *)
Definition scale (s : chars) : nat :=
  match indexOf "." s with
  | Some p => List.length s - p - 1
  | None => 0
  end.

(** The number of code units before the decimal point. *)
Definition int_len (s : chars) : nat :=
  match indexOf "." s with
  | Some p => p
  | None => List.length s
  end.

(** The rational a decimal string denotes: its digits over [10 ^ scale]. *)
Definition value (s : string) : Q :=
  let l := list_ascii_of_string s in
  Qmake (num l) (Z.to_pos (10 ^ Z.of_nat (scale l))).

(* ===================================================================== *)
(** ** GGRC.eventqueue                                                    *)
(* ===================================================================== *)

(** The handle [setTimeout] returns: a positive integer, hence truthy. *)
Definition timer := positive.

(** How the call of a queued callback ends: it returns, or it throws. *)
Inductive ending : Type :=
| Returns
| Throws.

Section EventQueue.

(** The queued callbacks.  They are opaque: calling one is recorded in the
    trace [executed], and the call returns or throws as [call] says; a
    callback does not call back into the queue. *)
Variable op : Type.
Variable call : op -> ending.

(** The fields of [GGRC] the queue uses, and the part of the host they
    touch: [timers] are the timeouts set with
    [setTimeout(GGRC.queue_exec_next, GGRC.eventqueueTimegap)] that have
    not fired yet, oldest first. *)
Record GGRC : Type := mkGGRC {
  eventqueue : list op;
  eventqueueTimeout : option timer;
  timers : list timer;
  next_timer : timer;
  executed : list op
}.

Definition eventqueueTimegap : nat := 20.

Definition initial : GGRC :=
  {| eventqueue := [];
     eventqueueTimeout := None;
     timers := [];
     next_timer := 1%positive;
     executed := [] |}.

(** [GGRC.eventqueueTimeout = setTimeout(GGRC.queue_exec_next, ...)]. *)
Definition set_timeout (g : GGRC) : GGRC :=
  {| eventqueue := eventqueue g;
     eventqueueTimeout := Some (next_timer g);
     timers := timers g ++ [next_timer g];
     next_timer := Pos.succ (next_timer g);
     executed := executed g |}.

(** [GGRC.eventqueueTimeout = null]. *)
Definition clear_timeout (g : GGRC) : GGRC :=
  {| eventqueue := eventqueue g;
     eventqueueTimeout := None;
     timers := timers g;
     next_timer := next_timer g;
     executed := executed g |}.

(** [let fn = GGRC.eventqueue.shift(); if (fn) fn();]: the head leaves the
    queue and is called; how the call ends, and the state it ends in. *)
Definition shift_and_run (g : GGRC) : ending * GGRC :=
  (match hd_error (eventqueue g) with
   | Some fn => call fn
   | None => Returns
   end,
   {| eventqueue := tl (eventqueue g);
      eventqueueTimeout := eventqueueTimeout g;
      timers := timers g;
      next_timer := next_timer g;
      executed := match hd_error (eventqueue g) with
                  | Some fn => executed g ++ [fn]
                  | None => executed g
                  end |}).

(** When [fn()] throws, the exception ends [queue_exec_next] there (nothing
    catches it): [eventqueueTimeout] is not written. *)
Definition queue_exec_next (g : GGRC) : ending * GGRC :=
  match shift_and_run g with
  | (Throws, g) => (Throws, g)
  | (Returns, g) =>
    (Returns,
     if 0 <? List.length (eventqueue g) then set_timeout g
     else clear_timeout g)
  end.

(** The argument of [queue_event]: one function, or a list of them. *)
Inductive events : Type :=
| Fn (f : op)
| Fns (l : list op).

(** [if (typeof (events) === "function") events = [events];] *)
Definition as_list (e : events) : list op :=
  match e with
  | Fn f => [f]
  | Fns l => l
  end.

Definition queue_event (e : events) (g : GGRC) : GGRC :=
  let g := {| eventqueue := eventqueue g ++ as_list e;
              eventqueueTimeout := eventqueueTimeout g;
              timers := timers g;
              next_timer := next_timer g;
              executed := executed g |} in
  match eventqueueTimeout g with
  | None => set_timeout g
  | Some _ => g
  end.

(** The host fires timeout [t]: it leaves the pending set and its callback
    [GGRC.queue_exec_next] runs.  An exception that passes through it is the
    host's to report; [GGRC] stays as the call left it. *)
Definition fire (t : timer) (g : GGRC) : GGRC :=
  snd (queue_exec_next
         {| eventqueue := eventqueue g;
            eventqueueTimeout := eventqueueTimeout g;
            timers := List.remove Pos.eq_dec t (timers g);
            next_timer := next_timer g;
            executed := executed g |}).

(** What can happen to the queue: a caller enqueues, a pending timeout
    fires, or [queue_exec_next] is called directly (an exception that
    passes through it is the caller's; [GGRC] stays as the call left it). *)
Inductive step : GGRC -> GGRC -> Prop :=
| step_queue_event (e : events) (g : GGRC) : step g (queue_event e g)
| step_fire (t : timer) (g : GGRC) : In t (timers g) -> step g (fire t g)
| step_exec_next (g : GGRC) : step g (snd (queue_exec_next g)).

Inductive reachable : GGRC -> Prop :=
| reachable_initial : reachable initial
| reachable_step (g g' : GGRC) : reachable g -> step g g' -> reachable g'.

(** One turn of the host: the oldest pending timeout, if any, fires. *)
Definition tick (g : GGRC) : GGRC :=
  match timers g with
  | t :: _ => fire t g
  | [] => g
  end.

(** The drain: timeouts fire one after the other until the queue is empty
    and nothing is scheduled, at most [n] of them. *)
Fixpoint drain (n : nat) (g : GGRC) : GGRC :=
  match n with
  | O => g
  | S n' =>
    match eventqueue g, timers g with
    | [], [] => g
    | _, _ => drain n' (tick g)
    end
  end.

(** A sequence of calls of [queue_event]. *)
Definition enqueue_all (reqs : list events) (g : GGRC) : GGRC :=
  fold_left (fun g e => queue_event e g) reqs g.

Definition all_ops (reqs : list events) : list op :=
  flat_map as_list reqs.

End EventQueue.

Arguments eventqueue {op} g.
Arguments eventqueueTimeout {op} g.
Arguments timers {op} g.
Arguments next_timer {op} g.
Arguments executed {op} g.
Arguments initial {op}.
Arguments shift_and_run {op} call g.
Arguments queue_exec_next {op} call g.
Arguments queue_event {op} e g.
Arguments fire {op} call t g.
Arguments tick {op} call g.
Arguments drain {op} call n g.
Arguments step {op} call _ _.
Arguments reachable {op} call _.
Arguments enqueue_all {op} reqs g.
Arguments all_ops {op} reqs.
Arguments as_list {op} e.
Arguments Fn {op} f.
Arguments Fns {op} l.

(* ===================================================================== *)
(** ** Definitions the properties are stated with                         *)
(* ===================================================================== *)

(** Powers of ten. *)
Definition pow10 (n : nat) : Z := (10 ^ Z.of_nat n)%Z.

(** The code unit of a digit. *)
Definition digit_char (d : Z) : ascii := ascii_of_nat (Z.to_nat d + 48).

(** A run of digits. *)
Definition digits (l : chars) : bool := forallb is_digit l.

(** An array of one code unit strings. *)
Definition singles (l : chars) : list string :=
  map (fun c => String c EmptyString) l.

(** One step of reading digits left to right; other code units are skipped. *)
Definition horner (acc : Z) (c : ascii) : Z :=
  if is_digit c then (10 * acc + digit_val c)%Z else acc.

(** [numpad l k]: the digits of [l] read with [k - length l] zeros appended. *)
Definition numpad (l : chars) (k : nat) : Z :=
  (num l * pow10 (k - List.length l))%Z.

(** The code units of a decimal string. *)
Definition digit_or_point (c : ascii) : bool := is_digit c || Ascii.eqb c ".".

(** The least significant digit of a string (its last digit) is odd. *)
Definition lsd_odd (s : chars) : bool :=
  match rev (filter is_digit s) with
  | d :: _ => Z.odd (digit_val d)
  | [] => false
  end.

(** String-level readings of the shape of a decimal string. *)
Definition int_digits (s : string) : nat := int_len (list_ascii_of_string s).

Definition frac_digits (s : string) : nat := scale (list_ascii_of_string s).

Definition last_digit_odd (s : string) : bool :=
  lsd_odd (list_ascii_of_string s).

(** The string holds at least one digit. *)
Definition has_digit (s : string) : bool :=
  existsb is_digit (list_ascii_of_string s).

(** One iteration of the loop, on the code units [_a] and [_b] read at [i]. *)
Definition add_step (_a _b : option ascii) (st : list string * number)
  : completion (list string * number) :=
  let '(ret, _c) := st in
  if is_point _a || is_point _b then
    if negb (is_point _a) || negb (is_point _b) then
      Throw "Decimal alignment error"
    else Return ("."%string :: ret, _c)
  else
    let s := add (add (plus _a) (plus _b)) _c in
    Return (toString (rem s 10) :: ret, floor_div s 10).

(** The digit read at an index, 0 past the end. *)
Definition digit_opt (x : option ascii) : Z :=
  match x with
  | Some c => digit_val c
  | None => 0%Z
  end.

(** The two operands of [string_add] as the loop sees them. *)
Definition aligned_operands (a b : string) : chars * chars :=
  align (list_ascii_of_string a) (list_ascii_of_string b).

(** A drain step is scheduled: the timeout [GGRC.eventqueueTimeout] names is
    the one pending timeout of the host. *)
Definition scheduled {op} (g : GGRC op) : Prop :=
  exists t, eventqueueTimeout g = Some t /\ timers g = [t].

(** Nothing is scheduled. *)
Definition idle {op} (g : GGRC op) : Prop :=
  eventqueueTimeout g = None /\ timers g = [].

(** While work is queued a drain step is pending. *)
Definition work_is_scheduled {op} (g : GGRC op) : Prop :=
  (eventqueue g <> [] -> eventqueueTimeout g <> None)
  /\ (forall t, eventqueueTimeout g = Some t -> In t (timers g)).

(** [history reqs g]: [g] is reached from the initial state by the calls
    [queue_event e] for the [e] of [reqs], in that order, with timeouts firing
    and [queue_exec_next] called at any points in between. *)
Inductive history {op} (call : op -> ending)
  : list (events op) -> GGRC op -> Prop :=
| history_initial : history call [] initial
| history_queue_event reqs g e :
    history call reqs g -> history call (reqs ++ [e]) (queue_event e g)
| history_fire reqs g t :
    history call reqs g -> In t (timers g) -> history call reqs (fire call t g)
| history_exec_next reqs g :
    history call reqs g -> history call reqs (snd (queue_exec_next call g)).

(** The callback returns when called. *)
Definition returns {op} (call : op -> ending) (f : op) : Prop :=
  call f = Returns.

(** The callback [queue_exec_next] would call, if any, returns. *)
Definition head_returns {op} (call : op -> ending) (g : GGRC op) : Prop :=
  forall f, hd_error (eventqueue g) = Some f -> call f = Returns.

(** A drain step was cut short: [eventqueueTimeout] still holds the handle
    of a timeout that has fired, and no timeout is pending. *)
Definition stalled {op} (g : GGRC op) : Prop :=
  (exists t, eventqueueTimeout g = Some t) /\ timers g = [].

(** What follows a state when only the host runs the drain steps: calls of
    [queue_event] and firings of pending timeouts. *)
Inductive host_run {op} (call : op -> ending) (g : GGRC op)
  : GGRC op -> Prop :=
| host_run_refl : host_run call g g
| host_run_queue_event e g' :
    host_run call g g' -> host_run call g (queue_event e g')
| host_run_fire t g' :
    host_run call g g' -> In t (timers g') ->
    host_run call g (fire call t g').

(** Callbacks for the examples: the one numbered [0] throws. *)
Definition zero_throws (n : nat) : ending :=
  if Nat.eqb n 0 then Throws else Returns.

(* ===================================================================== *)
(** ** Further readings of decimal strings                                *)
(* ===================================================================== *)

(** The string holds digits only: an integer, no fractional part. *)
Definition all_digits (s : string) : bool := digits (list_ascii_of_string s).

(** The integer written before the decimal point. *)
Definition int_value (s : string) : Z :=
  num (firstn (int_len (list_ascii_of_string s)) (list_ascii_of_string s)).

(** The number of decimal points of a string. *)
Definition points (s : string) : nat :=
  count_occ ascii_dec (list_ascii_of_string s) "."%char.

(** The last code unit of a string. *)
Definition last_char (s : string) : option ascii :=
  hd_error (rev (list_ascii_of_string s)).

(** Half of the sum: [string_half] after [string_add]. *)
Definition midpoint (a b : string) : completion string :=
  bind (string_add a b) (fun s => Return (string_half s)).

(** The code units after the decimal point. *)
Definition frac_chars (s : string) : chars :=
  skipn (S (int_digits s)) (list_ascii_of_string s).

(** The number a decimal string denotes, cut after [m] fractional digits and
    counted in units of the last digit kept. *)
Definition truncated (m : nat) (s : string) : Z :=
  (int_value s * pow10 m + numpad (firstn m (frac_chars s)) m)%Z.

(* ===================================================================== *)
(** ** The event queue driven by the host alone                           *)
(* ===================================================================== *)

(** The states reached when [queue_exec_next] only runs as the callback of
    the timeouts that [setTimeout] registered: callers enqueue, the host
    fires pending timeouts. *)
Inductive host_reachable {op} (call : op -> ending) : GGRC op -> Prop :=
| host_initial : host_reachable call initial
| host_queue_event e g :
    host_reachable call g -> host_reachable call (queue_event e g)
| host_fire t g :
    host_reachable call g -> In t (timers g) ->
    host_reachable call (fire call t g).

(* ===================================================================== *)
(** ** GGRC.Errors                                                        *)
(* ===================================================================== *)

(** [messages]: the table of texts, by key. *)
Definition messages : list (string * string) :=
  [ ("default", "There was an error!");
    ("401", "The server says you are not authorized. Are you logged in?");
    ("403", "You don't have the permission to access the requested resource. It is either read-protected or not readable by the server.");
    ("409", "There was a conflict while saving. Your changes have not been saved yet. Please refresh the page and try saving again");
    ("412", "One of the form fields isn't right. Check the form for any highlighted fields.") ]%string.

(** [messages[key]]; [None] is [undefined]. *)
Fixpoint lookup {A} (key : string) (table : list (string * A)) : option A :=
  match table with
  | [] => None
  | (k, v) :: rest => if String.eqb k key then Some v else lookup key rest
  end.

(** [GGRC.Errors.messages.default]. *)
Definition default_message : string := "There was an error!".

(** [!!s] for a string or [undefined]: the empty string is falsy. *)
Definition truthy_string (s : option string) : bool :=
  match s with
  | Some t => negb (String.eqb t EmptyString)
  | None => false
  end.

(** [type || 'warning']. *)
Definition type_or_warning (type : option string) : string :=
  match type with
  | Some t => if String.eqb t EmptyString then "warning"%string else t
  | None => "warning"%string
  end.

(** The key a number indexes an object with: its decimal notation. *)
Definition key_of (n : N) : string := NilZero.string_of_uint (N.to_uint n).

(** The response an error handler is called with; [status] is a number. *)
Record xhr : Type := { status : N }.

Section Errors.

(** The objects passed as [data], and the renderers [can.mustache] makes of
    a template text. *)
Variable payload : Type.
Variable renderer : Type.
Variable mustache : string -> renderer.

(** What a property of the flash holds. *)
Inductive flash_value : Type :=
| Text (s : string)
| Rendered (r : renderer)
| Payload (d : payload).

(** [props]: the object passed with the event [ajax:flash], its keys in the
    order they were set. *)
Definition props : Type := list (string * flash_value).

(** [props[key] = v]. *)
Fixpoint set_prop (key : string) (v : flash_value) (p : props) : props :=
  match p with
  | [] => [(key, v)]
  | (k, w) :: rest =>
    if String.eqb k key then (k, v) :: rest else (k, w) :: set_prop key v rest
  end.

(** [notifier(type, message, data)]: the object it triggers [ajax:flash]
    with.  ([type] is a key that names an own property: not ["__proto__"].) *)
Definition notifier (type message : option string) (data : option payload)
  : props :=
  let '(message, props) :=
    match data with
    | Some d =>
      if truthy_string message then
        (option_map (fun m => Rendered (mustache m)) message,
         [("data"%string, Payload d)])
      else (option_map Text message, [])
    | None => (option_map Text message, [])
    end in
  let type := type_or_warning type in
  let shown := match message with
               | Some (Text m) =>
                 if truthy_string (Some m) then Text m else Text default_message
               | Some v => v
               | None => Text default_message
               end in
  set_prop type shown props.

(** One call of the function [notifierXHR(type, message)] returns: the
    message it keeps for the next call, and the flash it triggers. *)
Definition xhr_handler (type message : option string) (err : option xhr)
  : option string * props :=
  let status := match err with
                | Some e => if (status e =? 0)%N then None else Some (status e)
                | None => None
                end in
  let message := match status with
                 | Some s =>
                   if truthy_string message then message
                   else lookup (key_of s) messages
                 | None => message
                 end in
  (message, notifier type message None).

(** The flashes of one handler called with [errs], one after the other. *)
Fixpoint xhr_flashes (type message : option string) (errs : list (option xhr))
  : list props :=
  match errs with
  | [] => []
  | err :: rest =>
    let '(message, flash) := xhr_handler type message err in
    flash :: xhr_flashes type message rest
  end.

(** The status has a text in the table. *)
Definition known_status (err : option xhr) : option string :=
  match err with
  | Some e =>
    if (status e =? 0)%N then None else lookup (key_of (status e)) messages
  | None => None
  end.

End Errors.

Arguments Text {payload renderer} s.
Arguments Rendered {payload renderer} r.
Arguments Payload {payload renderer} d.
Arguments set_prop {payload renderer} key v p.
Arguments notifier {payload renderer} mustache type message data.
Arguments xhr_handler {payload renderer} mustache type message err.
Arguments xhr_flashes {payload renderer} mustache type message errs.

(* ===================================================================== *)
(** ** GGRC.make_model_instance and GGRC.page_instance                    *)
(* ===================================================================== *)

Section PageInstance.

(** Page objects (compared by reference), model classes and the instances
    [Model.model] builds.  [infer_object_type] and the constructor are taken
    as they come; [None] is [null]. *)
Variable object : Type.
Variable model : Type.
Variable instance : Type.
Variable object_eq_dec : forall x y : object, {x = y} + {x <> y}.
Variable infer_object_type : object -> option model.
Variable build : model -> object -> instance.

(** The fields of [GGRC] the two functions read and write; [None] is a value
    that is not set. *)
Record page : Type := mkPage {
  page_object : option object;
  page_model : option instance;
  _page_instance : option instance
}.

Definition set_page_model (i : instance) (g : page) : page :=
  {| page_object := page_object g;
     page_model := Some i;
     _page_instance := _page_instance g |}.

Definition set_page_instance (i : option instance) (g : page) : page :=
  {| page_object := page_object g;
     page_model := page_model g;
     _page_instance := i |}.

(** [!!v] for an object or a value that is not set. *)
Definition is_set {A} (v : option A) : bool :=
  match v with
  | Some _ => true
  | None => false
  end.

(** [GGRC.page_object === data]. *)
Definition is_page_object (g : page) (data : object) : bool :=
  match page_object g with
  | Some o => if object_eq_dec o data then true else false
  | None => false
  end.

Definition make_model_instance (data : option object) (g : page)
  : completion (option instance * page) :=
  match data with
  | None => Return (None, g)
  | Some d =>
    if is_set (page_model g) && is_page_object g d then Return (page_model g, g)
    else match infer_object_type d with
         | Some cls =>
           Return (Some (build cls d), set_page_model (build cls d) g)
         | None => Throw "TypeError"
         end
  end.

Definition page_instance (g : page) : completion (option instance * page) :=
  match _page_instance g, page_object g with
  | None, Some o =>
    bind (make_model_instance (Some o) g)
      (fun '(i, g) => Return (i, set_page_instance i g))
  | _, _ => Return (_page_instance g, g)
  end.

(** What the page does between two reads of [page_instance]: it builds
    instances, reads the page instance, or is given another page object. *)
Inductive page_step : page -> page -> Prop :=
| step_make data g r g' :
    make_model_instance data g = Return (r, g') -> page_step g g'
| step_page_instance g r g' :
    page_instance g = Return (r, g') -> page_step g g'
| step_page_object o g :
    page_step g {| page_object := o;
                   page_model := page_model g;
                   _page_instance := _page_instance g |}.

Inductive page_steps : page -> page -> Prop :=
| page_steps_refl g : page_steps g g
| page_steps_step g g' g'' :
    page_steps g g' -> page_step g' g'' -> page_steps g g''.

End PageInstance.

Arguments page_object {object instance} p.
Arguments page_model {object instance} p.
Arguments _page_instance {object instance} p.
Arguments is_page_object {object instance} object_eq_dec g data.
Arguments make_model_instance {object model instance}
  object_eq_dec infer_object_type build data g.
Arguments page_instance {object model instance}
  object_eq_dec infer_object_type build g.
Arguments page_step {object model instance}
  object_eq_dec infer_object_type build _ _.
Arguments page_steps {object model instance}
  object_eq_dec infer_object_type build _ _.

(* ===================================================================== *)
(** ** The scenarios of the specification                                 *)
(* ===================================================================== *)

Example add_scenario : string_add "1.5" "2.25" = Return "3.75"%string.
Proof. reflexivity. Qed.

Example add_carry : string_add "9.5" "0.75" = Return "10.25"%string.
Proof. reflexivity. Qed.

Example half_scenario : string_half "5" = "2.5"%string.
Proof. reflexivity. Qed.

Example half_one : string_half "1" = ".5"%string.
Proof. reflexivity. Qed.

Example less_scenario : string_less_than "10" "9" = false.
Proof. reflexivity. Qed.

(* ===================================================================== *)
(** ** Digits, powers of ten and the value of digit lists                 *)
(* ===================================================================== *)

Section Digits.

Local Open Scope Z_scope.

Lemma pow10_0 : pow10 0 = 1.
Proof. reflexivity. Qed.

Lemma pow10_S n : pow10 (S n) = 10 * pow10 n.
Proof.
  unfold pow10. rewrite Nat2Z.inj_succ, Z.pow_succ_r; [reflexivity | lia].
Qed.

Lemma pow10_pos n : 0 < pow10 n.
Proof. unfold pow10. apply Z.pow_pos_nonneg; lia. Qed.

Lemma pow10_add n m : pow10 (n + m) = pow10 n * pow10 m.
Proof.
  unfold pow10. rewrite Nat2Z.inj_add, Z.pow_add_r; [reflexivity | lia | lia].
Qed.

Lemma pow10_le_split (n m : nat) :
  (n <= m)%nat -> pow10 m = pow10 n * pow10 (m - n).
Proof.
  intros H. rewrite <- pow10_add. f_equal. lia.
Qed.

Lemma small_cases d :
  0 <= d <= 9 ->
  d = 0 \/ d = 1 \/ d = 2 \/ d = 3 \/ d = 4 \/ d = 5 \/ d = 6 \/ d = 7
  \/ d = 8 \/ d = 9.
Proof. lia. Qed.

Ltac each_digit d H :=
  let C := fresh "C" in
  pose proof (small_cases d H) as C;
  repeat (destruct C as [C | C]); subst d.

Lemma toString_digit d :
  0 <= d <= 9 -> toString (Num d) = String (digit_char d) EmptyString.
Proof. intros H. each_digit d H; reflexivity. Qed.

Lemma is_digit_digit_char d : 0 <= d <= 9 -> is_digit (digit_char d) = true.
Proof. intros H. each_digit d H; reflexivity. Qed.

Lemma digit_val_digit_char d : 0 <= d <= 9 -> digit_val (digit_char d) = d.
Proof. intros H. each_digit d H; reflexivity. Qed.

Lemma digit_val_range c : is_digit c = true -> 0 <= digit_val c <= 9.
Proof.
  unfold is_digit, digit_val. intros H.
  apply andb_true_iff in H. destruct H as [H1 H2].
  apply Nat.leb_le in H1. apply Nat.leb_le in H2. lia.
Qed.

Lemma to_number_digit c : is_digit c = true -> to_number c = Num (digit_val c).
Proof. unfold to_number, digit_val. intros ->. reflexivity. Qed.

Lemma digit_not_point c : is_digit c = true -> Ascii.eqb c "." = false.
Proof.
  intros H. destruct (Ascii.eqb_spec c "."%char) as [E | E]; [| reflexivity].
  subst c. discriminate H.
Qed.

Lemma point_not_digit : is_digit "." = false.
Proof. reflexivity. Qed.

(** *** [num] on lists *)

Lemma num_fold l : num l = fold_left horner l 0.
Proof. reflexivity. Qed.

Lemma num_snoc l c :
  num (l ++ [c]) = if is_digit c then 10 * num l + digit_val c else num l.
Proof. unfold num. rewrite fold_left_app. reflexivity. Qed.

Lemma fold_horner_digits l : forall acc,
  digits l = true ->
  fold_left horner l acc = acc * pow10 (List.length l) + fold_left horner l 0.
Proof.
  induction l as [| x l IH]; intros acc D.
  - simpl. rewrite pow10_0. lia.
  - simpl in D. apply andb_true_iff in D. destruct D as [Dx Dl].
    cbn [fold_left List.length]. rewrite pow10_S.
    rewrite (IH (horner acc x) Dl), (IH (horner 0 x) Dl).
    unfold horner. rewrite Dx. lia.
Qed.

Lemma num_nil : num [] = 0.
Proof. reflexivity. Qed.

Lemma num_cons_digit x l :
  is_digit x = true -> digits l = true ->
  num (x :: l) = digit_val x * pow10 (List.length l) + num l.
Proof.
  intros Dx Dl. unfold num. cbn [fold_left].
  rewrite (fold_horner_digits l _ Dl).
  fold (horner 0 x). unfold horner. rewrite Dx. lia.
Qed.

Lemma num_cons_other x l : is_digit x = false -> num (x :: l) = num l.
Proof. intros Dx. unfold num. cbn [fold_left]. rewrite Dx. reflexivity. Qed.

Lemma num_app_digits l1 l2 :
  digits l2 = true ->
  num (l1 ++ l2) = num l1 * pow10 (List.length l2) + num l2.
Proof.
  intros D. unfold num. rewrite fold_left_app.
  apply (fold_horner_digits l2 _ D).
Qed.

Lemma num_point_digits i f :
  digits f = true ->
  num (i ++ "."%char :: f) = num i * pow10 (List.length f) + num f.
Proof.
  intros D. unfold num. rewrite fold_left_app. cbn [fold_left].
  rewrite point_not_digit. apply (fold_horner_digits f _ D).
Qed.

Lemma num_nonneg_digits l : digits l = true -> 0 <= num l.
Proof.
  induction l as [| x l IH] using rev_ind; intros D.
  - rewrite num_nil. lia.
  - unfold digits in D. rewrite forallb_app in D.
    apply andb_true_iff in D. destruct D as [Dl Dx]. simpl in Dx.
    rewrite andb_true_r in Dx. rewrite num_snoc, Dx.
    pose proof (digit_val_range x Dx). specialize (IH Dl). lia.
Qed.

Lemma num_repeat_zero k l : num (repeat "0"%char k ++ l) = num l.
Proof.
  induction k as [| k IH]; [reflexivity |].
  cbn [repeat app]. unfold num in *. cbn [fold_left]. exact IH.
Qed.

Lemma digits_app l1 l2 : digits (l1 ++ l2) = digits l1 && digits l2.
Proof. apply forallb_app. Qed.

Lemma digits_repeat_zero k : digits (repeat "0"%char k) = true.
Proof. induction k; [reflexivity | exact IHk]. Qed.

Lemma numpad_nil k : numpad [] k = 0.
Proof. unfold numpad. rewrite num_nil. lia. Qed.

Lemma numpad_cons x l k :
  is_digit x = true -> digits l = true -> (List.length l <= k)%nat ->
  numpad (x :: l) (S k) = digit_val x * pow10 k + numpad l k.
Proof.
  intros Dx Dl Hk. unfold numpad. rewrite (num_cons_digit x l Dx Dl).
  cbn [List.length]. replace (S k - S (List.length l))%nat
    with (k - List.length l)%nat by lia.
  rewrite (pow10_le_split (List.length l) k Hk). ring.
Qed.

End Digits.

(* ===================================================================== *)
(** ** The loop of [string_add]                                           *)
(* ===================================================================== *)

Section AddLoop.

Local Open Scope Z_scope.

Lemma nth_error_tl {A} (l : list A) i : nth_error l (S i) = nth_error (tl l) i.
Proof. destruct l; [destruct i |]; reflexivity. Qed.

Lemma nth_error_hd {A} (l : list A) : nth_error l 0 = hd_error l.
Proof. destruct l; reflexivity. Qed.

(** The iteration at index 0 is the last one: it can be peeled off, the
    others then run on the tails. *)
Lemma add_loop_peel a b : forall n _c ret,
  add_loop a b (S n) _c ret
  = bind (add_loop (tl a) (tl b) n _c ret) (add_step (hd_error a) (hd_error b)).
Proof.
  induction n as [| n IH]; intros _c ret.
  - cbn [add_loop bind]. rewrite !nth_error_hd. unfold add_step.
    destruct (is_point (hd_error a) || is_point (hd_error b))%bool;
      [destruct (negb (is_point (hd_error a)) || negb (is_point (hd_error b)))%bool |];
      reflexivity.
  - change (add_loop a b (S (S n)) _c ret) with
      (let _a := nth_error a (S n) in
       let _b := nth_error b (S n) in
       if (is_point _a || is_point _b)%bool then
         if (negb (is_point _a) || negb (is_point _b))%bool then
           Throw "Decimal alignment error"
         else add_loop a b (S n) _c ("."%string :: ret)
       else
         let s := add (add (plus _a) (plus _b)) _c in
         add_loop a b (S n) (floor_div s 10) (toString (rem s 10) :: ret)).
    cbv zeta. rewrite !nth_error_tl. rewrite !IH.
    cbn [add_loop].
    destruct (is_point (nth_error (tl a) n) || is_point (nth_error (tl b) n))%bool;
      [destruct (negb (is_point (nth_error (tl a) n))
                 || negb (is_point (nth_error (tl b) n)))%bool |];
      reflexivity.
Qed.

Lemma add_step_digit _a _b dx dy ret c0 :
  is_point _a = false -> is_point _b = false ->
  plus _a = Num dx -> plus _b = Num dy ->
  0 <= dx <= 9 -> 0 <= dy <= 9 -> c0 = 0 \/ c0 = 1 ->
  exists d c,
    add_step _a _b (ret, Num c0)
    = Return (String (digit_char d) EmptyString :: ret, Num c)
    /\ 0 <= d <= 9 /\ (c = 0 \/ c = 1) /\ dx + dy + c0 = 10 * c + d.
Proof.
  intros Pa Pb Ea Eb Hx Hy Hc.
  exists (Z.rem (dx + dy + c0) 10), ((dx + dy + c0) / 10).
  assert (Hs : 0 <= dx + dy + c0 <= 19) by lia.
  assert (Hr : Z.rem (dx + dy + c0) 10 = (dx + dy + c0) mod 10)
    by (apply Z.rem_mod_nonneg; lia).
  pose proof (Z.mod_pos_bound (dx + dy + c0) 10 ltac:(lia)) as Hm.
  pose proof (Z.div_mod (dx + dy + c0) 10 ltac:(lia)) as Hdm.
  assert (Hq : 0 <= (dx + dy + c0) / 10 <= 1).
  { split; [apply Z.div_pos; lia |].
    apply Z.lt_succ_r. apply Z.div_lt_upper_bound; lia. }
  unfold add_step. rewrite Pa, Pb, Ea, Eb. cbn [orb add rem floor_div].
  rewrite toString_digit by lia.
  repeat split; try lia.
Qed.

Lemma plus_hd_digits l :
  digits l = true ->
  is_point (hd_error l) = false
  /\ plus (hd_error l) = Num (digit_opt (hd_error l))
  /\ 0 <= digit_opt (hd_error l) <= 9.
Proof.
  destruct l as [| x l]; intros D.
  - cbn. repeat split; lia.
  - simpl in D. apply andb_true_iff in D. destruct D as [Dx _].
    cbn [hd_error is_point plus digit_opt].
    rewrite (digit_not_point x Dx), (to_number_digit x Dx).
    repeat split; apply (digit_val_range x Dx).
Qed.

Lemma digits_tl l : digits l = true -> digits (tl l) = true.
Proof.
  destruct l as [| x l]; [reflexivity |]. simpl.
  intros D. apply andb_true_iff in D. apply D.
Qed.

Lemma numpad_hd_tl l n :
  digits l = true -> (List.length (tl l) <= n)%nat ->
  numpad l (S n) = digit_opt (hd_error l) * pow10 n + numpad (tl l) n.
Proof.
  destruct l as [| x l]; intros D Hn.
  - cbn [hd_error tl digit_opt]. rewrite !numpad_nil. lia.
  - simpl in D. apply andb_true_iff in D. destruct D as [Dx Dl].
    cbn [hd_error tl digit_opt]. apply numpad_cons; assumption.
Qed.

(** Fractional digits: the lists are read from index [n - 1] down, the
    shorter one standing for zeros at its missing positions. *)
Lemma add_loop_frac : forall n fa fb,
  digits fa = true -> digits fb = true ->
  n = Nat.max (List.length fa) (List.length fb) ->
  exists rf c,
    add_loop fa fb n (Num 0) [] = Return (singles rf, Num c)
    /\ digits rf = true /\ List.length rf = n /\ (c = 0 \/ c = 1)
    /\ num rf + c * pow10 n = numpad fa n + numpad fb n.
Proof.
  induction n as [| n IH]; intros fa fb Da Db Hn.
  - destruct fa; [| cbn [List.length] in Hn; lia].
    destruct fb; [| cbn [List.length] in Hn; lia].
    exists [], 0. cbn. repeat split; auto.
  - assert (Hn' : n = Nat.max (List.length (tl fa)) (List.length (tl fb))).
    { destruct fa, fb; cbn [List.length tl] in *; lia. }
    destruct (IH (tl fa) (tl fb) (digits_tl _ Da) (digits_tl _ Db) Hn')
      as (rf & c0 & E & Drf & Lrf & Hc0 & Hnum).
    rewrite add_loop_peel, E. cbn [bind].
    destruct (plus_hd_digits fa Da) as (Pa & Ea & Ra).
    destruct (plus_hd_digits fb Db) as (Pb & Eb & Rb).
    destruct (add_step_digit _ _ _ _ (singles rf) c0 Pa Pb Ea Eb Ra Rb Hc0)
      as (d & c & Es & Hd & Hc & Hsum).
    exists (digit_char d :: rf), c. rewrite Es.
    assert (Dd : is_digit (digit_char d) = true)
      by (apply is_digit_digit_char; exact Hd).
    repeat split; auto.
    + simpl. rewrite Dd. exact Drf.
    + simpl. lia.
    + rewrite (num_cons_digit _ _ Dd Drf), Lrf.
      rewrite (digit_val_digit_char d Hd).
      rewrite (numpad_hd_tl fa n Da) by lia.
      rewrite (numpad_hd_tl fb n Db) by lia.
      rewrite pow10_S.
      apply (f_equal (fun z => z * pow10 n)) in Hsum. lia.
Qed.

(** Integer digits, of equal number on both sides once aligned: they sit in
    front of what was already summed. *)
Lemma add_loop_int : forall ia ib ta tb m ret0 c0,
  digits ia = true -> digits ib = true ->
  List.length ia = List.length ib ->
  add_loop ta tb m (Num 0) [] = Return (ret0, Num c0) ->
  c0 = 0 \/ c0 = 1 ->
  exists ri c,
    add_loop (ia ++ ta) (ib ++ tb) (List.length ia + m) (Num 0) []
    = Return (singles ri ++ ret0, Num c)
    /\ digits ri = true /\ List.length ri = List.length ia
    /\ (c = 0 \/ c = 1)
    /\ num ri + c * pow10 (List.length ia) = num ia + num ib + c0.
Proof.
  induction ia as [| x ia IH]; intros ib ta tb m ret0 c0 Da Db HL E Hc0.
  - destruct ib; [| discriminate HL].
    exists [], c0. cbn [app List.length Nat.add singles map].
    rewrite E, num_nil, pow10_0. repeat split; auto. lia.
  - destruct ib as [| y ib]; [discriminate HL |].
    simpl in Da, Db. apply andb_true_iff in Da, Db.
    destruct Da as [Dx Da]. destruct Db as [Dy Db].
    injection HL as HL.
    destruct (IH ib ta tb m ret0 c0 Da Db HL E Hc0)
      as (ri & c1 & E1 & Dri & Lri & Hc1 & Hnum).
    cbn [List.length Nat.add]. rewrite <- !app_comm_cons.
    rewrite add_loop_peel. cbn [tl hd_error]. rewrite E1. cbn [bind].
    assert (Px : is_point (Some x) = false) by (apply digit_not_point; auto).
    assert (Py : is_point (Some y) = false) by (apply digit_not_point; auto).
    destruct (add_step_digit (Some x) (Some y) _ _ (singles ri ++ ret0) c1
                Px Py (to_number_digit x Dx) (to_number_digit y Dy)
                (digit_val_range x Dx) (digit_val_range y Dy) Hc1)
      as (d & c & Es & Hd & Hc & Hsum).
    exists (digit_char d :: ri), c. rewrite Es.
    assert (Dd : is_digit (digit_char d) = true)
      by (apply is_digit_digit_char; exact Hd).
    repeat split; auto.
    + simpl. rewrite Dd. exact Dri.
    + simpl. lia.
    + rewrite (num_cons_digit _ _ Dd Dri), Lri.
      rewrite (digit_val_digit_char d Hd).
      rewrite (num_cons_digit x ia Dx Da), (num_cons_digit y ib Dy Db).
      rewrite <- HL. rewrite pow10_S.
      apply (f_equal (fun z => z * pow10 (List.length ia))) in Hsum. lia.
Qed.

(** The decimal points, at the same index on both sides. *)
Lemma add_loop_point fa fb m ret0 c0 :
  add_loop fa fb m (Num 0) [] = Return (ret0, c0) ->
  add_loop ("."%char :: fa) ("."%char :: fb) (S m) (Num 0) []
  = Return ("."%string :: ret0, c0).
Proof.
  intros E. rewrite add_loop_peel. cbn [tl hd_error]. rewrite E. reflexivity.
Qed.

End AddLoop.

(* ===================================================================== *)
(** ** The shape of decimal strings                                       *)
(* ===================================================================== *)

Section Shape.

Lemma decimal_chars_unfold s :
  decimal_chars s
  = forallb digit_or_point s && (count_occ ascii_dec s "."%char <=? 1).
Proof. reflexivity. Qed.

Lemma indexOf_cons_point l : indexOf "." ("."%char :: l) = Some 0.
Proof. reflexivity. Qed.

Lemma indexOf_cons_digit x l :
  is_digit x = true -> indexOf "." (x :: l) = option_map S (indexOf "." l).
Proof. intros D. cbn [indexOf]. rewrite (digit_not_point x D). reflexivity. Qed.

Lemma indexOf_digits i : digits i = true -> indexOf "." i = None.
Proof.
  induction i as [| x i IH]; [reflexivity |]. simpl. intros D.
  apply andb_true_iff in D. destruct D as [Dx Di].
  fold (digits i) in Di.
  rewrite (digit_not_point x Dx), (IH Di). reflexivity.
Qed.

Lemma indexOf_digits_point i f :
  digits i = true -> indexOf "." (i ++ "."%char :: f) = Some (List.length i).
Proof.
  induction i as [| x i IH]; [reflexivity |]. simpl. intros D.
  apply andb_true_iff in D. destruct D as [Dx Di].
  fold (digits i) in Di.
  rewrite (digit_not_point x Dx), (IH Di). reflexivity.
Qed.

Lemma count_point_digits i :
  digits i = true -> count_occ ascii_dec i "."%char = 0.
Proof.
  induction i as [| x i IH]; [reflexivity |]. simpl. intros D.
  apply andb_true_iff in D. destruct D as [Dx Di].
  destruct (ascii_dec x "."%char) as [E | E].
  - subst x. discriminate Dx.
  - apply IH, Di.
Qed.

Lemma count0_digits f :
  forallb digit_or_point f = true ->
  count_occ ascii_dec f "."%char = 0 -> digits f = true.
Proof.
  induction f as [| x f IH]; [reflexivity |]. simpl. intros D C.
  apply andb_true_iff in D. destruct D as [Dx Df].
  destruct (ascii_dec x "."%char) as [E | E]; [discriminate C |].
  unfold digit_or_point in Dx. apply orb_true_iff in Dx.
  destruct Dx as [Dx | Dx].
  - rewrite Dx. apply IH; assumption.
  - apply Ascii.eqb_eq in Dx. contradiction.
Qed.

Lemma digits_digit_or_point i :
  digits i = true -> forallb digit_or_point i = true.
Proof.
  induction i as [| x i IH]; [reflexivity |]. simpl. intros D.
  apply andb_true_iff in D. destruct D as [Dx Di].
  unfold digit_or_point at 1. rewrite Dx. apply IH, Di.
Qed.

Lemma decimal_digits i : digits i = true -> decimal_chars i = true.
Proof.
  intros D. rewrite decimal_chars_unfold, (digits_digit_or_point i D).
  rewrite (count_point_digits i D). reflexivity.
Qed.

Lemma decimal_point i f :
  digits i = true -> digits f = true ->
  decimal_chars (i ++ "."%char :: f) = true.
Proof.
  intros Di Df. rewrite decimal_chars_unfold, forallb_app. cbn [forallb].
  rewrite (digits_digit_or_point i Di), (digits_digit_or_point f Df).
  rewrite count_occ_app. cbn [count_occ].
  destruct (ascii_dec "." ".") as [_ | E]; [| contradiction].
  rewrite (count_point_digits i Di), (count_point_digits f Df). reflexivity.
Qed.

(** A decimal string is a list of digits, or two of them around a point. *)
Lemma decimal_split s :
  decimal_chars s = true ->
  exists i f,
    digits i = true /\ digits f = true
    /\ ((indexOf "." s = None /\ s = i /\ f = [])
        \/ (indexOf "." s = Some (List.length i) /\ s = i ++ "."%char :: f)).
Proof.
  rewrite decimal_chars_unfold. intros H.
  apply andb_true_iff in H. destruct H as [D C]. apply Nat.leb_le in C.
  induction s as [| x s IH].
  - exists [], []. repeat split. left. repeat split.
  - simpl in D. apply andb_true_iff in D. destruct D as [Dx Ds].
    cbn [count_occ] in C.
    destruct (ascii_dec x "."%char) as [E | E].
    + subst x. exists [], s. split; [reflexivity |]. split.
      * apply count0_digits; [exact Ds | lia].
      * right. split; reflexivity.
    + assert (Dx' : is_digit x = true).
      { unfold digit_or_point in Dx. apply orb_true_iff in Dx.
        destruct Dx as [Dx | Dx]; [exact Dx |].
        apply Ascii.eqb_eq in Dx. contradiction. }
      destruct (IH Ds C) as (i & f & Di & Df & Hs).
      exists (x :: i), f. split; [simpl; rewrite Dx'; exact Di |].
      split; [exact Df |].
      rewrite (indexOf_cons_digit x s Dx').
      destruct Hs as [(E1 & E2 & E3) | (E1 & E2)].
      * left. rewrite E1. subst. repeat split.
      * right. rewrite E1. subst. split; reflexivity.
Qed.

Lemma scale_digits i : digits i = true -> scale i = 0.
Proof. intros D. unfold scale. rewrite (indexOf_digits i D). reflexivity. Qed.

Lemma scale_point i f :
  digits i = true -> scale (i ++ "."%char :: f) = List.length f.
Proof.
  intros D. unfold scale. rewrite (indexOf_digits_point i f D).
  rewrite length_app. cbn [List.length]. lia.
Qed.

(** What [string_add], [string_half] and [string_less_than] work on once
    the point is made explicit. *)
Lemma with_point_decimal s :
  decimal_chars s = true ->
  exists i f,
    digits i = true /\ digits f = true
    /\ with_point s = (i ++ "."%char :: f, List.length i)
    /\ num s = (num i * pow10 (List.length f) + num f)%Z
    /\ scale s = List.length f
    /\ (s = i ++ "."%char :: f \/ (s = i /\ f = [])).
Proof.
  intros H. destruct (decimal_split s H) as (i & f & Di & Df & Hs).
  exists i, f. split; [exact Di |]. split; [exact Df |].
  unfold with_point.
  destruct Hs as [(E1 & E2 & E3) | (E1 & E2)]; rewrite E1; subst.
  - repeat split.
    + rewrite length_app. cbn [List.length]. f_equal. lia.
    + cbn [List.length]. rewrite num_nil, pow10_0. lia.
    + apply scale_digits, Di.
    + right. split; reflexivity.
  - repeat split.
    + apply num_point_digits, Df.
    + apply scale_point, Di.
    + left. reflexivity.
Qed.

Lemma digits_existsb l :
  digits l = true -> (existsb is_digit l = true <-> l <> []).
Proof.
  destruct l as [| x l]; intros D.
  - split; [discriminate | intros H; contradiction].
  - simpl in D. apply andb_true_iff in D. destruct D as [Dx _].
    cbn [existsb]. rewrite Dx. split; [discriminate | reflexivity].
Qed.

(** A decimal string holds a digit when it has one before or after the
    point. *)
Lemma existsb_digit_count s :
  decimal_chars s = true ->
  (existsb is_digit s = true <-> 0 < int_len s + scale s).
Proof.
  intros W. destruct (decimal_split s W) as (i & f & Di & Df & Hs).
  assert (Hlen : forall l : chars, l <> [] <-> 0 < List.length l).
  { intros l. destruct l; cbn [List.length]; split; intros H;
      try lia; try discriminate; contradiction. }
  destruct Hs as [(E1 & E2 & E3) | (E1 & E2)]; subst s.
  - unfold int_len, scale. rewrite E1, (digits_existsb i Di), Hlen. lia.
  - unfold int_len, scale. rewrite E1, existsb_app. cbn [existsb].
    rewrite point_not_digit. cbn [orb]. rewrite orb_true_iff.
    rewrite (digits_existsb i Di), (digits_existsb f Df), !Hlen.
    rewrite length_app. cbn [List.length]. lia.
Qed.

Lemma int_len_with_point s : snd (with_point s) = int_len s.
Proof.
  unfold with_point, int_len. destruct (indexOf "." s); [reflexivity |].
  cbn [snd]. rewrite length_app. cbn [List.length]. lia.
Qed.

Lemma int_len_digits i : digits i = true -> int_len i = List.length i.
Proof. intros D. unfold int_len. rewrite (indexOf_digits i D). reflexivity. Qed.

Lemma int_len_point i f :
  digits i = true -> int_len (i ++ "."%char :: f) = List.length i.
Proof.
  intros D. unfold int_len. rewrite (indexOf_digits_point i f D). reflexivity.
Qed.

Lemma num_lt_pow10 l :
  digits l = true -> (0 <= num l < pow10 (List.length l))%Z.
Proof.
  induction l as [| x l IH] using rev_ind; intros D.
  - cbn [List.length]. rewrite num_nil, pow10_0. lia.
  - rewrite digits_app in D. apply andb_true_iff in D. destruct D as [Dl Dx].
    simpl in Dx. rewrite andb_true_r in Dx.
    rewrite num_snoc, Dx, length_app. cbn [List.length].
    rewrite Nat.add_1_r, pow10_S.
    pose proof (digit_val_range x Dx). specialize (IH Dl). lia.
Qed.

Lemma pad_while_eq : forall k a adi,
  pad_while k a adi = (repeat "0"%char k ++ a, adi + k).
Proof.
  induction k as [| k IH]; intros a adi.
  - cbn. f_equal. lia.
  - cbn [pad_while]. rewrite IH. f_equal; [| lia].
    change ("0"%char :: a) with (["0"%char] ++ a).
    rewrite app_assoc, <- repeat_cons. reflexivity.
Qed.

Lemma align_decimal a b ia fa ib fb :
  with_point a = (ia ++ "."%char :: fa, List.length ia) ->
  with_point b = (ib ++ "."%char :: fb, List.length ib) ->
  align a b
  = ((repeat "0"%char (List.length ib - List.length ia) ++ ia)
       ++ "."%char :: fa,
     (repeat "0"%char (List.length ia - List.length ib) ++ ib)
       ++ "."%char :: fb).
Proof.
  intros Ea Eb. unfold align. rewrite Ea, Eb, !pad_while_eq.
  rewrite <- !app_assoc.
  replace (List.length ia + (List.length ib - List.length ia) - List.length ib)
    with (List.length ia - List.length ib) by lia.
  reflexivity.
Qed.

End Shape.

(* ===================================================================== *)
(** ** [string_add] on decimal strings                                    *)
(* ===================================================================== *)

Section StringAdd.

Local Open Scope Z_scope.

Lemma join_singles l : join (singles l) = string_of_list_ascii l.
Proof.
  unfold join. induction l as [| x l IH]; [reflexivity |].
  cbn [singles map String.concat string_of_list_ascii].
  fold (singles l). rewrite <- IH.
  destruct (singles l) eqn:E; [| reflexivity].
  destruct l; [reflexivity | discriminate E].
Qed.

Lemma singles_app l1 l2 : singles (l1 ++ l2) = singles l1 ++ singles l2.
Proof. apply map_app. Qed.

Lemma last_is_point_snoc l x :
  last_is_point (singles (l ++ [x])) = Ascii.eqb x ".".
Proof.
  unfold last_is_point, singles. rewrite map_app, rev_app_distr. cbn.
  destruct (Ascii.eqb_spec x "."%char) as [E | E].
  - subst x. reflexivity.
  - destruct (String.eqb_spec (String x EmptyString) ".") as [E' | E'];
      [injection E' as E'; contradiction | reflexivity].
Qed.

Lemma removelast_singles_snoc l x :
  removelast (singles (l ++ [x])) = singles l.
Proof. rewrite singles_app. cbn [singles map]. apply removelast_last. Qed.

Lemma digits_snoc_inv l :
  digits l = true ->
  l = [] \/ exists l' d, l = l' ++ [d] /\ is_digit d = true.
Proof.
  destruct l as [| x l] using rev_ind; intros D; [left; reflexivity |].
  right. exists l, x. split; [reflexivity |].
  rewrite digits_app in D. apply andb_true_iff in D. destruct D as [_ D].
  simpl in D. rewrite andb_true_r in D. exact D.
Qed.

(** The end of [string_add]: the last carry becomes a leading digit and a
    point left at the end is dropped. *)
Lemma add_finish ri rf c :
  digits ri = true -> digits rf = true -> c = 0 \/ c = 1 ->
  exists r,
    (let ret := singles (ri ++ "."%char :: rf) in
     let ret := if gt0 (Num c) then toString (Num c) :: ret else ret in
     let ret := if last_is_point ret then removelast ret else ret in
     Return (join ret))
    = Return (string_of_list_ascii r)
    /\ decimal_chars r = true
    /\ scale r = List.length rf
    /\ num r = (num ri + c * pow10 (List.length ri)) * pow10 (List.length rf)
               + num rf
    /\ int_len r = (List.length ri + Z.to_nat c)%nat
    /\ (c = 1 -> hd_error r = Some "1"%char).
Proof.
  intros Di Df Hc. cbv zeta.
  set (ri' := if (0 <? c) then "1"%char :: ri else ri).
  assert (E1 : (if gt0 (Num c)
                then toString (Num c) :: singles (ri ++ "."%char :: rf)
                else singles (ri ++ "."%char :: rf))
               = singles (ri' ++ "."%char :: rf)).
  { subst ri'. destruct Hc; subst c; reflexivity. }
  assert (Di' : digits ri' = true).
  { subst ri'. destruct Hc; subst c; cbn; exact Di. }
  assert (Ni' : num ri' = num ri + c * pow10 (List.length ri)).
  { subst ri'. destruct Hc; subst c; cbn [Z.ltb Z.compare]; [lia |].
    rewrite (num_cons_digit "1" ri eq_refl Di).
    change (digit_val "1") with 1. lia. }
  assert (Li' : List.length ri' = (List.length ri + Z.to_nat c)%nat).
  { subst ri'. destruct Hc; subst c; cbn [Z.ltb Z.compare List.length]; lia. }
  assert (Hi' : c = 1 -> forall t, hd_error (ri' ++ t) = Some "1"%char).
  { intros ->. reflexivity. }
  rewrite E1, <- Ni', <- Li'.
  destruct (digits_snoc_inv rf Df) as [-> | (rf' & d & -> & Dd)].
  - exists ri'. rewrite last_is_point_snoc, removelast_singles_snoc.
    cbn [Ascii.eqb Bool.eqb]. rewrite join_singles.
    split; [reflexivity |]. split; [apply decimal_digits, Di' |].
    split; [apply scale_digits, Di' |].
    split; [cbn [List.length]; rewrite num_nil, pow10_0; lia |].
    split; [apply int_len_digits, Di' |].
    intros Hc1. rewrite <- (app_nil_r ri'). apply Hi', Hc1.
  - exists (ri' ++ "."%char :: rf' ++ [d]).
    assert (EL : (ri' ++ "."%char :: rf' ++ [d]
                  = (ri' ++ "."%char :: rf') ++ [d])%list)
      by (rewrite <- app_assoc; reflexivity).
    rewrite EL, last_is_point_snoc, (digit_not_point d Dd), join_singles.
    rewrite <- EL.
    split; [reflexivity |].
    split; [apply decimal_point; assumption |].
    split; [apply scale_point, Di' |].
    split; [apply num_point_digits, Df |].
    split; [apply int_len_point, Di' |].
    intros Hc1. apply Hi', Hc1.
Qed.

(** [string_add] on two decimal strings returns a decimal string, with as
    many fractional digits as the longer operand, whose digits read as the
    sum of the operands' digits scaled to that length. *)
Lemma string_add_spec a b :
  well_formed a = true -> well_formed b = true ->
  exists r c,
    string_add a b = Return (string_of_list_ascii r)
    /\ decimal_chars r = true
    /\ scale r = Nat.max (scale (list_ascii_of_string a))
                         (scale (list_ascii_of_string b))
    /\ num r
       = num (list_ascii_of_string a)
         * pow10 (scale r - scale (list_ascii_of_string a))
         + num (list_ascii_of_string b)
           * pow10 (scale r - scale (list_ascii_of_string b))
    /\ (c = 0 \/ c = 1)
    /\ int_len r
       = (Nat.max (int_len (list_ascii_of_string a))
                  (int_len (list_ascii_of_string b)) + Z.to_nat c)%nat
    /\ (c = 1 -> hd_error r = Some "1"%char)
    /\ (c = 1 <->
        pow10 (Nat.max (int_len (list_ascii_of_string a))
                       (int_len (list_ascii_of_string b)))
        * pow10 (scale r) <= num r).
Proof.
  unfold well_formed, string_add.
  set (la := list_ascii_of_string a). set (lb := list_ascii_of_string b).
  intros Wa Wb.
  destruct (with_point_decimal la Wa) as (ia & fa & Dia & Dfa & Ea & Na & Sa & _).
  destruct (with_point_decimal lb Wb) as (ib & fb & Dib & Dfb & Eb & Nb & Sb & _).
  rewrite (align_decimal la lb ia fa ib fb Ea Eb).
  set (ia' := (repeat "0"%char (List.length ib - List.length ia) ++ ia)%list).
  set (ib' := (repeat "0"%char (List.length ia - List.length ib) ++ ib)%list).
  assert (Dia' : digits ia' = true)
    by (subst ia'; rewrite digits_app, digits_repeat_zero; exact Dia).
  assert (Dib' : digits ib' = true)
    by (subst ib'; rewrite digits_app, digits_repeat_zero; exact Dib).
  assert (HL : List.length ia' = List.length ib')
    by (subst ia' ib'; rewrite !length_app, !repeat_length; lia).
  assert (Nia : num ia' = num ia) by apply num_repeat_zero.
  assert (Nib : num ib' = num ib) by apply num_repeat_zero.
  set (n := Nat.max (List.length fa) (List.length fb)).
  replace (Nat.max (List.length (ia' ++ "."%char :: fa))
                   (List.length (ib' ++ "."%char :: fb)))
    with (List.length ia' + S n)%nat
    by (subst n; rewrite !length_app; cbn [List.length]; lia).
  destruct (add_loop_frac n fa fb Dfa Dfb eq_refl)
    as (rf & c0 & E0 & Drf & Lrf & Hc0 & Hfrac).
  pose proof (add_loop_point fa fb n _ _ E0) as Ep.
  destruct (add_loop_int ia' ib' _ _ (S n) _ c0 Dia' Dib' HL Ep Hc0)
    as (ri & c & Ei & Dri & Lri & Hc & Hint).
  rewrite Ei. cbn [bind].
  change (singles ri ++ "."%string :: singles rf)
    with (singles ri ++ singles ("."%char :: rf)).
  rewrite <- singles_app.
  destruct (add_finish ri rf c Dri Drf Hc) as (r & Er & Wr & Sr & Nr & Ir & Hr).
  assert (Ia : int_len la = List.length ia)
    by (rewrite <- int_len_with_point, Ea; reflexivity).
  assert (Ib : int_len lb = List.length ib)
    by (rewrite <- int_len_with_point, Eb; reflexivity).
  assert (LM : List.length ia' = Nat.max (int_len la) (int_len lb)).
  { rewrite Ia, Ib. subst ia'. rewrite length_app, repeat_length. lia. }
  exists r, c. split; [exact Er |]. split; [exact Wr |].
  rewrite Sr, Sa, Sb, Lrf. split; [reflexivity |].
  rewrite <- LM.
  assert (Hcarry : c = 1 <-> pow10 (List.length ia') * pow10 n <= num r).
  { rewrite Nr, Lri, Lrf.
    pose proof (num_lt_pow10 ri Dri) as Bi. rewrite Lri in Bi.
    pose proof (num_lt_pow10 rf Drf) as Bf. rewrite Lrf in Bf.
    pose proof (pow10_pos n) as Pn.
    pose proof (pow10_pos (List.length ia')) as Pi.
    destruct Hc; subst c; split; intros H; try lia; try nia. }
  split; [| split; [exact Hc |]; split; [rewrite <- Lri; exact Ir |];
            split; [exact Hr | exact Hcarry]].
  rewrite Nr, Lri, Hint, Nia, Nib, Na, Nb, Lrf.
  unfold numpad in Hfrac. fold n.
  assert (HA : pow10 n = pow10 (List.length fa) * pow10 (n - List.length fa))
    by (apply pow10_le_split; subst n; lia).
  assert (HB : pow10 n = pow10 (List.length fb) * pow10 (n - List.length fb))
    by (apply pow10_le_split; subst n; lia).
  replace ((num ia + num ib + c0) * pow10 n)
    with (num ia * (pow10 (List.length fa) * pow10 (n - List.length fa))
          + num ib * (pow10 (List.length fb) * pow10 (n - List.length fb))
          + c0 * pow10 n)
    by (rewrite <- HA, <- HB; ring).
  lia.
Qed.

End StringAdd.

(* ===================================================================== *)
(** ** [string_half] on decimal strings                                   *)
(* ===================================================================== *)

Section StringHalf.

Local Open Scope Z_scope.

Lemma lsd_odd_num s : lsd_odd s = Z.odd (num s).
Proof.
  unfold lsd_odd. induction s as [| x s IH] using rev_ind; [reflexivity |].
  rewrite filter_app, num_snoc. cbn [filter].
  destruct (is_digit x) eqn:Dx.
  - rewrite rev_app_distr. cbn [rev app].
    rewrite Z.add_comm, Z.odd_add_mul_even; [reflexivity |].
    exists 5. lia.
  - rewrite app_nil_r. exact IH.
Qed.

Lemma half_loop_app l1 : forall l2 c ret,
  half_loop (l1 ++ l2) c ret
  = let '(r1, c1) := half_loop l1 c ret in half_loop l2 c1 r1.
Proof.
  induction l1 as [| x l1 IH]; intros l2 c ret; [reflexivity |].
  cbn [app half_loop].
  destruct (Ascii.eqb x "."); apply IH.
Qed.

Lemma half_step_digit dx k :
  0 <= dx <= 9 -> k = 0 \/ k = 1 ->
  exists q k',
    floor_div (add (Num dx) (Num (10 * k))) 2 = Num q
    /\ (if truthy (rem (Num dx) 2) then 10 else 0) = 10 * k'
    /\ 0 <= q <= 9 /\ (k' = 0 \/ k' = 1)
    /\ 2 * q + k' = dx + 10 * k.
Proof.
  intros Hd Hk. exists ((dx + 10 * k) / 2), (dx mod 2).
  pose proof (small_cases dx Hd) as C.
  repeat (destruct C as [C | C]); subst dx;
    destruct Hk; subst k; cbn; repeat split; auto; lia.
Qed.

(** Long division by two over a run of digits; the carry [10 * k] comes in
    from the digit before and [10 * k'] goes out. *)
Lemma half_loop_digits : forall l k ret,
  digits l = true -> k = 0 \/ k = 1 ->
  exists q k',
    half_loop l (10 * k) ret = ((ret ++ singles q)%list, 10 * k')
    /\ digits q = true /\ List.length q = List.length l
    /\ (k' = 0 \/ k' = 1)
    /\ 2 * num q + k' = k * pow10 (List.length l) + num l.
Proof.
  induction l as [| x l IH]; intros k ret D Hk.
  - exists [], k. cbn [half_loop singles map List.length].
    rewrite app_nil_r, num_nil, pow10_0. repeat split; auto. lia.
  - simpl in D. apply andb_true_iff in D. destruct D as [Dx Dl].
    cbn [half_loop]. rewrite (digit_not_point x Dx), (to_number_digit x Dx).
    destruct (half_step_digit (digit_val x) k (digit_val_range x Dx) Hk)
      as (q0 & k1 & Eq & Ek & Hq & Hk1 & Hstep).
    rewrite Eq, Ek, (toString_digit q0 Hq).
    destruct (IH k1 (ret ++ [String (digit_char q0) EmptyString])%list Dl Hk1)
      as (q & k' & E & Dq & Lq & Hk' & Hnum).
    exists (digit_char q0 :: q), k'. rewrite E.
    assert (Dd : is_digit (digit_char q0) = true)
      by (apply is_digit_digit_char; exact Hq).
    repeat split; auto.
    + rewrite <- app_assoc. reflexivity.
    + simpl. rewrite Dd. exact Dq.
    + simpl. lia.
    + rewrite (num_cons_digit _ _ Dd Dq), (num_cons_digit x l Dx Dl).
      rewrite (digit_val_digit_char q0 Hq), Lq.
      cbn [List.length]. rewrite pow10_S.
      apply (f_equal (fun z => z * pow10 (List.length l))) in Hstep. lia.
Qed.

(** The loop over a whole decimal string with its point. *)
Lemma half_loop_decimal i f :
  digits i = true -> digits f = true ->
  exists qi qf k,
    half_loop (i ++ "."%char :: f) 0 [] = (singles (qi ++ "."%char :: qf), 10 * k)
    /\ digits qi = true /\ digits qf = true
    /\ List.length qf = List.length f
    /\ (k = 0 \/ k = 1)
    /\ 2 * (num qi * pow10 (List.length f) + num qf) + k
       = num i * pow10 (List.length f) + num f
    /\ List.length qi = List.length i.
Proof.
  intros Di Df.
  destruct (half_loop_digits i 0 [] Di (or_introl eq_refl))
    as (qi & k1 & E1 & Dqi & Lqi & Hk1 & N1).
  destruct (half_loop_digits f k1 (singles qi ++ ["."%string])%list Df Hk1)
    as (qf & k2 & E2 & Dqf & Lqf & Hk2 & N2).
  exists qi, qf, k2. rewrite half_loop_app.
  change (10 * 0) with 0 in E1. rewrite E1. cbn [app half_loop Ascii.eqb Bool.eqb].
  rewrite E2.
  repeat split; auto.
  - rewrite singles_app, <- app_assoc. reflexivity.
  - lia.
Qed.

Lemma string_eqb_single x y :
  String.eqb (String x EmptyString) (String y EmptyString) = Ascii.eqb x y.
Proof.
  cbn [String.eqb]. destruct (Ascii.eqb x y); reflexivity.
Qed.

(** Dropping leading zeros of the array drops a run of "0" code units. *)
Lemma shift_zeros_singles : forall l,
  exists k l',
    l = (repeat "0"%char k ++ l')%list
    /\ shift_zeros (singles l) = singles l'
    /\ (l <> [] -> l' <> []).
Proof.
  induction l as [| x l IH].
  - exists 0%nat, []. repeat split. auto.
  - destruct l as [| y l].
    + exists 0%nat, [x]. repeat split. auto.
    + cbn [singles map shift_zeros]. fold (singles l).
      change ("0"%string) with (String "0" EmptyString).
      rewrite string_eqb_single.
      destruct (Ascii.eqb_spec x "0"%char) as [E | E].
      * subst x. destruct IH as (k & l' & E1 & E2 & E3).
        exists (S k), l'. cbn [repeat app]. rewrite <- E1.
        repeat split; [exact E2 |].
        intros _. apply E3. discriminate.
      * exists 0%nat, (x :: y :: l). repeat split. auto.
Qed.

Lemma indexOf_repeat_zero k l :
  indexOf "." (repeat "0"%char k ++ l)
  = option_map (fun p => (k + p)%nat) (indexOf "." l).
Proof.
  induction k as [| k IH];
    [cbn [repeat app]; destruct (indexOf "." l); reflexivity |].
  cbn [repeat app indexOf Ascii.eqb Bool.eqb]. rewrite IH.
  destruct (indexOf "." l); reflexivity.
Qed.

Lemma scale_repeat_zero k l : scale (repeat "0"%char k ++ l) = scale l.
Proof.
  unfold scale. rewrite indexOf_repeat_zero, length_app, repeat_length.
  destruct (indexOf "." l); cbn [option_map]; lia.
Qed.

Lemma decimal_chars_drop_zeros k l :
  decimal_chars (repeat "0"%char k ++ l) = true -> decimal_chars l = true.
Proof.
  rewrite !decimal_chars_unfold, forallb_app, count_occ_app.
  intros H. apply andb_true_iff in H. destruct H as [H1 H2].
  apply andb_true_iff in H1. destruct H1 as [_ H1].
  apply Nat.leb_le in H2. rewrite H1. apply Nat.leb_le. lia.
Qed.

Lemma last_drop_prefix (z l p : chars) (x : ascii) :
  (z ++ l = p ++ [x])%list -> l <> [] -> exists p', l = (p' ++ [x])%list.
Proof.
  intros E Hl. destruct (exists_last Hl) as (p' & y & ->).
  exists p'. rewrite app_assoc in E.
  apply app_inj_tail in E. destruct E as [_ ->]. reflexivity.
Qed.

(** [string_half] on a decimal string returns a decimal string whose digits
    read as half the operand's, with one more fractional digit, a "5", when
    the operand's digits read as an odd integer. *)
Lemma string_half_spec a :
  well_formed a = true ->
  exists r k,
    string_half a = string_of_list_ascii r
    /\ decimal_chars r = true
    /\ k = (if Z.odd (num (list_ascii_of_string a)) then 1%nat else 0%nat)
    /\ scale r = (scale (list_ascii_of_string a) + k)%nat
    /\ 2 * num r = num (list_ascii_of_string a) * pow10 k
    /\ (k = 1%nat -> exists p, r = (p ++ ["5"%char])%list)
    /\ (existsb is_digit (list_ascii_of_string a) = true ->
        existsb is_digit r = true).
Proof.
  unfold well_formed, string_half. intros W.
  set (la := list_ascii_of_string a) in *.
  destruct (with_point_decimal la W) as (i & f & Di & Df & Ew & Na & Sa & Hs).
  assert (Ea : match indexOf "." la with
               | Some _ => la
               | None => (la ++ ["."%char])%list
               end = (i ++ "."%char :: f)%list).
  { unfold with_point in Ew. destruct (indexOf "." la); congruence. }
  rewrite Ea.
  destruct (half_loop_decimal i f Di Df)
    as (qi & qf & k & E & Dqi & Dqf & Lqf & Hk & Hnum & Lqi).
  rewrite E.
  assert (Hodd : Z.odd (num la) = (0 <? 10 * k)).
  { rewrite Na, <- Hnum, Z.add_comm, Z.odd_add_mul_2.
    destruct Hk; subst k; reflexivity. }
  set (qf' := if (0 <? 10 * k) then (qf ++ ["5"%char])%list else qf).
  assert (E1 : (if (0 <? 10 * k)
                then (singles (qi ++ "."%char :: qf) ++ ["5"%string])%list
                else singles (qi ++ "."%char :: qf))
               = singles (qi ++ "."%char :: qf')).
  { subst qf'. destruct (0 <? 10 * k); [| reflexivity].
    rewrite !singles_app. cbn [singles map]. rewrite singles_app.
    rewrite <- app_assoc. reflexivity. }
  rewrite E1.
  assert (Dqf' : digits qf' = true).
  { subst qf'. destruct (0 <? 10 * k); [| exact Dqf].
    rewrite digits_app, Dqf. reflexivity. }
  set (kn := if Z.odd (num la) then 1%nat else 0%nat).
  assert (Lqf' : List.length qf' = (List.length f + kn)%nat).
  { subst qf' kn. rewrite Hodd. destruct (0 <? 10 * k).
    - rewrite length_app. cbn [List.length]. lia.
    - lia. }
  assert (Nqf' : 2 * (num qi * pow10 (List.length qf') + num qf')
                 = num la * pow10 kn).
  { rewrite Lqf', Na, <- Hnum. subst qf' kn. rewrite Hodd.
    destruct Hk; subst k.
    - change (0 <? 10 * 0) with false. cbv iota.
      rewrite Nat.add_0_r, pow10_0. lia.
    - change (0 <? 10 * 1) with true. cbv iota.
      rewrite num_snoc. change (is_digit "5") with true. cbv iota.
      rewrite pow10_add. change (pow10 1) with 10.
      change (digit_val "5") with 5. lia. }
  pose (h := if last_is_point (singles (qi ++ "."%char :: qf'))
             then qi else (qi ++ "."%char :: qf')%list).
  assert (E2 : (if last_is_point (singles (qi ++ "."%char :: qf'))
                then removelast (singles (qi ++ "."%char :: qf'))
                else singles (qi ++ "."%char :: qf')) = singles h
               /\ decimal_chars h = true
               /\ scale h = List.length qf'
               /\ num h = num qi * pow10 (List.length qf') + num qf'
               /\ (kn = 1%nat -> h <> [] /\ exists p, h = (p ++ ["5"%char])%list)
               /\ (qi <> [] \/ qf' <> [] ->
                   exists p d, h = (p ++ [d])%list /\ is_digit d = true)).
  { subst h. destruct (digits_snoc_inv qf' Dqf') as [Eq | (q' & d & Eq & Dd)].
    - rewrite Eq. rewrite last_is_point_snoc, removelast_singles_snoc.
      cbn [Ascii.eqb Bool.eqb List.length].
      rewrite num_nil, pow10_0.
      split; [reflexivity |]. split; [apply decimal_digits, Dqi |].
      split; [apply scale_digits, Dqi |]. split; [lia |].
      split.
      + intros Hkn. rewrite Eq in Lqf'. cbn [List.length] in Lqf'. lia.
      + intros [Hq | Hq]; [| contradiction].
        destruct (digits_snoc_inv qi Dqi) as [-> | (p & d & -> & Dd)];
          [contradiction |].
        exists p, d. split; [reflexivity | exact Dd].
    - assert (EL : (qi ++ "."%char :: qf' = (qi ++ "."%char :: q') ++ [d])%list)
        by (rewrite Eq, <- app_assoc; reflexivity).
      assert (Hb : last_is_point (singles (qi ++ "."%char :: qf')) = false)
        by (rewrite EL, last_is_point_snoc; apply digit_not_point, Dd).
      rewrite Hb.
      split; [reflexivity |]. split; [apply decimal_point; assumption |].
      split; [apply scale_point, Dqi |].
      split; [apply num_point_digits, Dqf' |].
      split.
      + intros Hkn. split; [destruct qi; discriminate |].
        exists (qi ++ "."%char :: qf)%list. subst qf' kn.
        rewrite Hodd in Hkn. destruct (0 <? 10 * k); [| discriminate Hkn].
        rewrite <- app_assoc. reflexivity.
      + intros _. exists (qi ++ "."%char :: q')%list, d.
        split; [exact EL | exact Dd]. }
  destruct E2 as (E2 & Wh & Sh & Nh & H5 & Hlast). rewrite E2.
  destruct (shift_zeros_singles h) as (z & r & Eh & Er & Hne).
  exists r, kn. rewrite Er, join_singles.
  split; [reflexivity |].
  split; [apply (decimal_chars_drop_zeros z); rewrite <- Eh; exact Wh |].
  split; [reflexivity |].
  split; [rewrite <- (scale_repeat_zero z r), <- Eh, Sh, Lqf', Sa; reflexivity |].
  split; [rewrite <- (num_repeat_zero z r), <- Eh, Nh; exact Nqf' |].
  split.
  - intros Hkn. destruct (H5 Hkn) as (Hh & p & Ep).
    apply (last_drop_prefix (repeat "0"%char z) r p).
    + rewrite <- Eh. exact Ep.
    + apply Hne, Hh.
  - intros Hd.
    assert (Hif : i <> [] \/ f <> []).
    { destruct Hs as [Es | [Es Ef]]; rewrite Es in Hd.
      - rewrite existsb_app in Hd. cbn [existsb] in Hd.
        rewrite point_not_digit in Hd. cbn [orb] in Hd.
        apply orb_true_iff in Hd. destruct Hd as [Hd | Hd].
        + left. intros ->. discriminate Hd.
        + right. intros ->. discriminate Hd.
      - left. intros ->. discriminate Hd. }
    assert (Hq : qi <> [] \/ qf' <> []).
    { destruct Hif as [Hi | Hf].
      - left. intros ->. apply Hi. destruct i; [reflexivity | discriminate Lqi].
      - right. intros Eq. rewrite Eq in Lqf'. cbn [List.length] in Lqf'.
        apply Hf. destruct f; [reflexivity |]. cbn [List.length] in Lqf'. lia. }
    destruct (Hlast Hq) as (p & d & Ep & Dd).
    destruct (last_drop_prefix (repeat "0"%char z) r p d) as (p' & ->).
    + rewrite <- Eh. exact Ep.
    + apply Hne. rewrite Ep. destruct p; discriminate.
    + rewrite existsb_app. cbn [existsb]. rewrite Dd.
      rewrite orb_true_r. reflexivity.
Qed.

End StringHalf.

(* ===================================================================== *)
(** ** Values, commutation, the error branch and the comparison           *)
(* ===================================================================== *)

Section Values.

Local Open Scope Z_scope.

Lemma value_den s :
  Zpos (Qden (value s)) = pow10 (scale (list_ascii_of_string s)).
Proof.
  unfold value. cbn [Qden]. apply Z2Pos.id. apply pow10_pos.
Qed.

Lemma value_num s : Qnum (value s) = num (list_ascii_of_string s).
Proof. reflexivity. Qed.

Lemma well_formed_of_list r :
  decimal_chars r = true -> well_formed (string_of_list_ascii r) = true.
Proof.
  unfold well_formed. rewrite list_ascii_of_string_of_list_ascii. auto.
Qed.

Lemma string_add_value a b :
  well_formed a = true -> well_formed b = true ->
  exists s, string_add a b = Return s /\ well_formed s = true
            /\ (value s == value a + value b)%Q.
Proof.
  intros Wa Wb.
  destruct (string_add_spec a b Wa Wb) as (r & c & E & Wr & Sr & Nr & _).
  exists (string_of_list_ascii r). split; [exact E |].
  split; [apply well_formed_of_list, Wr |].
  unfold Qeq, Qplus. cbn [Qnum Qden].
  rewrite Pos2Z.inj_mul, !value_den, !value_num.
  rewrite list_ascii_of_string_of_list_ascii.
  set (la := list_ascii_of_string a) in *.
  set (lb := list_ascii_of_string b) in *.
  assert (HA : pow10 (scale r) = pow10 (scale la) * pow10 (scale r - scale la))
    by (apply pow10_le_split; lia).
  assert (HB : pow10 (scale r) = pow10 (scale lb) * pow10 (scale r - scale lb))
    by (apply pow10_le_split; lia).
  rewrite Nr.
  transitivity (num la * pow10 (scale lb)
                * (pow10 (scale la) * pow10 (scale r - scale la))
                + num lb * pow10 (scale la)
                  * (pow10 (scale lb) * pow10 (scale r - scale lb))).
  - ring.
  - rewrite <- HA, <- HB. ring.
Qed.

Lemma string_half_value a :
  well_formed a = true ->
  well_formed (string_half a) = true
  /\ (value (string_half a) == value a / 2)%Q.
Proof.
  intros Wa.
  destruct (string_half_spec a Wa) as (r & k & E & Wr & Hk & Sr & Nr & _).
  rewrite E. split; [apply well_formed_of_list, Wr |].
  unfold Qeq, Qdiv, Qmult, Qinv. cbn [Qnum Qden].
  rewrite Pos2Z.inj_mul, !value_den, !value_num.
  rewrite list_ascii_of_string_of_list_ascii, Sr, pow10_add.
  set (la := list_ascii_of_string a) in *.
  transitivity (2 * num r * pow10 (scale la)); [ring |].
  rewrite Nr. ring.
Qed.

End Values.

Section Commutes.

Lemma add_comm (x y : number) : add x y = add y x.
Proof. destruct x, y; cbn; try reflexivity. f_equal. apply Z.add_comm. Qed.

Lemma add_loop_comm a b : forall n _c ret,
  add_loop a b n _c ret = add_loop b a n _c ret.
Proof.
  induction n as [| n IH]; intros _c ret; [reflexivity |].
  cbn [add_loop].
  rewrite (orb_comm (is_point (nth_error a n))).
  rewrite (orb_comm (negb (is_point (nth_error a n)))).
  rewrite (add_comm (plus (nth_error a n))).
  rewrite !IH. reflexivity.
Qed.

Lemma align_comm a b : align b a = (snd (align a b), fst (align a b)).
Proof.
  unfold align.
  destruct (with_point a) as [a1 adi]. destruct (with_point b) as [b1 bdi].
  rewrite !pad_while_eq. cbn [fst snd].
  f_equal; f_equal; f_equal; lia.
Qed.

Lemma string_add_comm a b : string_add a b = string_add b a.
Proof.
  unfold string_add. rewrite (align_comm (list_ascii_of_string a)).
  destruct (align (list_ascii_of_string a) (list_ascii_of_string b))
    as [a' b'].
  cbn [fst snd]. rewrite add_loop_comm, Nat.max_comm. reflexivity.
Qed.

End Commutes.

Section Throws.

(** The loop throws exactly when some index it visits holds a point on one
    side only. *)
Lemma add_loop_throws a b : forall n _c ret,
  (exists msg, add_loop a b n _c ret = Throw msg)
  <-> exists i, i < n /\ is_point (nth_error a i) <> is_point (nth_error b i).
Proof.
  induction n as [| n IH]; intros _c ret.
  - cbn [add_loop]. split; intros [x H]; [discriminate H | lia].
  - cbn [add_loop].
    destruct (is_point (nth_error a n)) eqn:Pa;
      destruct (is_point (nth_error b n)) eqn:Pb; cbn [orb negb].
    + rewrite IH. split; intros (i & Hi & Hne).
      * exists i. split; [lia | exact Hne].
      * exists i. split; [| exact Hne].
        destruct (Nat.eq_dec i n) as [-> | Hn]; [congruence | lia].
    + split; intros _.
      * exists n. split; [lia | congruence].
      * eexists. reflexivity.
    + split; intros _.
      * exists n. split; [lia | congruence].
      * eexists. reflexivity.
    + rewrite IH. split; intros (i & Hi & Hne).
      * exists i. split; [lia | exact Hne].
      * exists i. split; [| exact Hne].
        destruct (Nat.eq_dec i n) as [-> | Hn]; [congruence | lia].
Qed.

Lemma add_loop_throw_msg a b : forall n _c ret msg,
  add_loop a b n _c ret = Throw msg -> msg = "Decimal alignment error"%string.
Proof.
  induction n as [| n IH]; intros _c ret msg; cbn [add_loop].
  - discriminate.
  - destruct (is_point (nth_error a n) || is_point (nth_error b n));
      [destruct (negb (is_point (nth_error a n))
                 || negb (is_point (nth_error b n))) |].
    + intros H. injection H as H. auto.
    + apply IH.
    + apply IH.
Qed.

Lemma string_add_throws a b msg :
  string_add a b = Throw msg ->
  msg = "Decimal alignment error"%string
  /\ exists i,
       is_point (nth_error
                   (fst (align (list_ascii_of_string a)
                               (list_ascii_of_string b))) i)
       <> is_point (nth_error
                     (snd (align (list_ascii_of_string a)
                                 (list_ascii_of_string b))) i).
Proof.
  unfold string_add.
  destruct (align (list_ascii_of_string a) (list_ascii_of_string b))
    as [a' b'].
  cbn [fst snd].
  destruct (add_loop a' b' (Nat.max (List.length a') (List.length b'))
              (Num 0) []) as [[ret _c] | m] eqn:E; cbn [bind].
  - discriminate.
  - intros H. injection H as ->. split.
    + apply (add_loop_throw_msg _ _ _ _ _ _ E).
    + destruct (proj1 (add_loop_throws a' b' _ _ _) (ex_intro _ _ E))
        as (i & _ & Hi).
      exists i. exact Hi.
Qed.

End Throws.

Section LessThan.

Local Open Scope Z_scope.

Lemma less_loop_same a : forall n i, less_loop a a n i = None.
Proof.
  induction n as [| n IH]; intros i; [reflexivity |].
  cbn [less_loop]. rewrite Z.ltb_irrefl, IH.
  unfold Z.gtb. rewrite Z.compare_refl.
  destruct (is_point (nth_error a i)); reflexivity.
Qed.

(** A string is never less than itself. *)
Lemma string_less_than_irrefl a : string_less_than a a = false.
Proof.
  unfold string_less_than.
  destruct (with_point (strip_zeros (list_ascii_of_string a))) as [_a adi].
  rewrite Nat.ltb_irrefl, less_loop_same, Nat.leb_refl. reflexivity.
Qed.

(** A leading zero changes nothing, on either side. *)
Lemma string_less_than_leading_zero a b :
  string_less_than (String "0" a) b = string_less_than a b
  /\ string_less_than a (String "0" b) = string_less_than a b.
Proof. split; reflexivity. Qed.

Lemma digit_val_zero x : is_digit x = true -> digit_val x = 0 -> x = "0"%char.
Proof.
  unfold is_digit, digit_val, code. intros D H.
  apply andb_true_iff in D. destruct D as [D _]. apply Nat.leb_le in D.
  assert (E : nat_of_ascii x = 48%nat) by lia.
  rewrite <- (ascii_nat_embedding x), E. reflexivity.
Qed.

Lemma strip_zeros_digits l :
  digits l = true ->
  digits (strip_zeros l) = true
  /\ num (strip_zeros l) = num l
  /\ (strip_zeros l = []
      \/ exists x t, strip_zeros l = x :: t /\ 1 <= digit_val x).
Proof.
  induction l as [| x l IH]; intros D.
  - cbn. auto.
  - pose proof D as D'. simpl in D'. apply andb_true_iff in D'.
    destruct D' as [Dx Dl]. cbn [strip_zeros].
    destruct (Ascii.eqb_spec x "0"%char) as [E | E].
    + subst x. destruct (IH Dl) as (H1 & H2 & H3).
      split; [exact H1 |]. split; [| exact H3].
      rewrite H2. symmetry. apply (num_repeat_zero 1 l).
    + split; [exact D |]. split; [reflexivity |].
      right. exists x, l. split; [reflexivity |].
      pose proof (digit_val_range x Dx) as R.
      destruct (Z.eq_dec (digit_val x) 0) as [Z0 | NZ]; [| lia].
      exfalso. apply E. apply digit_val_zero; assumption.
Qed.

Lemma with_point_digits l :
  digits l = true -> with_point l = ((l ++ ["."%char])%list, List.length l).
Proof.
  intros D. unfold with_point. rewrite (indexOf_digits l D).
  rewrite length_app. cbn [List.length]. f_equal. lia.
Qed.

Lemma num_leading_digit x t :
  digits (x :: t) = true -> 1 <= digit_val x ->
  pow10 (List.length t) <= num (x :: t).
Proof.
  intros D H. simpl in D. apply andb_true_iff in D. destruct D as [Dx Dt].
  rewrite (num_cons_digit x t Dx Dt).
  pose proof (num_lt_pow10 t Dt). pose proof (pow10_pos (List.length t)). nia.
Qed.

(** On two runs of digits of equal length the loop compares as numbers. *)
Lemma less_loop_digits : forall x y p q,
  digits x = true -> digits y = true ->
  List.length x = List.length y -> List.length p = List.length q ->
  less_loop (p ++ x ++ ["."%char]) (q ++ y ++ ["."%char])
            (List.length x) (List.length p)
  = match num x ?= num y with
    | Lt => Some true
    | Gt => Some false
    | Eq => None
    end.
Proof.
  induction x as [| x0 x IH]; intros y p q Dx Dy HL HP.
  - destruct y; [| discriminate HL]. reflexivity.
  - destruct y as [| y0 y]; [discriminate HL |].
    injection HL as HL.
    simpl in Dx, Dy. apply andb_true_iff in Dx, Dy.
    destruct Dx as [Dx0 Dx]. destruct Dy as [Dy0 Dy].
    cbn [List.length less_loop].
    assert (Ea : nth_error (p ++ (x0 :: x) ++ ["."%char]) (List.length p)
                 = Some x0)
      by (rewrite nth_error_app2, Nat.sub_diag by lia; reflexivity).
    assert (Eb : nth_error (q ++ (y0 :: y) ++ ["."%char]) (List.length p)
                 = Some y0)
      by (rewrite HP, nth_error_app2, Nat.sub_diag by lia; reflexivity).
    rewrite Ea, Eb. cbn [app is_point plus_or_zero].
    rewrite (digit_not_point x0 Dx0).
    rewrite (to_number_digit x0 Dx0), (to_number_digit y0 Dy0).
    rewrite (num_cons_digit x0 x Dx0 Dx), (num_cons_digit y0 y Dy0 Dy).
    rewrite <- HL.
    pose proof (num_lt_pow10 x Dx) as Bx.
    pose proof (num_lt_pow10 y Dy) as By. rewrite <- HL in By.
    pose proof (pow10_pos (List.length x)) as PP.
    destruct (Z.ltb_spec (digit_val x0) (digit_val y0)) as [Hlt | Hge].
    + assert (C : digit_val x0 * pow10 (List.length x) + num x
                  < digit_val y0 * pow10 (List.length x) + num y) by nia.
      apply Z.compare_lt_iff in C. rewrite C. reflexivity.
    + unfold Z.gtb.
      destruct (Z.compare_spec (digit_val x0) (digit_val y0)) as [E | Hlt | Hgt];
        [| lia |].
      * rewrite E, Z.add_compare_mono_l.
        replace (p ++ x0 :: x ++ ["."%char])%list
          with ((p ++ [x0]) ++ x ++ ["."%char])%list
          by (rewrite <- app_assoc; reflexivity).
        replace (q ++ y0 :: y ++ ["."%char])%list
          with ((q ++ [y0]) ++ y ++ ["."%char])%list
          by (rewrite <- app_assoc; reflexivity).
        replace (S (List.length p)) with (List.length (p ++ [x0]))
          by (rewrite length_app; cbn [List.length]; lia).
        apply IH; auto. rewrite !length_app. cbn [List.length]. lia.
      * assert (C : digit_val y0 * pow10 (List.length x) + num y
                    < digit_val x0 * pow10 (List.length x) + num x) by nia.
        apply Z.compare_gt_iff in C. rewrite C. reflexivity.
Qed.

(** On strings of digits only (no fractional part) [string_less_than] is the
    order of the integers they denote. *)
Lemma string_less_than_integers a b :
  digits (list_ascii_of_string a) = true ->
  digits (list_ascii_of_string b) = true ->
  string_less_than a b
  = (num (list_ascii_of_string a) <? num (list_ascii_of_string b)).
Proof.
  intros Da Db. unfold string_less_than.
  destruct (strip_zeros_digits _ Da) as (Dsa & Na & Ha).
  destruct (strip_zeros_digits _ Db) as (Dsb & Nb & Hb).
  rewrite <- Na, <- Nb.
  set (sa := strip_zeros (list_ascii_of_string a)) in *.
  set (sb := strip_zeros (list_ascii_of_string b)) in *.
  rewrite (with_point_digits sa Dsa), (with_point_digits sb Dsb).
  pose proof (num_lt_pow10 sa Dsa) as Ba.
  pose proof (num_lt_pow10 sb Dsb) as Bb.
  assert (Hshort : forall u v,
             digits u = true -> digits v = true ->
             (u = [] \/ exists x t, u = x :: t /\ 1 <= digit_val x) ->
             (v = [] \/ exists x t, v = x :: t /\ 1 <= digit_val x) ->
             (List.length u < List.length v)%nat -> num u < num v).
  { intros u v Du Dv Hu Hv Hlen.
    destruct Hv as [-> | (x & t & -> & Hx)]; [cbn in Hlen; lia |].
    pose proof (num_leading_digit x t Dv Hx) as Lv.
    pose proof (num_lt_pow10 u Du) as Bu.
    cbn [List.length] in Hlen.
    assert (pow10 (List.length u) <= pow10 (List.length t)).
    { rewrite (pow10_le_split (List.length u) (List.length t)) by lia.
      pose proof (pow10_pos (List.length u)).
      pose proof (pow10_pos (List.length t - List.length u)). nia. }
    lia. }
  destruct (Nat.ltb_spec (List.length sa) (List.length sb)) as [H1 | H1].
  - symmetry. apply Z.ltb_lt. apply Hshort; assumption.
  - destruct (Nat.ltb_spec (List.length sb) (List.length sa)) as [H2 | H2].
    + symmetry. apply Z.ltb_ge.
      pose proof (Hshort sb sa Dsb Dsa Hb Ha H2). lia.
    + assert (HL : List.length sa = List.length sb) by lia.
      rewrite !length_app. cbn [List.length].
      replace (List.length sa + 1 - 1)%nat with (List.length sa) by lia.
      pose proof (less_loop_digits sa sb [] [] Dsa Dsb HL eq_refl) as E.
      cbn [app List.length] in E. rewrite E.
      unfold Z.ltb. destruct (num sa ?= num sb); [| reflexivity | reflexivity].
      destruct (Nat.leb_spec (List.length sa + 1) (List.length sb + 1));
        [reflexivity | lia].
Qed.

End LessThan.

Section MathClaims.

Lemma string_of_list_ascii_snoc p x :
  string_of_list_ascii (p ++ [x])
  = (string_of_list_ascii p ++ String x EmptyString)%string.
Proof.
  induction p as [| y p IH]; [reflexivity |].
  cbn [app string_of_list_ascii String.append]. rewrite IH. reflexivity.
Qed.

Lemma get_0_hd s : String.get 0 s = hd_error (list_ascii_of_string s).
Proof. destruct s; reflexivity. Qed.

Lemma string_add_throws_iff a b msg :
  string_add a b = Throw msg
  <-> msg = "Decimal alignment error"%string
      /\ exists i,
           is_point (nth_error (fst (aligned_operands a b)) i)
           <> is_point (nth_error (snd (aligned_operands a b)) i).
Proof.
  split; [apply string_add_throws |].
  intros (-> & i & Hi). unfold string_add, aligned_operands in *.
  destruct (align (list_ascii_of_string a) (list_ascii_of_string b))
    as [a' b'].
  cbn [fst snd] in Hi.
  assert (Hlt : i < Nat.max (List.length a') (List.length b')).
  { destruct (Nat.lt_ge_cases i (Nat.max (List.length a') (List.length b')))
      as [H | H]; [exact H |].
    exfalso. apply Hi.
    rewrite (proj2 (nth_error_None a' i)) by lia.
    rewrite (proj2 (nth_error_None b' i)) by lia. reflexivity. }
  destruct (proj2 (add_loop_throws a' b' _ (Num 0) [])
              (ex_intro _ i (conj Hlt Hi))) as (m & E).
  rewrite E. cbn [bind]. f_equal.
  apply (add_loop_throw_msg _ _ _ _ _ _ E).
Qed.

End MathClaims.

(* ===================================================================== *)
(** ** Properties of [GGRC.Math]                                          *)
(* ===================================================================== *)

(** C3.  For well-formed decimal strings [a] and [b], [string_add a b]
    returns a decimal string whose value is exactly [value a + value b] (it
    holds a digit when an operand does).  When the sum reaches [10 ^ m], [m]
    the longer integer part, the carry out of the most significant digit is a
    new leading digit "1"; otherwise the integer part keeps [m] digits.
    [string_add "1.5" "2.25"] is ["3.75"]. *)
Theorem string_add_exact_sum :
  (forall a b : string,
     well_formed a = true -> well_formed b = true ->
     exists s,
       string_add a b = Return s
       /\ well_formed s = true
       /\ (value s == value a + value b)%Q
       /\ ((inject_Z (pow10 (Nat.max (int_digits a) (int_digits b)))
            <= value a + value b)%Q ->
           int_digits s = S (Nat.max (int_digits a) (int_digits b))
           /\ String.get 0 s = Some "1"%char)
       /\ ((value a + value b
            < inject_Z (pow10 (Nat.max (int_digits a) (int_digits b))))%Q ->
           int_digits s = Nat.max (int_digits a) (int_digits b))
       /\ (has_digit a = true \/ has_digit b = true -> has_digit s = true))
  /\ string_add "1.5" "2.25" = Return "3.75"%string.
Proof.
  split; [| reflexivity].
  intros a b Wa Wb.
  destruct (string_add_value a b Wa Wb) as (s & Es & Ws & Hval).
  destruct (string_add_spec a b Wa Wb)
    as (r & c & Er & Wr & Sr & _ & Hc & Ir & Hr & Hcarry).
  rewrite Es in Er. injection Er as ->.
  exists (string_of_list_ascii r).
  split; [exact Es |]. split; [exact Ws |]. split; [exact Hval |].
  unfold int_digits, has_digit in *. rewrite get_0_hd.
  rewrite list_ascii_of_string_of_list_ascii.
  assert (Hdig : existsb is_digit (list_ascii_of_string a) = true
                 \/ existsb is_digit (list_ascii_of_string b) = true ->
                 existsb is_digit r = true).
  { rewrite (existsb_digit_count _ Wa), (existsb_digit_count _ Wb),
      (existsb_digit_count _ Wr), Ir, Sr. lia. }
  set (m := Nat.max (int_len (list_ascii_of_string a))
                    (int_len (list_ascii_of_string b))) in *.
  assert (Hq : (inject_Z (pow10 m) <= value (string_of_list_ascii r))%Q
               <-> c = 1%Z).
  { unfold Qle. cbn [Qnum Qden inject_Z]. rewrite value_den, value_num.
    rewrite list_ascii_of_string_of_list_ascii, Hcarry. lia. }
  split; [| split; [| exact Hdig]].
  - intros H. rewrite <- Hval in H. apply Hq in H. subst c.
    split; [rewrite Ir; cbn; lia | apply Hr; reflexivity].
  - intros H. rewrite <- Hval in H.
    destruct Hc as [-> | ->]; [rewrite Ir; cbn; lia |].
    exfalso. apply (Qlt_not_le _ _ H). apply Hq. reflexivity.
Qed.

Lemma string_add_exact_sum_witness :
  exists s, string_add "9.5" "0.75" = Return s
            /\ well_formed s = true
            /\ (value s == value "9.5" + value "0.75")%Q.
Proof.
  destruct (proj1 string_add_exact_sum "9.5"%string "0.75"%string
              eq_refl eq_refl) as (s & E & W & V & _).
  exists s. repeat split; assumption.
Defined.

(** C4.  For a well-formed decimal string [a], [string_half a] is a decimal
    string whose value is exactly [value a / 2] (it holds a digit when [a]
    does); it ends with one more fractional digit, a "5", when the least
    significant digit of [a] is odd, and has as many fractional digits as [a]
    otherwise.  [string_half "5"] is ["2.5"]. *)
Theorem string_half_exact_half :
  (forall a : string,
     well_formed a = true ->
     well_formed (string_half a) = true
     /\ (value (string_half a) == value a / 2)%Q
     /\ (last_digit_odd a = true ->
         (exists p, string_half a = (p ++ "5")%string)
         /\ frac_digits (string_half a) = S (frac_digits a))
     /\ (last_digit_odd a = false ->
         frac_digits (string_half a) = frac_digits a)
     /\ (has_digit a = true -> has_digit (string_half a) = true))
  /\ string_half "5" = "2.5"%string.
Proof.
  split; [| reflexivity].
  intros a Wa.
  destruct (string_half_value a Wa) as [Wh Hval].
  split; [exact Wh |]. split; [exact Hval |].
  destruct (string_half_spec a Wa) as (r & k & E & _ & Hk & Sr & _ & H5 & Hd).
  unfold last_digit_odd, frac_digits, has_digit. rewrite lsd_odd_num, E.
  rewrite list_ascii_of_string_of_list_ascii, Sr.
  split; [| split; [| exact Hd]]; intros Hodd; rewrite Hodd in Hk; subst k.
  - split; [| lia].
    destruct (H5 eq_refl) as (p & ->).
    exists (string_of_list_ascii p). apply string_of_list_ascii_snoc.
  - lia.
Qed.

Lemma string_half_exact_half_witness :
  well_formed (string_half "0.25") = true
  /\ (value (string_half "0.25") == value "0.25" / 2)%Q.
Proof.
  destruct (proj1 string_half_exact_half "0.25"%string eq_refl)
    as (W & V & _).
  split; assumption.
Defined.

(** C6.  [string_add] is commutative on well-formed decimal strings: both
    orders return the same string. *)
Theorem string_add_commutative (a b : string) :
  well_formed a = true -> well_formed b = true ->
  string_add a b = string_add b a.
Proof. intros _ _. apply string_add_comm. Qed.

Lemma string_add_commutative_witness :
  string_add "1.5" "2.25" = string_add "2.25" "1.5".
Proof.
  apply (string_add_commutative "1.5" "2.25"); reflexivity.
Defined.

(** C8.  [string_add] throws, with the message "Decimal alignment error",
    exactly when the aligned operands hold a decimal point at an index on one
    side only; on well-formed decimal strings it never does and returns. *)
Theorem string_add_alignment_error :
  (forall (a b msg : string),
     string_add a b = Throw msg
     <-> msg = "Decimal alignment error"%string
         /\ exists i,
              is_point (nth_error (fst (aligned_operands a b)) i)
              <> is_point (nth_error (snd (aligned_operands a b)) i))
  /\ (forall a b : string,
        well_formed a = true -> well_formed b = true ->
        (exists s, string_add a b = Return s)
        /\ forall msg, string_add a b <> Throw msg).
Proof.
  split; [apply string_add_throws_iff |].
  intros a b Wa Wb.
  destruct (string_add_value a b Wa Wb) as (s & E & _).
  split; [exists s; exact E |].
  intros msg H. rewrite E in H. discriminate H.
Qed.

Lemma string_add_alignment_error_witness :
  (exists s, string_add "1.5" "20" = Return s)
  /\ forall msg, string_add "1.5" "20" <> Throw msg.
Proof.
  apply (proj2 string_add_alignment_error "1.5"%string "20"%string);
    reflexivity.
Defined.

(** The error branch is live on malformed input: a second point on one side
    meets a digit on the other. *)
Example string_add_two_points :
  string_add "1.5" "2.2.5" = Throw "Decimal alignment error".
Proof. reflexivity. Qed.

(** C2.  [string_less_than "0.9" "0.91"] returns [false] although 0.9 is
    smaller than 0.91: the loop stops before the last code unit of the first
    operand and the final length test is the wrong way round. *)
Theorem string_less_than_fraction_missed :
  string_less_than "0.9" "0.91" = false
  /\ (value "0.9" < value "0.91")%Q
  /\ string_less_than "10" "9" = false.
Proof. repeat split. Qed.

(** C1.  For [a = "1"], [b = "2"], with [string_less_than a b] true, the
    midpoint [string_half (a + b)] is ["1.5"], and [string_less_than "1" "1.5"]
    returns [false]. *)
Theorem midpoint_not_above_lower :
  string_less_than "1" "2" = true
  /\ string_add "1" "2" = Return "3"%string
  /\ string_half "3" = "1.5"%string
  /\ string_less_than "1" "1.5" = false
  /\ string_less_than "1.5" "2" = true.
Proof. repeat split. Qed.

(** C5.  For [a = "0.2"], [string_half a] is [".1"] and
    [string_less_than ".1" "0.2"] returns [false]. *)
Theorem half_not_less_than_whole :
  well_formed "0.2" = true
  /\ "0.2"%string <> "0"%string
  /\ string_half "0.2" = ".1"%string
  /\ string_less_than (string_half "0.2") "0.2" = false.
Proof. repeat split. discriminate. Qed.

(** C7.  ["1.50"] and ["1.5"] denote the same number, and
    [string_less_than "1.50" "1.5"] returns [true]. *)
Theorem equal_values_compare_less :
  (value "1.50" == value "1.5")%Q
  /\ string_less_than "1.50" "1.5" = true
  /\ string_less_than "1.5" "1.50" = false.
Proof. repeat split. Qed.

(* ===================================================================== *)
(** ** The event queue: steps, invariant and drain                        *)
(* ===================================================================== *)

Section EventQueueFacts.

Variable op : Type.
Variable call : op -> ending.
Implicit Types (g : GGRC op) (e : events op) (q : list op).

(** The queue and the trace after [queue_exec_next], however the callback
    ends. *)
Lemma queue_exec_next_trace g :
  eventqueue (snd (queue_exec_next call g)) = tl (eventqueue g)
  /\ executed (snd (queue_exec_next call g))
     = match hd_error (eventqueue g) with
       | Some fn => executed g ++ [fn]
       | None => executed g
       end.
Proof.
  unfold queue_exec_next, shift_and_run.
  destruct (match hd_error (eventqueue g) with
            | Some fn => call fn
            | None => Returns
            end); cbn [snd eventqueue executed].
  - destruct (0 <? List.length (tl (eventqueue g))); split; reflexivity.
  - split; reflexivity.
Qed.

(** A callback that throws: the head has left the queue, and nothing else
    has changed; [eventqueueTimeout] is as it was. *)
Lemma queue_exec_next_thrown g f :
  hd_error (eventqueue g) = Some f -> call f = Throws ->
  queue_exec_next call g
  = (Throws,
     {| eventqueue := tl (eventqueue g);
        eventqueueTimeout := eventqueueTimeout g;
        timers := timers g;
        next_timer := next_timer g;
        executed := executed g ++ [f] |}).
Proof.
  intros Hf Hc. unfold queue_exec_next, shift_and_run. rewrite Hf, Hc.
  reflexivity.
Qed.

Lemma queue_exec_next_fields g :
  head_returns call g ->
  fst (queue_exec_next call g) = Returns
  /\ eventqueue (snd (queue_exec_next call g)) = tl (eventqueue g)
  /\ executed (snd (queue_exec_next call g))
     = match hd_error (eventqueue g) with
       | Some fn => executed g ++ [fn]
       | None => executed g
       end
  /\ (tl (eventqueue g) <> [] ->
      eventqueueTimeout (snd (queue_exec_next call g)) = Some (next_timer g)
      /\ timers (snd (queue_exec_next call g)) = timers g ++ [next_timer g])
  /\ (tl (eventqueue g) = [] ->
      eventqueueTimeout (snd (queue_exec_next call g)) = None
      /\ timers (snd (queue_exec_next call g)) = timers g).
Proof.
  intros Hr. unfold queue_exec_next, shift_and_run.
  assert (E : match hd_error (eventqueue g) with
              | Some fn => call fn
              | None => Returns
              end = Returns).
  { destruct (hd_error (eventqueue g)) as [f |] eqn:Hf; [| reflexivity].
    apply Hr. exact Hf. }
  rewrite E. cbn [fst snd eventqueue].
  destruct (tl (eventqueue g)) as [| f q] eqn:Et; cbn.
  - repeat split; intros; try reflexivity; congruence.
  - repeat split; intros; try reflexivity; congruence.
Qed.

(** [queue_exec_next], when the callback returns, leaves
    [eventqueueTimeout] null exactly when it leaves the queue empty. *)
Lemma queue_exec_next_null g :
  head_returns call g ->
  (eventqueueTimeout (snd (queue_exec_next call g)) = None
   <-> eventqueue (snd (queue_exec_next call g)) = []).
Proof.
  intros Hr.
  destruct (queue_exec_next_fields g Hr) as (_ & Eq & _ & Hne & He).
  rewrite Eq. destruct (tl (eventqueue g)) as [| f q] eqn:E.
  - split; auto. intros _. apply He. reflexivity.
  - destruct Hne as [Ht _]; [discriminate |]. rewrite Ht.
    split; discriminate.
Qed.

Lemma queue_exec_next_scheduled g :
  head_returns call g -> work_is_scheduled (snd (queue_exec_next call g)).
Proof.
  intros Hr.
  destruct (queue_exec_next_fields g Hr) as (_ & Eq & _ & Hne & He).
  unfold work_is_scheduled. rewrite Eq.
  destruct (tl (eventqueue g)) as [| f q] eqn:E.
  - destruct He as [Ht _]; [reflexivity |]. rewrite Ht.
    split; [intros H; contradiction | discriminate].
  - destruct Hne as [Ht Hs]; [discriminate |]. rewrite Ht, Hs.
    split; [discriminate |].
    intros t H. injection H as <-. apply in_or_app. right. left. reflexivity.
Qed.

(** When every callback called so far has returned, so has the last. *)
Lemma executed_head_returns g :
  Forall (returns call) (executed (snd (queue_exec_next call g))) ->
  Forall (returns call) (executed g) /\ head_returns call g.
Proof.
  destruct (queue_exec_next_trace g) as [_ Ee]. rewrite Ee.
  unfold head_returns.
  destruct (hd_error (eventqueue g)) as [f |].
  - intros H. apply Forall_app in H. destruct H as [H1 H2]. split; [exact H1 |].
    intros f' E. injection E as <-. inversion H2; assumption.
  - intros H. split; [exact H | discriminate].
Qed.

Lemma queue_event_fields e g :
  eventqueue (queue_event e g) = eventqueue g ++ as_list e
  /\ executed (queue_event e g) = executed g
  /\ (eventqueueTimeout g = None ->
      eventqueueTimeout (queue_event e g) = Some (next_timer g)
      /\ timers (queue_event e g) = timers g ++ [next_timer g])
  /\ (eventqueueTimeout g <> None ->
      eventqueueTimeout (queue_event e g) = eventqueueTimeout g
      /\ timers (queue_event e g) = timers g).
Proof.
  unfold queue_event. cbn [eventqueueTimeout].
  destruct (eventqueueTimeout g) as [t |] eqn:E; cbn;
    repeat split; intros; try reflexivity; congruence.
Qed.

Lemma queue_event_scheduled e g :
  work_is_scheduled g -> work_is_scheduled (queue_event e g).
Proof.
  intros [_ Hin].
  destruct (queue_event_fields e g) as (_ & _ & Hn & Hk).
  unfold work_is_scheduled.
  destruct (eventqueueTimeout g) as [t |] eqn:E.
  - destruct Hk as [Ht Hs]; [discriminate |]. rewrite Ht, Hs.
    split; [discriminate |]. exact Hin.
  - destruct Hn as [Ht Hs]; [reflexivity |]. rewrite Ht, Hs.
    split; [discriminate |].
    intros t H. injection H as <-. apply in_or_app. right. left. reflexivity.
Qed.

Lemma queue_event_nonnull e g : eventqueueTimeout (queue_event e g) <> None.
Proof.
  destruct (queue_event_fields e g) as (_ & _ & Hn & Hk).
  destruct (eventqueueTimeout g) as [t |] eqn:E.
  - destruct Hk as [Ht _]; [discriminate |]. rewrite Ht. discriminate.
  - destruct Hn as [Ht _]; [reflexivity |]. rewrite Ht. discriminate.
Qed.

(** While every callback called so far has returned, work is scheduled. *)
Lemma reachable_scheduled g :
  reachable call g -> Forall (returns call) (executed g) ->
  work_is_scheduled g.
Proof.
  induction 1 as [| g g' _ IH Hstep].
  - intros _. split; [intros H; contradiction | discriminate].
  - destruct Hstep as [e g | t g _ | g]; intros Hall.
    + apply queue_event_scheduled, IH.
      destruct (queue_event_fields e g) as (_ & Ee & _). rewrite <- Ee.
      exact Hall.
    + unfold fire in *. apply queue_exec_next_scheduled.
      apply (executed_head_returns _ Hall).
    + apply queue_exec_next_scheduled. apply (executed_head_returns _ Hall).
Qed.

(** Whatever the callbacks do, a non-empty queue has a non-null
    [eventqueueTimeout]. *)
Lemma reachable_nonnull g :
  reachable call g -> eventqueue g <> [] -> eventqueueTimeout g <> None.
Proof.
  assert (Hx : forall g0,
             (eventqueue g0 <> [] -> eventqueueTimeout g0 <> None) ->
             eventqueue (snd (queue_exec_next call g0)) <> [] ->
             eventqueueTimeout (snd (queue_exec_next call g0)) <> None).
  { intros g0 H0.
    destruct (hd_error (eventqueue g0)) as [f |] eqn:Hf.
    - destruct (call f) eqn:Hc.
      + assert (Hr : head_returns call g0)
          by (intros f' E; rewrite Hf in E; injection E as <-; exact Hc).
        destruct (queue_exec_next_scheduled g0 Hr) as [Hne _]. exact Hne.
      + rewrite (queue_exec_next_thrown g0 f Hf Hc). cbn [snd eventqueue
          eventqueueTimeout]. intros _. apply H0.
        destruct (eventqueue g0); [discriminate Hf | discriminate].
    - assert (Hr : head_returns call g0)
        by (intros f' E; rewrite Hf in E; discriminate E).
      destruct (queue_exec_next_scheduled g0 Hr) as [Hne _]. exact Hne. }
  induction 1 as [| g g' _ IH Hstep].
  - intros H. contradiction.
  - destruct Hstep as [e g | t g _ | g].
    + intros _. apply queue_event_nonnull.
    + unfold fire. apply Hx. exact IH.
    + apply Hx. exact IH.
Qed.

(** Under any interleaving, and however the callbacks end, what has been
    called followed by what is still queued is what was enqueued, in
    insertion order. *)
Lemma history_fifo reqs g :
  history call reqs g -> executed g ++ eventqueue g = all_ops reqs.
Proof.
  assert (Hx : forall g0,
             executed (snd (queue_exec_next call g0))
             ++ eventqueue (snd (queue_exec_next call g0))
             = executed g0 ++ eventqueue g0).
  { intros g0. destruct (queue_exec_next_trace g0) as (Eq & Ee).
    rewrite Eq, Ee. destruct (eventqueue g0) as [| f q]; cbn [hd_error tl].
    - reflexivity.
    - rewrite <- app_assoc. reflexivity. }
  induction 1 as [| reqs g e _ IH | reqs g t _ IH _ | reqs g _ IH].
  - reflexivity.
  - destruct (queue_event_fields e g) as (Eq & Ee & _).
    rewrite Eq, Ee, app_assoc, IH. unfold all_ops.
    rewrite flat_map_app. cbn [flat_map]. rewrite app_nil_r. reflexivity.
  - unfold fire. rewrite Hx. exact IH.
  - rewrite Hx. exact IH.
Qed.

(** *** Enqueueing *)

Lemma queue_event_idle e g :
  idle g ->
  scheduled (queue_event e g)
  /\ eventqueue (queue_event e g) = eventqueue g ++ as_list e
  /\ executed (queue_event e g) = executed g.
Proof.
  intros [Ht Hs].
  destruct (queue_event_fields e g) as (Eq & Ee & Hn & _).
  destruct (Hn Ht) as [Ht' Hs']. rewrite Hs in Hs'.
  split; [| split; assumption].
  exists (next_timer g). split; assumption.
Qed.

Lemma queue_event_armed e g :
  scheduled g ->
  scheduled (queue_event e g)
  /\ eventqueue (queue_event e g) = eventqueue g ++ as_list e
  /\ executed (queue_event e g) = executed g.
Proof.
  intros (t & Ht & Hs).
  destruct (queue_event_fields e g) as (Eq & Ee & _ & Hk).
  destruct Hk as [Ht' Hs']; [rewrite Ht; discriminate |].
  split; [| split; assumption].
  exists t. rewrite Ht', Hs'. split; assumption.
Qed.

(** On a stalled queue [queue_event] only appends: nothing is scheduled. *)
Lemma queue_event_stalled e g :
  stalled g ->
  stalled (queue_event e g)
  /\ eventqueue (queue_event e g) = eventqueue g ++ as_list e
  /\ executed (queue_event e g) = executed g.
Proof.
  intros [(t & Ht) Hs].
  destruct (queue_event_fields e g) as (Eq & Ee & _ & Hk).
  destruct Hk as [Ht' Hs']; [rewrite Ht; discriminate |].
  split; [| split; assumption].
  split; [exists t; rewrite Ht'; exact Ht | rewrite Hs'; exact Hs].
Qed.

Lemma enqueue_all_armed reqs : forall g,
  scheduled g ->
  scheduled (enqueue_all reqs g)
  /\ eventqueue (enqueue_all reqs g) = eventqueue g ++ all_ops reqs
  /\ executed (enqueue_all reqs g) = executed g.
Proof.
  induction reqs as [| e reqs IH]; intros g Hg.
  - cbn. rewrite app_nil_r. auto.
  - destruct (queue_event_armed e g Hg) as (H1 & H2 & H3).
    destruct (IH (queue_event e g) H1) as (H4 & H5 & H6).
    change (enqueue_all (e :: reqs) g) with (enqueue_all reqs (queue_event e g)).
    split; [exact H4 |]. split.
    + rewrite H5, H2, <- app_assoc. reflexivity.
    + rewrite H6, H3. reflexivity.
Qed.

Lemma enqueue_all_initial reqs :
  (reqs = [] \/ scheduled (enqueue_all reqs initial))
  /\ eventqueue (enqueue_all reqs (@initial op)) = all_ops reqs
  /\ executed (enqueue_all reqs (@initial op)) = [].
Proof.
  destruct reqs as [| e reqs].
  - cbn. auto.
  - assert (Hi : idle (@initial op)) by (split; reflexivity).
    destruct (queue_event_idle e initial Hi) as (H1 & H2 & H3).
    destruct (enqueue_all_armed reqs (queue_event e initial) H1)
      as (H4 & H5 & H6).
    change (enqueue_all (e :: reqs) initial)
      with (enqueue_all reqs (queue_event e (@initial op))).
    split; [right; exact H4 |]. split.
    + rewrite H5, H2. reflexivity.
    + rewrite H6, H3. reflexivity.
Qed.

(** *** Draining *)

Lemma tick_fires g t :
  timers g = [t] ->
  tick call g
  = snd (queue_exec_next call
           {| eventqueue := eventqueue g;
              eventqueueTimeout := eventqueueTimeout g;
              timers := [];
              next_timer := next_timer g;
              executed := executed g |}).
Proof.
  intros Hs. unfold tick. rewrite Hs. unfold fire. rewrite Hs.
  cbn [List.remove]. destruct (Pos.eq_dec t t) as [_ | N]; [| contradiction].
  reflexivity.
Qed.

Lemma tick_scheduled g :
  scheduled g -> head_returns call g ->
  eventqueue (tick call g) = tl (eventqueue g)
  /\ executed (tick call g)
     = match hd_error (eventqueue g) with
       | Some fn => executed g ++ [fn]
       | None => executed g
       end
  /\ (tl (eventqueue g) <> [] -> scheduled (tick call g))
  /\ (tl (eventqueue g) = [] -> idle (tick call g)).
Proof.
  intros (t & Ht & Hs) Hr. rewrite (tick_fires g t Hs).
  match goal with
  | |- context [queue_exec_next call ?g0] =>
    destruct (queue_exec_next_fields g0 Hr) as (_ & Eq & Ee & Hne & He)
  end.
  cbn [eventqueue executed timers next_timer] in *.
  split; [exact Eq |]. split; [exact Ee |]. split.
  - intros H. destruct (Hne H) as [H1 H2]. eexists. split; eassumption.
  - intros H. destruct (He H) as [H1 H2]. split; assumption.
Qed.

(** The timeout fires and the callback throws: the head has left the queue,
    [eventqueueTimeout] keeps the handle that fired, nothing is pending. *)
Lemma tick_thrown g f :
  scheduled g -> hd_error (eventqueue g) = Some f -> call f = Throws ->
  eventqueue (tick call g) = tl (eventqueue g)
  /\ executed (tick call g) = executed g ++ [f]
  /\ stalled (tick call g).
Proof.
  intros (t & Ht & Hs) Hf Hc. rewrite (tick_fires g t Hs).
  match goal with
  | |- context [queue_exec_next call ?g0] =>
    rewrite (queue_exec_next_thrown g0 f Hf Hc)
  end.
  cbn [snd eventqueue executed timers eventqueueTimeout].
  split; [reflexivity |]. split; [reflexivity |].
  split; [exists t; exact Ht | reflexivity].
Qed.

(** [k] drain steps on a scheduled queue of at least [k] operations, the
    first [k] of which return, run these, in order, and leave the others
    queued. *)
Lemma drain_scheduled : forall k g,
  scheduled g -> k <= List.length (eventqueue g) ->
  Forall (returns call) (firstn k (eventqueue g)) ->
  executed (drain call k g) = executed g ++ firstn k (eventqueue g)
  /\ eventqueue (drain call k g) = skipn k (eventqueue g)
  /\ (k < List.length (eventqueue g) -> scheduled (drain call k g))
  /\ (0 < k -> k = List.length (eventqueue g) -> idle (drain call k g)).
Proof.
  induction k as [| k IH]; intros g Hg Hk Hall.
  - cbn [drain firstn skipn]. rewrite app_nil_r.
    repeat split; auto; lia.
  - destruct (eventqueue g) as [| f q] eqn:Eq; [cbn in Hk; lia |].
    cbn [drain]. rewrite Eq.
    cbn [firstn] in Hall. inversion Hall as [| ? ? Hf Hq]; subst.
    assert (Hr : head_returns call g)
      by (intros f' E; rewrite Eq in E; injection E as <-; exact Hf).
    destruct (tick_scheduled g Hg Hr) as (Tq & Te & Ts & Ti).
    rewrite Eq in Tq, Te, Ts, Ti. cbn [tl hd_error] in *.
    cbn [List.length] in Hk.
    destruct q as [| f' q'].
    + assert (k = 0) by (cbn in Hk; lia). subst k.
      cbn [drain firstn skipn List.length]. rewrite Tq, Te.
      split; [reflexivity |]. split; [reflexivity |].
      split; [intros Hlt; lia | intros _ _; apply Ti; reflexivity].
    + assert (Hs : scheduled (tick call g)) by (apply Ts; discriminate).
      destruct (IH (tick call g) Hs) as (H1 & H2 & H3 & H4);
        [rewrite Tq; lia | rewrite Tq; exact Hq |].
      rewrite Tq, Te in *. cbn [firstn skipn List.length] in *.
      rewrite H1, H2, <- app_assoc.
      split; [reflexivity |]. split; [reflexivity |]. split.
      * intros Hlt. apply H3. lia.
      * intros _ Hlen. apply H4; lia.
Qed.

(** Once nothing is queued or scheduled the drain has stopped. *)
Lemma drain_idle n g : eventqueue g = [] -> idle g -> drain call n g = g.
Proof.
  intros Eq [_ Hs]. destruct n as [| n]; [reflexivity |].
  cbn [drain]. rewrite Eq, Hs. reflexivity.
Qed.

(** With no timeout pending the host has nothing to fire. *)
Lemma drain_no_timer : forall n g, timers g = [] -> drain call n g = g.
Proof.
  induction n as [| n IH]; intros g Hs; [reflexivity |].
  cbn [drain]. rewrite Hs.
  destruct (eventqueue g); [reflexivity |].
  unfold tick. rewrite Hs. apply IH, Hs.
Qed.

Lemma drain_add : forall k n g,
  k <= List.length (eventqueue g) -> scheduled g ->
  Forall (returns call) (firstn k (eventqueue g)) ->
  drain call (k + n) g = drain call n (drain call k g).
Proof.
  induction k as [| k IH]; intros n g Hk Hg Hall; [reflexivity |].
  destruct (eventqueue g) as [| f q] eqn:Eq; [cbn in Hk; lia |].
  cbn [Nat.add drain]. rewrite Eq.
  cbn [firstn] in Hall. inversion Hall as [| ? ? Hf Hq]; subst.
  assert (Hr : head_returns call g)
    by (intros f' E; rewrite Eq in E; injection E as <-; exact Hf).
  destruct (tick_scheduled g Hg Hr) as (Tq & _ & Ts & Ti).
  rewrite Eq in Tq, Ts, Ti. cbn [tl] in *. cbn [List.length] in Hk.
  destruct q as [| f' q'].
  - assert (k = 0) by (cbn in Hk; lia). subst k. reflexivity.
  - apply IH; [rewrite Tq; lia | apply Ts; discriminate | rewrite Tq; exact Hq].
Qed.

(** A drain of more steps than operations queued, all of which return. *)
Lemma drain_all g : forall n,
  scheduled g -> List.length (eventqueue g) < n ->
  Forall (returns call) (eventqueue g) ->
  executed (drain call n g) = executed g ++ eventqueue g
  /\ eventqueue (drain call n g) = []
  /\ idle (drain call n g).
Proof.
  intros n Hs Hn Hall.
  destruct (eventqueue g) as [| f q] eqn:Eq.
  - destruct n as [| n]; [cbn in Hn; lia |].
    assert (Hr : head_returns call g)
      by (intros f' E; rewrite Eq in E; discriminate E).
    destruct (tick_scheduled g Hs Hr) as (Tq & Te & _ & Ti).
    rewrite Eq in *. cbn [tl hd_error] in *.
    destruct Hs as (t & _ & Hm). cbn [drain]. rewrite Eq, Hm.
    rewrite (drain_idle n (tick call g) Tq (Ti eq_refl)).
    rewrite app_nil_r. split; [exact Te |]. split; [exact Tq | apply Ti; reflexivity].
  - set (L := List.length (f :: q)) in *.
    assert (HallL : Forall (returns call) (firstn L (eventqueue g)))
      by (rewrite Eq; unfold L; rewrite firstn_all; exact Hall).
    replace n with (L + (n - L)) by lia.
    rewrite (drain_add L (n - L) g);
      [| rewrite Eq; auto | exact Hs | exact HallL].
    destruct (drain_scheduled L g Hs) as (D1 & D2 & _ & D4);
      [rewrite Eq; auto | exact HallL |].
    rewrite Eq in *.
    assert (Hi : idle (drain call L g))
      by (apply D4; [subst L; cbn; lia | reflexivity]).
    unfold L in D2 at 2. rewrite skipn_all in D2.
    unfold L in D1 at 2. rewrite firstn_all in D1.
    rewrite (drain_idle (n - L) (drain call L g) D2 Hi).
    split; [exact D1 |]. split; [exact D2 | exact Hi].
Qed.

End EventQueueFacts.

(* ===================================================================== *)
(** ** Properties of the event queue                                      *)
(* ===================================================================== *)




(** C10.  A callback that throws leaves work without a drain step: after the
    timeout of a queue holding [0] and [7] fires and [0] throws, the state is
    reachable, [7] is queued, and no timeout is pending although
    [eventqueueTimeout] is not null; and [queue_exec_next] on a queue holding
    only [0] leaves the queue empty without resetting [eventqueueTimeout]. *)
Lemma thrown_callback_strands_queue :
  reachable zero_throws
    (fire zero_throws 1%positive (queue_event (Fns [0; 7]) initial))
  /\ eventqueue
       (fire zero_throws 1%positive (queue_event (Fns [0; 7]) initial)) = [7]
  /\ eventqueueTimeout
       (fire zero_throws 1%positive (queue_event (Fns [0; 7]) initial))
     = Some 1%positive
  /\ timers
       (fire zero_throws 1%positive (queue_event (Fns [0; 7]) initial)) = []
  /\ eventqueue
       (snd (queue_exec_next zero_throws (queue_event (Fn 0) initial))) = []
  /\ eventqueueTimeout
       (snd (queue_exec_next zero_throws (queue_event (Fn 0) initial)))
     = Some 1%positive.
Proof.
  split; [| repeat split].
  eapply reachable_step.
  - eapply reachable_step; [apply reachable_initial |].
    apply (step_queue_event nat zero_throws (Fns [0; 7])).
  - apply step_fire. left. reflexivity.
Qed.

(** C10.  In every state reachable from the initial one by [queue_event]
    calls, timeouts firing and [queue_exec_next] calls, a non-empty queue has
    a non-null [eventqueueTimeout], however the callbacks end; while every
    callback called so far has returned, it names a timeout that is still
    pending; and [queue_exec_next], called or fired, when the callback it
    calls returns, leaves [eventqueueTimeout] null exactly when it leaves the
    queue empty. *)
Theorem queue_schedule_invariant
  (op : Type) (call : op -> ending) (g : GGRC op) :
  reachable call g ->
  (eventqueue g <> [] -> eventqueueTimeout g <> None)
  /\ (Forall (returns call) (executed g) -> eventqueue g <> [] ->
      exists t, eventqueueTimeout g = Some t /\ In t (timers g))
  /\ (head_returns call g ->
      fst (queue_exec_next call g) = Returns
      /\ (eventqueueTimeout (snd (queue_exec_next call g)) = None
          <-> eventqueue (snd (queue_exec_next call g)) = [])
      /\ (forall t, eventqueueTimeout (fire call t g) = None
                    <-> eventqueue (fire call t g) = [])).
Proof.
  intros Hr. split; [apply (reachable_nonnull op call g Hr) |]. split.
  - intros Hall Hq.
    destruct (reachable_scheduled op call g Hr Hall) as [Hne Hin].
    destruct (eventqueueTimeout g) as [t |] eqn:E.
    + exists t. split; [reflexivity | apply Hin; reflexivity].
    + exfalso. apply (Hne Hq). reflexivity.
  - intros Hh.
    split; [apply (queue_exec_next_fields op call g Hh) |].
    split; [apply (queue_exec_next_null op call g Hh) |].
    intros t. unfold fire. apply queue_exec_next_null. exact Hh.
Qed.

Lemma queue_schedule_invariant_witness :
  exists t,
    eventqueueTimeout
      (fire zero_throws 1%positive (queue_event (Fns [4; 5]) initial)) = Some t
    /\ In t (timers
               (fire zero_throws 1%positive (queue_event (Fns [4; 5]) initial))).
Proof.
  assert (Hr : reachable zero_throws
                 (fire zero_throws 1%positive
                    (queue_event (Fns [4; 5]) initial))).
  { eapply reachable_step.
    - eapply reachable_step; [apply reachable_initial |].
      apply (step_queue_event nat zero_throws (Fns [4; 5])).
    - apply step_fire. left. reflexivity. }
  destruct (queue_schedule_invariant nat zero_throws _ Hr) as (_ & H & _).
  apply H; [repeat constructor | discriminate].
Defined.

(* ===================================================================== *)
(** ** More on the comparison                                             *)
(* ===================================================================== *)

Section Comparison.

Local Open Scope Z_scope.

Lemma strip_zeros_point i f :
  strip_zeros (i ++ "."%char :: f) = (strip_zeros i ++ "."%char :: f)%list.
Proof.
  induction i as [| x i IH]; [reflexivity |].
  cbn [app strip_zeros]. destruct (Ascii.eqb x "0"); [exact IH | reflexivity].
Qed.

(** What [string_less_than] compares for a decimal string: the integer part
    without its leading zeros, a point, the fractional part. *)
Lemma less_than_view l :
  decimal_chars l = true ->
  exists i f,
    digits i = true /\ digits f = true
    /\ with_point (strip_zeros l)
       = ((strip_zeros i ++ "."%char :: f)%list, List.length (strip_zeros i))
    /\ num l = num i * pow10 (List.length f) + num f
    /\ scale l = List.length f
    /\ firstn (int_len l) l = i
    /\ skipn (S (int_len l)) l = f.
Proof.
  intros W. destruct (decimal_split l W) as (i & f & Di & Df & Hs).
  destruct (strip_zeros_digits i Di) as (Dsi & _ & _).
  exists i, f. split; [exact Di |]. split; [exact Df |].
  destruct Hs as [(E1 & E2 & E3) | (E1 & E2)]; subst l.
  - subst f. rewrite (with_point_digits _ Dsi).
    split; [reflexivity |].
    split; [cbn [List.length]; rewrite num_nil, pow10_0; lia |].
    split; [apply scale_digits, Di |].
    rewrite (int_len_digits i Di).
    split; [apply firstn_all | apply skipn_all2; lia].
  - rewrite strip_zeros_point. unfold with_point.
    rewrite (indexOf_digits_point _ f Dsi).
    split; [reflexivity |].
    split; [apply num_point_digits, Df |].
    split; [apply scale_point, Di |].
    rewrite (int_len_point i f Di). split.
    + rewrite firstn_app, Nat.sub_diag, firstn_all. cbn [firstn].
      apply app_nil_r.
    + replace (i ++ "."%char :: f)%list with ((i ++ ["."%char]) ++ f)%list
        by (rewrite <- app_assoc; reflexivity).
      rewrite skipn_app, skipn_all2
        by (rewrite length_app; cbn [List.length]; lia).
      rewrite length_app. cbn [List.length app].
      replace (S (List.length i) - (List.length i + 1))%nat with 0%nat by lia.
      reflexivity.
Qed.

(** The loop over two runs of digits of equal length, whatever follows
    them: the first difference decides, as for numbers. *)
Lemma less_loop_prefix : forall x y p q t t' m,
  digits x = true -> digits y = true ->
  List.length x = List.length y -> List.length p = List.length q ->
  less_loop (p ++ x ++ t) (q ++ y ++ t') (List.length x + m) (List.length p)
  = match num x ?= num y with
    | Lt => Some true
    | Gt => Some false
    | Eq => less_loop (p ++ x ++ t) (q ++ y ++ t') m
              (List.length p + List.length x)
    end.
Proof.
  induction x as [| x0 x IH]; intros y p q t t' m Dx Dy HL HP.
  - destruct y; [| discriminate HL]. cbn [List.length Nat.add app].
    rewrite Nat.add_0_r. reflexivity.
  - destruct y as [| y0 y]; [discriminate HL |].
    injection HL as HL.
    simpl in Dx, Dy. apply andb_true_iff in Dx, Dy.
    destruct Dx as [Dx0 Dx]. destruct Dy as [Dy0 Dy].
    cbn [List.length Nat.add less_loop].
    assert (Ea : nth_error (p ++ (x0 :: x) ++ t) (List.length p) = Some x0)
      by (rewrite nth_error_app2, Nat.sub_diag by lia; reflexivity).
    assert (Eb : nth_error (q ++ (y0 :: y) ++ t') (List.length p) = Some y0)
      by (rewrite HP, nth_error_app2, Nat.sub_diag by lia; reflexivity).
    rewrite Ea, Eb. cbn [is_point plus_or_zero].
    rewrite (digit_not_point x0 Dx0).
    rewrite (to_number_digit x0 Dx0), (to_number_digit y0 Dy0).
    rewrite (num_cons_digit x0 x Dx0 Dx), (num_cons_digit y0 y Dy0 Dy).
    rewrite <- HL.
    pose proof (num_lt_pow10 x Dx) as Bx.
    pose proof (num_lt_pow10 y Dy) as By. rewrite <- HL in By.
    pose proof (pow10_pos (List.length x)) as PP.
    assert (Ex : (p ++ (x0 :: x) ++ t = (p ++ [x0]) ++ x ++ t)%list)
      by (rewrite <- app_assoc; reflexivity).
    assert (Ey : (q ++ (y0 :: y) ++ t' = (q ++ [y0]) ++ y ++ t')%list)
      by (rewrite <- app_assoc; reflexivity).
    destruct (Z.ltb_spec (digit_val x0) (digit_val y0)) as [Hlt | Hge].
    + assert (C : digit_val x0 * pow10 (List.length x) + num x
                  < digit_val y0 * pow10 (List.length x) + num y) by nia.
      apply Z.compare_lt_iff in C. rewrite C. reflexivity.
    + unfold Z.gtb.
      destruct (Z.compare_spec (digit_val x0) (digit_val y0)) as [E | Hlt | Hgt];
        [| lia |].
      * rewrite E, Z.add_compare_mono_l, Ex, Ey.
        replace (S (List.length p)) with (List.length (p ++ [x0]))
          by (rewrite length_app; cbn [List.length]; lia).
        rewrite IH by (auto; rewrite !length_app; cbn [List.length]; lia).
        replace (List.length (p ++ [x0]) + List.length x)%nat
          with (List.length p + S (List.length x))%nat
          by (rewrite length_app; cbn [List.length]; lia).
        reflexivity.
      * assert (C : digit_val y0 * pow10 (List.length x) + num y
                    < digit_val x0 * pow10 (List.length x) + num x) by nia.
        apply Z.compare_gt_iff in C. rewrite C. reflexivity.
Qed.

Lemma stripped_shorter_less u v :
  digits u = true -> digits v = true ->
  (v = [] \/ exists x t, v = x :: t /\ 1 <= digit_val x) ->
  (List.length u < List.length v)%nat -> num u < num v.
Proof.
  intros Du Dv Hv Hlen.
  destruct Hv as [-> | (x & t & -> & Hx)]; [cbn in Hlen; lia |].
  pose proof (num_leading_digit x t Dv Hx) as Lv.
  pose proof (num_lt_pow10 u Du) as Bu.
  cbn [List.length] in Hlen.
  assert (pow10 (List.length u) <= pow10 (List.length t)).
  { rewrite (pow10_le_split (List.length u) (List.length t)) by lia.
    pose proof (pow10_pos (List.length u)).
    pose proof (pow10_pos (List.length t - List.length u)). nia. }
  lia.
Qed.

(** With different integer parts the comparison is decided by them. *)
Lemma string_less_than_int_parts a b :
  well_formed a = true -> well_formed b = true ->
  int_value a <> int_value b ->
  string_less_than a b = (int_value a <? int_value b).
Proof.
  unfold well_formed, int_value, string_less_than. intros Wa Wb.
  destruct (less_than_view _ Wa) as (ia & fa & Dia & Dfa & Ea & _ & _ & Fa & _).
  destruct (less_than_view _ Wb) as (ib & fb & Dib & Dfb & Eb & _ & _ & Fb & _).
  rewrite Ea, Eb, Fa, Fb. intros Hne.
  destruct (strip_zeros_digits ia Dia) as (Dsa & Na & Ha).
  destruct (strip_zeros_digits ib Dib) as (Dsb & Nb & Hb).
  rewrite <- Na, <- Nb in *.
  set (sa := strip_zeros ia) in *. set (sb := strip_zeros ib) in *.
  destruct (Nat.ltb_spec (List.length sa) (List.length sb)) as [H1 | H1].
  - symmetry. apply Z.ltb_lt. apply stripped_shorter_less; assumption.
  - destruct (Nat.ltb_spec (List.length sb) (List.length sa)) as [H2 | H2].
    + symmetry. apply Z.ltb_ge.
      pose proof (stripped_shorter_less sb sa Dsb Dsa Ha H2). lia.
    + assert (HL : List.length sa = List.length sb) by lia.
      replace (List.length (sa ++ "."%char :: fa) - 1)%nat
        with (List.length sa + List.length fa)%nat
        by (rewrite length_app; cbn [List.length]; lia).
      pose proof (less_loop_prefix sa sb [] [] ("."%char :: fa) ("."%char :: fb)
                    (List.length fa) Dsa Dsb HL eq_refl) as E.
      cbn [app List.length] in E. rewrite E.
      unfold Z.ltb. destruct (Z.compare_spec (num sa) (num sb)) as [C | C | C];
        [contradiction | reflexivity | reflexivity].
Qed.

(** The value of a decimal string lies in the unit interval that starts at
    its integer part. *)
Lemma value_int_part a :
  well_formed a = true ->
  (inject_Z (int_value a) <= value a)%Q
  /\ (value a < inject_Z (int_value a + 1))%Q.
Proof.
  unfold well_formed, int_value. intros Wa.
  destruct (less_than_view _ Wa) as (i & f & Di & Df & _ & N & S & F & _).
  rewrite F. unfold Qle, Qlt. cbn [Qnum Qden inject_Z].
  rewrite value_den, value_num, N, S.
  pose proof (num_lt_pow10 f Df). pose proof (pow10_pos (List.length f)).
  split; nia.
Qed.

End Comparison.

Section ComparisonValues.

Lemma value_lt_int_parts a b :
  well_formed a = true -> well_formed b = true ->
  int_value a <> int_value b ->
  ((value a < value b)%Q <-> (int_value a < int_value b)%Z).
Proof.
  intros Wa Wb Hne.
  destruct (value_int_part a Wa) as [La Ua].
  destruct (value_int_part b Wb) as [Lb Ub].
  assert (Hmono : forall x y : string,
             (inject_Z (int_value x) <= value x)%Q ->
             (value y < inject_Z (int_value y + 1))%Q ->
             (int_value y < int_value x)%Z -> (value y < value x)%Q).
  { intros x y Lx Uy H.
    apply (Qlt_le_trans _ (inject_Z (int_value y + 1))); [exact Uy |].
    apply (Qle_trans _ (inject_Z (int_value x))); [| exact Lx].
    rewrite <- Zle_Qle. lia. }
  split.
  - intros H.
    destruct (Z.lt_trichotomy (int_value a) (int_value b)) as [C | [C | C]];
      [exact C | contradiction |].
    exfalso. apply (Qlt_irrefl (value a)).
    apply (Qlt_trans _ (value b)); [exact H |].
    apply Hmono; assumption.
  - apply Hmono; assumption.
Qed.

Lemma value_lt_digits a b :
  all_digits a = true -> all_digits b = true ->
  ((value a < value b)%Q
   <-> (num (list_ascii_of_string a) < num (list_ascii_of_string b))%Z).
Proof.
  unfold all_digits. intros Da Db. unfold Qlt.
  rewrite !value_den, !value_num, (scale_digits _ Da), (scale_digits _ Db).
  rewrite pow10_0. lia.
Qed.

End ComparisonValues.

(** X1.  On two strings of digits only (integers, leading zeros allowed)
    [string_less_than] is the order of the numbers: it returns [true] exactly
    when the first is the smaller one. *)
Theorem string_less_than_on_integers (a b : string) :
  all_digits a = true -> all_digits b = true ->
  (string_less_than a b = true <-> (value a < value b)%Q).
Proof.
  intros Da Db.
  rewrite (string_less_than_integers a b Da Db), (value_lt_digits a b Da Db).
  apply Z.ltb_lt.
Qed.

Lemma string_less_than_on_integers_witness :
  string_less_than "0099" "100" = true.
Proof.
  apply (string_less_than_on_integers "0099" "100");
    [reflexivity | reflexivity | reflexivity].
Defined.

(** X2.  On two well-formed decimal strings whose integer parts differ,
    [string_less_than] returns [true] exactly when the first denotes the
    smaller number, whatever the fractional digits are. *)
Theorem string_less_than_by_integer_part (a b : string) :
  well_formed a = true -> well_formed b = true ->
  int_value a <> int_value b ->
  (string_less_than a b = true <-> (value a < value b)%Q).
Proof.
  intros Wa Wb Hne.
  rewrite (string_less_than_int_parts a b Wa Wb Hne).
  rewrite (value_lt_int_parts a b Wa Wb Hne).
  apply Z.ltb_lt.
Qed.

Lemma string_less_than_by_integer_part_witness :
  string_less_than "9.995" "10.01" = true.
Proof.
  apply (string_less_than_by_integer_part "9.995" "10.01");
    [reflexivity | reflexivity | discriminate | reflexivity].
Defined.

(** X3.  No string, well formed or not, is less than itself:
    [string_less_than a a] is [false]. *)
Theorem string_less_than_irreflexive (a : string) :
  string_less_than a a = false.
Proof. apply string_less_than_irrefl. Qed.

(** X4.  On two strings of digits only, [string_max] returns the one that
    denotes the larger number, and its first argument when they denote the
    same number. *)
Theorem string_max_on_integers (a b : string) :
  all_digits a = true -> all_digits b = true ->
  ((value a < value b)%Q -> string_max a b = b)
  /\ (~ (value a < value b)%Q -> string_max a b = a).
Proof.
  intros Da Db. unfold string_max.
  rewrite (string_less_than_integers a b Da Db), (value_lt_digits a b Da Db).
  split; intros H.
  - apply Z.ltb_lt in H. rewrite H. reflexivity.
  - apply Z.ltb_nlt in H. rewrite H. reflexivity.
Qed.

Lemma string_max_on_integers_witness :
  string_max "7" "12" = "12"%string.
Proof.
  apply (string_max_on_integers "7" "12"); reflexivity.
Defined.

(* ===================================================================== *)
(** ** What the comparison computes on decimal strings                    *)
(* ===================================================================== *)

Section ComparisonExact.

Local Open Scope Z_scope.

Lemma numpad_bounds l k :
  digits l = true -> (List.length l <= k)%nat -> 0 <= numpad l k < pow10 k.
Proof.
  intros D Hk. unfold numpad.
  pose proof (num_lt_pow10 l D) as B.
  pose proof (pow10_pos (k - List.length l)) as P.
  rewrite (pow10_le_split (List.length l) k Hk). nia.
Qed.

Lemma numpad_full l : numpad l (List.length l) = num l.
Proof. unfold numpad. rewrite Nat.sub_diag, pow10_0. lia. Qed.

Lemma digits_firstn n l : digits l = true -> digits (firstn n l) = true.
Proof.
  revert l. induction n as [| n IH]; intros [| x l] D; try reflexivity.
  simpl in D. apply andb_true_iff in D. destruct D as [Dx Dl].
  cbn [firstn]. simpl. rewrite Dx. apply IH, Dl.
Qed.

Lemma digits_skipn n l : digits l = true -> digits (skipn n l) = true.
Proof.
  revert l. induction n as [| n IH]; intros [| x l] D; try reflexivity.
  - exact D.
  - simpl in D. apply andb_true_iff in D. apply IH, D.
Qed.

Lemma plus_or_zero_hd y :
  digits y = true -> plus_or_zero (hd_error y) = digit_opt (hd_error y).
Proof.
  destruct y as [| y0 y]; [reflexivity |]. intros D.
  simpl in D. apply andb_true_iff in D. destruct D as [D0 _].
  cbn [hd_error plus_or_zero digit_opt]. rewrite (to_number_digit y0 D0).
  reflexivity.
Qed.

(** The loop over the fractional digits: the digits of the first operand
    are compared with those of the second, read as zeros where it has none;
    the first difference decides. *)
Lemma less_loop_padded : forall n x y a b i,
  digits x = true -> digits y = true -> (n <= List.length x)%nat ->
  (forall j, (j < n)%nat -> nth_error a (i + j) = nth_error x j) ->
  (forall j, nth_error b (i + j) = nth_error y j) ->
  less_loop a b n i
  = match num (firstn n x) ?= numpad (firstn n y) n with
    | Lt => Some true
    | Gt => Some false
    | Eq => None
    end.
Proof.
  induction n as [| n IH]; intros x y a b i Dx Dy Hn Ha Hb.
  - cbn [firstn less_loop]. rewrite num_nil, numpad_nil. reflexivity.
  - destruct x as [| x0 x]; [cbn in Hn; lia |].
    cbn [List.length] in Hn.
    pose proof Dx as Dx'. simpl in Dx'. apply andb_true_iff in Dx'.
    destruct Dx' as [Dx0 Dxt].
    assert (Ea : nth_error a i = Some x0).
    { rewrite <- (Nat.add_0_r i). rewrite Ha by lia. reflexivity. }
    assert (Eb : nth_error b i = hd_error y).
    { rewrite <- (Nat.add_0_r i) at 1. rewrite Hb. apply nth_error_hd. }
    cbn [less_loop]. rewrite Ea, Eb. cbn [is_point].
    rewrite (digit_not_point x0 Dx0).
    cbn [plus_or_zero]. rewrite (to_number_digit x0 Dx0).
    change (match hd_error y with
            | Some c => match to_number c with Num z => z | NaN => 0 end
            | None => 0
            end) with (plus_or_zero (hd_error y)).
    rewrite (plus_or_zero_hd y Dy).
    assert (IHn : less_loop a b n (S i)
                  = match num (firstn n x) ?= numpad (firstn n (tl y)) n with
                    | Lt => Some true
                    | Gt => Some false
                    | Eq => None
                    end).
    { apply IH; [exact Dxt | apply digits_tl, Dy | lia | |].
      - intros j Hj. replace (S i + j)%nat with (i + S j)%nat by lia.
        rewrite Ha by lia. reflexivity.
      - intros j. replace (S i + j)%nat with (i + S j)%nat by lia.
        rewrite Hb. apply nth_error_tl. }
    rewrite IHn.
    change (firstn (S n) (x0 :: x)) with (x0 :: firstn n x).
    rewrite (num_cons_digit x0 (firstn n x) Dx0 (digits_firstn n x Dxt)).
    rewrite length_firstn, (Nat.min_l n (List.length x)) by lia.
    assert (Ey : numpad (firstn (S n) y) (S n)
                 = digit_opt (hd_error y) * pow10 n + numpad (firstn n (tl y)) n).
    { destruct y as [| y0 y].
      - cbn [firstn hd_error tl digit_opt]. rewrite firstn_nil, !numpad_nil. lia.
      - cbn [firstn hd_error tl digit_opt].
        simpl in Dy. apply andb_true_iff in Dy. destruct Dy as [Dy0 Dyt].
        apply numpad_cons; [exact Dy0 | apply digits_firstn, Dyt |].
        rewrite length_firstn. lia. }
    rewrite Ey.
    pose proof (num_lt_pow10 (firstn n x) (digits_firstn n x Dxt)) as Bx.
    rewrite length_firstn, (Nat.min_l n (List.length x)) in Bx by lia.
    assert (By : 0 <= numpad (firstn n (tl y)) n < pow10 n).
    { apply numpad_bounds; [apply digits_firstn, digits_tl, Dy |].
      rewrite length_firstn. lia. }
    pose proof (pow10_pos n) as PP.
    set (dx := digit_val x0) in *. set (dy := digit_opt (hd_error y)) in *.
    set (rx := num (firstn n x)) in *.
    set (ry := numpad (firstn n (tl y)) n) in *.
    destruct (Z.ltb_spec dx dy) as [Hlt | Hge].
    + assert (C : dx * pow10 n + rx < dy * pow10 n + ry) by nia.
      apply Z.compare_lt_iff in C. rewrite C. reflexivity.
    + unfold Z.gtb.
      destruct (Z.compare_spec dx dy) as [E | Hlt | Hgt]; [| lia |].
      * rewrite E, Z.add_compare_mono_l. reflexivity.
      * assert (C : dy * pow10 n + ry < dx * pow10 n + rx) by nia.
        apply Z.compare_gt_iff in C. rewrite C. reflexivity.
Qed.

(** The readings of a decimal string in terms of its two runs of digits. *)
Lemma readings_view a :
  well_formed a = true ->
  exists i f,
    digits i = true /\ digits f = true
    /\ with_point (strip_zeros (list_ascii_of_string a))
       = ((strip_zeros i ++ "."%char :: f)%list, List.length (strip_zeros i))
    /\ int_value a = num i
    /\ frac_chars a = f
    /\ frac_digits a = List.length f
    /\ num (list_ascii_of_string a) = num i * pow10 (List.length f) + num f.
Proof.
  unfold well_formed, int_value, frac_chars, frac_digits, int_digits.
  intros W.
  destruct (less_than_view _ W) as (i & f & Di & Df & E & N & S & F & K).
  exists i, f. rewrite F, K. repeat split; assumption.
Qed.

Lemma truncated_view m f :
  digits f = true ->
  0 <= numpad (firstn m f) m < pow10 m.
Proof.
  intros Df. apply numpad_bounds; [apply digits_firstn, Df |].
  rewrite length_firstn. lia.
Qed.

(** The comparison in terms of the numbers cut before the last fractional
    digit of the first operand. *)
Lemma string_less_than_truncated a b :
  well_formed a = true -> well_formed b = true ->
  string_less_than a b
  = if truncated (frac_digits a - 1) a =? truncated (frac_digits a - 1) b
    then (frac_digits b <? frac_digits a)%nat
    else truncated (frac_digits a - 1) a <? truncated (frac_digits a - 1) b.
Proof.
  intros Wa Wb.
  destruct (readings_view a Wa) as (ia & fa & Dia & Dfa & Ea & Ia & Fa & La & _).
  destruct (readings_view b Wb) as (ib & fb & Dib & Dfb & Eb & Ib & Fb & Lb & _).
  unfold truncated. rewrite Ia, Ib, Fa, Fb, La, Lb.
  set (m := (List.length fa - 1)%nat).
  pose proof (truncated_view m fa Dfa) as Ba.
  pose proof (truncated_view m fb Dfb) as Bb.
  pose proof (pow10_pos m) as PP.
  set (ra := numpad (firstn m fa) m) in *.
  set (rb := numpad (firstn m fb) m) in *.
  destruct (Z.eq_dec (num ia) (num ib)) as [Heq | Hne].
  - (* equal integer parts: the loop reaches the fractional digits *)
    rewrite Heq.
    replace (num ib * pow10 m + ra =? num ib * pow10 m + rb) with (ra =? rb)
      by (destruct (Z.eqb_spec ra rb); symmetry;
          [apply Z.eqb_eq | apply Z.eqb_neq]; lia).
    replace (num ib * pow10 m + ra <? num ib * pow10 m + rb) with (ra <? rb)
      by (destruct (Z.ltb_spec ra rb); symmetry;
          [apply Z.ltb_lt | apply Z.ltb_ge]; lia).
    unfold string_less_than. rewrite Ea, Eb.
    destruct (strip_zeros_digits ia Dia) as (Dsa & Na & Ha).
    destruct (strip_zeros_digits ib Dib) as (Dsb & Nb & Hb).
    rewrite <- Na, <- Nb in Heq.
    set (sa := strip_zeros ia) in *. set (sb := strip_zeros ib) in *.
    assert (HL : List.length sa = List.length sb).
    { destruct (Nat.lt_trichotomy (List.length sa) (List.length sb))
        as [H | [H | H]]; [| exact H |].
      - pose proof (stripped_shorter_less sa sb Dsa Dsb Hb H). lia.
      - pose proof (stripped_shorter_less sb sa Dsb Dsa Ha H). lia. }
    rewrite HL, Nat.ltb_irrefl.
    replace (List.length (sa ++ "."%char :: fa) - 1)%nat
      with (List.length sa + List.length fa)%nat
      by (rewrite length_app; cbn [List.length]; lia).
    pose proof (less_loop_prefix sa sb [] [] ("."%char :: fa) ("."%char :: fb)
                  (List.length fa) Dsa Dsb HL eq_refl) as E.
    cbn [app List.length Nat.add] in E. rewrite E, Heq, Z.compare_refl.
    rewrite !length_app. cbn [List.length]. rewrite <- HL.
    destruct fa as [| f0 fa'].
    + (* no fractional digit in the first operand *)
      cbn [List.length less_loop].
      subst ra rb m. cbn [List.length Nat.sub firstn].
      rewrite numpad_nil, Z.eqb_refl.
      destruct (Nat.leb_spec (List.length sa + 1)
                  (List.length sa + S (List.length fb))); [| lia].
      reflexivity.
    + cbn [List.length] in *.
      assert (Hm : m = List.length fa') by (subst m; lia).
      cbn [less_loop].
      assert (Ep : nth_error (sa ++ "."%char :: f0 :: fa') (List.length sa)
                   = Some "."%char)
        by (rewrite nth_error_app2, Nat.sub_diag by lia; reflexivity).
      rewrite Ep. cbn [is_point]. rewrite Ascii.eqb_refl.
      rewrite (less_loop_padded (List.length fa') (f0 :: fa') fb
                 (sa ++ "."%char :: f0 :: fa') (sb ++ "."%char :: fb)
                 (S (List.length sa)) Dfa Dfb).
      * assert (Era : num (firstn (List.length fa') (f0 :: fa')) = ra).
        { subst ra. rewrite Hm. unfold numpad.
          rewrite length_firstn. cbn [List.length].
          rewrite Nat.min_l by lia. rewrite Nat.sub_diag, pow10_0. lia. }
        rewrite Era. fold rb. rewrite <- Hm. fold rb.
        destruct (Z.compare_spec ra rb) as [C | C | C].
        -- rewrite (proj2 (Z.eqb_eq ra rb) C).
           destruct (Nat.leb_spec (List.length sa + S (S m))
                       (List.length sa + S (List.length fb)));
             symmetry; [apply Nat.ltb_ge | apply Nat.ltb_lt]; lia.
        -- rewrite (proj2 (Z.eqb_neq ra rb)) by lia.
           symmetry. apply Z.ltb_lt. exact C.
        -- rewrite (proj2 (Z.eqb_neq ra rb)) by lia.
           symmetry. apply Z.ltb_ge. lia.
      * cbn [List.length]. lia.
      * intros j _. rewrite nth_error_app2 by lia.
        replace (S (List.length sa) + j - List.length sa)%nat with (S j) by lia.
        reflexivity.
      * intros j. rewrite nth_error_app2 by lia.
        replace (S (List.length sa) + j - List.length sb)%nat with (S j) by lia.
        reflexivity.
  - (* different integer parts decide *)
    rewrite (string_less_than_int_parts a b Wa Wb) by (rewrite Ia, Ib; exact Hne).
    rewrite Ia, Ib.
    destruct (Z.ltb_spec (num ia) (num ib)) as [H | H].
    + assert (C : num ia * pow10 m + ra < num ib * pow10 m + rb) by nia.
      destruct (Z.eqb_spec (num ia * pow10 m + ra) (num ib * pow10 m + rb));
        [lia |].
      symmetry. apply Z.ltb_lt. exact C.
    + assert (C : num ib * pow10 m + rb < num ia * pow10 m + ra) by nia.
      destruct (Z.eqb_spec (num ia * pow10 m + ra) (num ib * pow10 m + rb));
        [lia |].
      symmetry. apply Z.ltb_ge. lia.
Qed.

(** The number cut after [m] fractional digits brackets the value. *)
Lemma truncated_brackets m a :
  well_formed a = true ->
  truncated m a * pow10 (frac_digits a)
  <= num (list_ascii_of_string a) * pow10 m
  < (truncated m a + 1) * pow10 (frac_digits a).
Proof.
  intros Wa.
  destruct (readings_view a Wa) as (i & f & Di & Df & _ & I & F & L & N).
  unfold truncated. rewrite I, F, L, N.
  pose proof (pow10_pos m) as Pm. pose proof (pow10_pos (List.length f)) as Pf.
  destruct (Nat.le_gt_cases (List.length f) m) as [Hle | Hgt].
  - rewrite firstn_all2 by exact Hle. unfold numpad.
    rewrite (pow10_le_split (List.length f) m Hle).
    pose proof (pow10_pos (m - List.length f)). nia.
  - pose proof (digits_skipn m f Df) as D2.
    assert (Ef : num f = num (firstn m f) * pow10 (List.length f - m)
                         + num (skipn m f)).
    { rewrite <- (firstn_skipn m f) at 1.
      rewrite (num_app_digits (firstn m f) (skipn m f) D2), length_skipn.
      reflexivity. }
    pose proof (num_lt_pow10 _ D2) as B2. rewrite length_skipn in B2.
    unfold numpad. rewrite length_firstn, (Nat.min_l m) by lia.
    rewrite Nat.sub_diag, pow10_0, Ef.
    rewrite (pow10_le_split m (List.length f)) by lia.
    pose proof (pow10_pos (List.length f - m)) as Pk.
    set (k := pow10 (List.length f - m)) in *.
    set (h := num (firstn m f)) in *. set (r := num (skipn m f)) in *.
    set (pm := pow10 m) in *. set (ni := num i) in *.
    split; nia.
Qed.

Lemma truncated_lt_value m a b :
  well_formed a = true -> well_formed b = true ->
  truncated m a < truncated m b -> (value a < value b)%Q.
Proof.
  intros Wa Wb H.
  pose proof (truncated_brackets m a Wa) as [_ Ua].
  pose proof (truncated_brackets m b Wb) as [Lb _].
  unfold Qlt. rewrite !value_den, !value_num.
  fold (frac_digits a). fold (frac_digits b).
  pose proof (pow10_pos m) as Pm.
  pose proof (pow10_pos (frac_digits a)) as Pa.
  pose proof (pow10_pos (frac_digits b)) as Pb.
  set (na := num (list_ascii_of_string a)) in *.
  set (nb := num (list_ascii_of_string b)) in *.
  set (ta := truncated m a) in *. set (tb := truncated m b) in *.
  set (pa := pow10 (frac_digits a)) in *.
  set (pb := pow10 (frac_digits b)) in *.
  set (pm := pow10 m) in *.
  assert (H0 : (ta + 1) * pa <= tb * pa)
    by (apply Z.mul_le_mono_nonneg_r; lia).
  assert (H1 : na * pm * pb < tb * pa * pb)
    by (apply Z.mul_lt_mono_pos_r; lia).
  assert (H2 : tb * pb * pa <= nb * pm * pa)
    by (apply Z.mul_le_mono_nonneg_r; lia).
  assert (H3 : (na * pb) * pm < (nb * pa) * pm) by lia.
  apply Z.mul_lt_mono_pos_r in H3; [exact H3 | exact Pm].
Qed.

End ComparisonExact.

(** X5.  What [string_less_than] computes on two well-formed decimal
    strings.  Both numbers are cut before the last fractional digit of the
    first operand (at the point when it has no fractional digit).  When the
    cut numbers differ, the result is their order.
    When they are equal, the remaining digits are not compared: the result is
    [true] exactly when the first operand has more fractional digits than the
    second. *)
Theorem string_less_than_computes (a b : string) :
  well_formed a = true -> well_formed b = true ->
  string_less_than a b
  = if (truncated (frac_digits a - 1) a =? truncated (frac_digits a - 1) b)%Z
    then frac_digits b <? frac_digits a
    else (truncated (frac_digits a - 1) a <? truncated (frac_digits a - 1) b)%Z.
Proof. apply string_less_than_truncated. Qed.

Lemma string_less_than_computes_witness :
  string_less_than "12.345" "12.349" = false
  /\ string_less_than "12.345" "12.34" = true
  /\ string_less_than "12.345" "12.4" = true.
Proof.
  split; [| split].
  - apply (string_less_than_computes "12.345" "12.349"); reflexivity.
  - apply (string_less_than_computes "12.345" "12.34"); reflexivity.
  - apply (string_less_than_computes "12.345" "12.4"); reflexivity.
Defined.

(** X6.  [string_less_than] agrees with the order of the numbers whenever
    the two operands already differ before the last fractional digit of the
    first one: it then returns [true] exactly when the first denotes the
    smaller number. *)
Theorem string_less_than_right_before_last_digit (a b : string) :
  well_formed a = true -> well_formed b = true ->
  truncated (frac_digits a - 1) a <> truncated (frac_digits a - 1) b ->
  (string_less_than a b = true <-> (value a < value b)%Q).
Proof.
  intros Wa Wb Hne.
  rewrite (string_less_than_truncated a b Wa Wb).
  destruct (Z.eqb_spec (truncated (frac_digits a - 1) a)
              (truncated (frac_digits a - 1) b)) as [E | _]; [contradiction |].
  rewrite Z.ltb_lt. split.
  - apply truncated_lt_value; assumption.
  - intros H.
    destruct (Z.lt_trichotomy (truncated (frac_digits a - 1) a)
                (truncated (frac_digits a - 1) b)) as [C | [C | C]];
      [exact C | contradiction |].
    exfalso. apply (Qlt_irrefl (value a)).
    apply (Qlt_trans _ (value b)); [exact H |].
    apply (truncated_lt_value (frac_digits a - 1) b a Wb Wa C).
Qed.

Lemma string_less_than_right_before_last_digit_witness :
  string_less_than "0.125" "0.13" = true.
Proof.
  apply (string_less_than_right_before_last_digit "0.125" "0.13");
    [reflexivity | reflexivity | discriminate | reflexivity].
Defined.

Section ComparisonOrder.

Local Open Scope Z_scope.

(** Cutting after fewer digits is cutting the cut number. *)
Lemma truncated_coarser m n a :
  well_formed a = true -> (m <= n)%nat ->
  truncated m a * pow10 (n - m) <= truncated n a
  < (truncated m a + 1) * pow10 (n - m).
Proof.
  intros Wa Hmn.
  pose proof (truncated_brackets m a Wa) as [Lm Um].
  pose proof (truncated_brackets n a Wa) as [Ln Un].
  rewrite (pow10_le_split m n Hmn) in Ln, Un.
  pose proof (pow10_pos m) as Pm. pose proof (pow10_pos (n - m)) as Pd.
  pose proof (pow10_pos (frac_digits a)) as Pf.
  set (x := num (list_ascii_of_string a)) in *.
  set (tm := truncated m a) in *. set (tn := truncated n a) in *.
  set (pf := pow10 (frac_digits a)) in *.
  set (pm := pow10 m) in *. set (pd := pow10 (n - m)) in *.
  assert (L1 : tm * pf * pd <= x * pm * pd)
    by (apply Z.mul_le_mono_nonneg_r; lia).
  assert (U1 : x * pm * pd < (tm + 1) * pf * pd)
    by (apply Z.mul_lt_mono_pos_r; lia).
  assert (A : (tm * pd) * pf < (tn + 1) * pf) by lia.
  assert (B : tn * pf < ((tm + 1) * pd) * pf) by lia.
  apply Z.mul_lt_mono_pos_r in A; [| exact Pf].
  apply Z.mul_lt_mono_pos_r in B; [| exact Pf].
  lia.
Qed.

Lemma truncated_coarser_eq m n a b :
  well_formed a = true -> well_formed b = true -> (m <= n)%nat ->
  truncated n a = truncated n b -> truncated m a = truncated m b.
Proof.
  intros Wa Wb Hmn E.
  pose proof (truncated_coarser m n a Wa Hmn) as [La Ua].
  pose proof (truncated_coarser m n b Wb Hmn) as [Lb Ub].
  rewrite E in La, Ua.
  pose proof (pow10_pos (n - m)) as Pd.
  set (pd := pow10 (n - m)) in *. nia.
Qed.

End ComparisonOrder.

(** X7.  On well-formed decimal strings [string_less_than] never orders a
    pair both ways: when it returns [true] for [a] and [b], it returns
    [false] for [b] and [a]. *)
Theorem string_less_than_asymmetric (a b : string) :
  well_formed a = true -> well_formed b = true ->
  string_less_than a b = true -> string_less_than b a = false.
Proof.
  intros Wa Wb.
  rewrite (string_less_than_truncated a b Wa Wb).
  rewrite (string_less_than_truncated b a Wb Wa).
  set (ma := frac_digits a - 1). set (mb := frac_digits b - 1).
  destruct (Z.eqb_spec (truncated ma a) (truncated ma b)) as [Ea | Na].
  - intros Hlen. apply Nat.ltb_lt in Hlen.
    assert (Eb : truncated mb b = truncated mb a).
    { symmetry. apply (truncated_coarser_eq mb ma a b Wa Wb); [| exact Ea].
      subst ma mb. lia. }
    rewrite Eb, Z.eqb_refl. apply Nat.ltb_ge. lia.
  - intros Hlt. apply Z.ltb_lt in Hlt.
    destruct (Z.eqb_spec (truncated mb b) (truncated mb a)) as [Eb | Nb].
    + apply Nat.ltb_ge.
      destruct (Nat.le_gt_cases (frac_digits b) (frac_digits a)) as [H | H];
        [exact H |].
      exfalso. apply Na.
      apply (truncated_coarser_eq ma mb a b Wa Wb); [| symmetry; exact Eb].
      subst ma mb. lia.
    + apply Z.ltb_ge.
      destruct (Z.le_gt_cases (truncated mb a) (truncated mb b)) as [H | H];
        [exact H |].
      exfalso.
      pose proof (truncated_lt_value ma a b Wa Wb Hlt) as V1.
      pose proof (truncated_lt_value mb b a Wb Wa H) as V2.
      apply (Qlt_irrefl (value a)). apply (Qlt_trans _ (value b)); assumption.
Qed.

Lemma string_less_than_asymmetric_witness :
  string_less_than "1.5" "1.55" = false.
Proof.
  apply (string_less_than_asymmetric "1.55" "1.5");
    [reflexivity | reflexivity | reflexivity].
Defined.

(* ===================================================================== *)
(** ** Sums and halves together                                           *)
(* ===================================================================== *)

Section Composition.

Lemma half_between (x y m : Q) :
  (m == (x + y) / 2)%Q -> (x < y)%Q -> (x < m)%Q /\ (m < y)%Q.
Proof.
  intros Hm Hlt.
  assert (Hm' : (m == (1 # 2) * (x + y))%Q) by (rewrite Hm; field).
  rewrite Hm'. split; lra.
Qed.

Lemma pow2_pos n : (0 < 2 ^ Z.of_nat n)%Z.
Proof. apply Z.pow_pos_nonneg; lia. Qed.

Lemma inject_pow2_S n :
  (inject_Z (2 ^ Z.of_nat (S n)) == 2 * inject_Z (2 ^ Z.of_nat n))%Q.
Proof.
  rewrite Nat2Z.inj_succ, Z.pow_succ_r by lia.
  rewrite inject_Z_mult. reflexivity.
Qed.

Lemma inject_pow2_nonzero n : ~ (inject_Z (2 ^ Z.of_nat n) == 0)%Q.
Proof.
  unfold Qeq. cbn [Qnum Qden inject_Z]. pose proof (pow2_pos n). lia.
Qed.

(** [n] halvings, one after the other. *)
Lemma iter_half_value a : forall n,
  well_formed a = true ->
  well_formed (Nat.iter n string_half a) = true
  /\ (value (Nat.iter n string_half a)
      == value a / inject_Z (2 ^ Z.of_nat n))%Q
  /\ frac_digits (Nat.iter n string_half a) <= frac_digits a + n.
Proof.
  induction n as [| n IH]; intros Wa.
  - change (Nat.iter 0 string_half a) with a.
    split; [exact Wa |]. split; [| lia].
    change (inject_Z (2 ^ Z.of_nat 0)) with 1%Q. field.
  - destruct (IH Wa) as (Wn & Vn & Fn).
    change (Nat.iter (S n) string_half a)
      with (string_half (Nat.iter n string_half a)).
    set (x := Nat.iter n string_half a) in *.
    destruct (string_half_value x Wn) as [Wh Vh].
    destruct (string_half_spec x Wn) as (r & k & E & _ & Hk & Sr & _).
    split; [exact Wh |]. split.
    + rewrite Vh, Vn, inject_pow2_S. field. apply inject_pow2_nonzero.
    + unfold frac_digits in *. rewrite E, list_ascii_of_string_of_list_ascii, Sr.
      destruct (Z.odd (num (list_ascii_of_string x))); subst k; lia.
Qed.

End Composition.

(** X8.  For well-formed decimal strings [a] and [b], half of their sum is
    returned, is a decimal string, and denotes exactly [(a + b) / 2]; when [a]
    denotes less than [b] it denotes a number strictly between the two. *)
Theorem midpoint_exact_between (a b : string) :
  well_formed a = true -> well_formed b = true ->
  exists m,
    midpoint a b = Return m
    /\ well_formed m = true
    /\ (value m == (value a + value b) / 2)%Q
    /\ ((value a < value b)%Q -> (value a < value m)%Q /\ (value m < value b)%Q).
Proof.
  intros Wa Wb. unfold midpoint.
  destruct (string_add_value a b Wa Wb) as (s & Es & Ws & Vs).
  destruct (string_half_value s Ws) as [Wh Vh].
  exists (string_half s). rewrite Es. cbn [bind].
  assert (Vm : (value (string_half s) == (value a + value b) / 2)%Q)
    by (rewrite Vh, Vs; reflexivity).
  split; [reflexivity |]. split; [exact Wh |]. split; [exact Vm |].
  apply half_between, Vm.
Qed.

Lemma midpoint_exact_between_witness :
  exists m, midpoint "1" "2" = Return m
            /\ (value "1" < value m)%Q /\ (value m < value "2")%Q.
Proof.
  destruct (midpoint_exact_between "1" "2" eq_refl eq_refl)
    as (m & E & _ & _ & H).
  exists m. split; [exact E |]. apply H. reflexivity.
Defined.

(** X9.  Adding the half of a well-formed decimal string to itself returns
    a string that denotes the number the string denotes: no precision is lost
    by [string_half]. *)
Theorem half_plus_half (a : string) :
  well_formed a = true ->
  exists s,
    string_add (string_half a) (string_half a) = Return s
    /\ well_formed s = true
    /\ (value s == value a)%Q.
Proof.
  intros Wa. destruct (string_half_value a Wa) as [Wh Vh].
  destruct (string_add_value _ _ Wh Wh) as (s & Es & Ws & Vs).
  exists s. split; [exact Es |]. split; [exact Ws |].
  rewrite Vs, Vh. field.
Qed.

Lemma half_plus_half_witness :
  exists s, string_add (string_half "0.7") (string_half "0.7") = Return s
            /\ (value s == value "0.7")%Q.
Proof.
  destruct (half_plus_half "0.7" eq_refl) as (s & E & _ & V).
  exists s. split; assumption.
Defined.

(** X10.  Halving a well-formed decimal string [n] times gives a decimal
    string that denotes exactly the number divided by [2 ^ n], with at most
    [n] more fractional digits; so for a number other than zero no two
    counts of halvings give the same string. *)
Theorem halving_never_runs_out (a : string) (n : nat) :
  well_formed a = true ->
  well_formed (Nat.iter n string_half a) = true
  /\ (value (Nat.iter n string_half a)
      == value a / inject_Z (2 ^ Z.of_nat n))%Q
  /\ frac_digits (Nat.iter n string_half a) <= frac_digits a + n
  /\ (~ (value a == 0)%Q ->
      forall m, m <> n ->
                Nat.iter m string_half a <> Nat.iter n string_half a).
Proof.
  intros Wa. destruct (iter_half_value a n Wa) as (Wn & Vn & Fn).
  split; [exact Wn |]. split; [exact Vn |]. split; [exact Fn |].
  intros Hnz m Hne Heq.
  destruct (iter_half_value a m Wa) as (_ & Vm & _).
  rewrite Heq, Vn in Vm.
  pose proof (inject_pow2_nonzero n) as Pn.
  pose proof (inject_pow2_nonzero m) as Pm.
  assert (E : (inject_Z (2 ^ Z.of_nat m) == inject_Z (2 ^ Z.of_nat n))%Q).
  { apply (Qmult_inj_l _ _ (value a) Hnz).
    transitivity (value a / inject_Z (2 ^ Z.of_nat n)
                  * inject_Z (2 ^ Z.of_nat n) * inject_Z (2 ^ Z.of_nat m))%Q.
    - field. exact Pn.
    - rewrite Vm. field. exact Pm. }
  apply Hne. unfold Qeq in E. cbn [Qnum Qden inject_Z] in E.
  rewrite !Z.mul_1_r in E.
  apply Z.pow_inj_r in E; lia.
Qed.

Lemma halving_never_runs_out_witness :
  (value (Nat.iter 3 string_half "1"%string)
   == value "1" / inject_Z (2 ^ Z.of_nat 3))%Q
  /\ Nat.iter 2 string_half "1"%string <> Nat.iter 3 string_half "1"%string.
Proof.
  destruct (halving_never_runs_out "1"%string 3 eq_refl) as (_ & V & _ & H).
  split; [exact V |]. apply H; [| lia].
  intros E. vm_compute in E. discriminate E.
Defined.

(* ===================================================================== *)
(** ** The shape of what [string_add] and [string_half] return            *)
(* ===================================================================== *)

Section Shapes.

Local Open Scope Z_scope.

Lemma string_of_list_ascii_inj r r' :
  string_of_list_ascii r = string_of_list_ascii r' -> r = r'.
Proof.
  intros E. apply (f_equal list_ascii_of_string) in E.
  rewrite !list_ascii_of_string_of_list_ascii in E. exact E.
Qed.

Lemma length_string_of_list r :
  String.length (string_of_list_ascii r) = List.length r.
Proof.
  induction r as [| x r IH]; [reflexivity |]. cbn. rewrite IH. reflexivity.
Qed.

Lemma last_char_of_list r :
  last_char (string_of_list_ascii r) = hd_error (rev r).
Proof.
  unfold last_char. rewrite list_ascii_of_string_of_list_ascii. reflexivity.
Qed.

Lemma last_digit_not_point (r : chars) :
  (r = [] \/ exists p d, r = (p ++ [d])%list /\ is_digit d = true) ->
  hd_error (rev r) <> Some "."%char.
Proof.
  intros [-> | (p & d & -> & Dd)]; [discriminate |].
  rewrite rev_app_distr. cbn [rev app hd_error]. intros E. injection E as ->.
  discriminate Dd.
Qed.

(** The end of [string_add]: what is returned ends with a digit. *)
Lemma add_finish_last ri rf c :
  digits ri = true -> digits rf = true -> c = 0 \/ c = 1 ->
  exists r,
    (let ret := singles (ri ++ "."%char :: rf) in
     let ret := if gt0 (Num c) then toString (Num c) :: ret else ret in
     let ret := if last_is_point ret then removelast ret else ret in
     Return (join ret))
    = Return (string_of_list_ascii r)
    /\ (r = [] \/ exists p d, r = (p ++ [d])%list /\ is_digit d = true).
Proof.
  intros Di Df Hc. cbv zeta.
  set (ri' := if (0 <? c) then "1"%char :: ri else ri).
  assert (E1 : (if gt0 (Num c)
                then toString (Num c) :: singles (ri ++ "."%char :: rf)
                else singles (ri ++ "."%char :: rf))
               = singles (ri' ++ "."%char :: rf)).
  { subst ri'. destruct Hc; subst c; reflexivity. }
  assert (Di' : digits ri' = true).
  { subst ri'. destruct Hc; subst c; cbn; exact Di. }
  rewrite E1.
  destruct (digits_snoc_inv rf Df) as [-> | (rf' & d & -> & Dd)].
  - exists ri'. rewrite last_is_point_snoc, removelast_singles_snoc.
    cbn [Ascii.eqb Bool.eqb]. rewrite join_singles.
    split; [reflexivity |].
    destruct (digits_snoc_inv ri' Di') as [E | (p & d & E & Dd)].
    + left. exact E.
    + right. exists p, d. split; assumption.
  - exists (ri' ++ "."%char :: rf' ++ [d])%list.
    assert (EL : (ri' ++ "."%char :: rf' ++ [d]
                  = (ri' ++ "."%char :: rf') ++ [d])%list)
      by (rewrite <- app_assoc; reflexivity).
    rewrite EL, last_is_point_snoc, (digit_not_point d Dd), join_singles.
    split; [reflexivity |].
    right. exists (ri' ++ "."%char :: rf')%list, d. split; [reflexivity | exact Dd].
Qed.

Lemma string_add_last a b :
  well_formed a = true -> well_formed b = true ->
  exists r,
    string_add a b = Return (string_of_list_ascii r)
    /\ (r = [] \/ exists p d, r = (p ++ [d])%list /\ is_digit d = true).
Proof.
  unfold well_formed, string_add.
  set (la := list_ascii_of_string a). set (lb := list_ascii_of_string b).
  intros Wa Wb.
  destruct (with_point_decimal la Wa) as (ia & fa & Dia & Dfa & Ea & _).
  destruct (with_point_decimal lb Wb) as (ib & fb & Dib & Dfb & Eb & _).
  rewrite (align_decimal la lb ia fa ib fb Ea Eb).
  set (ia' := (repeat "0"%char (List.length ib - List.length ia) ++ ia)%list).
  set (ib' := (repeat "0"%char (List.length ia - List.length ib) ++ ib)%list).
  assert (Dia' : digits ia' = true)
    by (subst ia'; rewrite digits_app, digits_repeat_zero; exact Dia).
  assert (Dib' : digits ib' = true)
    by (subst ib'; rewrite digits_app, digits_repeat_zero; exact Dib).
  assert (HL : List.length ia' = List.length ib')
    by (subst ia' ib'; rewrite !length_app, !repeat_length; lia).
  set (n := Nat.max (List.length fa) (List.length fb)).
  replace (Nat.max (List.length (ia' ++ "."%char :: fa))
                   (List.length (ib' ++ "."%char :: fb)))
    with (List.length ia' + S n)%nat
    by (subst n; rewrite !length_app; cbn [List.length]; lia).
  destruct (add_loop_frac n fa fb Dfa Dfb eq_refl)
    as (rf & c0 & E0 & Drf & _ & Hc0 & _).
  pose proof (add_loop_point fa fb n _ _ E0) as Ep.
  destruct (add_loop_int ia' ib' _ _ (S n) _ c0 Dia' Dib' HL Ep Hc0)
    as (ri & c & Ei & Dri & _ & Hc & _).
  rewrite Ei. cbn [bind].
  change (singles ri ++ "."%string :: singles rf)%list
    with (singles ri ++ singles ("."%char :: rf))%list.
  rewrite <- singles_app.
  apply (add_finish_last ri rf c Dri Drf Hc).
Qed.

(** Dropping leading zeros of the array leaves no zero in front of another
    code unit. *)
Lemma shift_zeros_head : forall l,
  exists l',
    shift_zeros (singles l) = singles l'
    /\ (exists k, l = (repeat "0"%char k ++ l')%list)
    /\ (l <> [] -> l' <> [])
    /\ ((List.length l' <= 1)%nat \/ hd_error l' <> Some "0"%char).
Proof.
  induction l as [| x l IH].
  - exists []. repeat split; [exists 0%nat; reflexivity | auto | left; cbn; lia].
  - destruct l as [| y l].
    + exists [x]. repeat split; [exists 0%nat; reflexivity | discriminate |].
      left. cbn. lia.
    + cbn [singles map shift_zeros]. fold (singles l).
      change ("0"%string) with (String "0" EmptyString).
      rewrite string_eqb_single.
      destruct (Ascii.eqb_spec x "0"%char) as [E | E].
      * subst x. destruct IH as (l' & E1 & (k & E2) & E3 & E4).
        exists l'. split; [exact E1 |].
        split; [exists (S k); cbn [repeat app]; rewrite <- E2; reflexivity |].
        split; [intros _; apply E3; discriminate | exact E4].
      * exists (x :: y :: l). repeat split;
          [exists 0%nat; reflexivity | discriminate |].
        right. cbn [hd_error]. intros H. injection H as H. contradiction.
Qed.

Lemma string_half_shape a :
  well_formed a = true ->
  exists r,
    string_half a = string_of_list_ascii r
    /\ (r = [] \/ exists p d, r = (p ++ [d])%list /\ is_digit d = true)
    /\ ((List.length r <= 1)%nat \/ hd_error r <> Some "0"%char)
    /\ (int_len r <= int_len (list_ascii_of_string a))%nat.
Proof.
  unfold well_formed, string_half. intros W.
  set (la := list_ascii_of_string a) in *.
  destruct (with_point_decimal la W) as (i & f & Di & Df & Ew & _).
  assert (Ia : int_len la = List.length i)
    by (rewrite <- int_len_with_point, Ew; reflexivity).
  assert (Ea : match indexOf "." la with
               | Some _ => la
               | None => (la ++ ["."%char])%list
               end = (i ++ "."%char :: f)%list).
  { unfold with_point in Ew. destruct (indexOf "." la); congruence. }
  rewrite Ea.
  destruct (half_loop_decimal i f Di Df)
    as (qi & qf & k & E & Dqi & Dqf & _ & Hk & _ & Lqi).
  rewrite E.
  set (qf' := if (0 <? 10 * k) then (qf ++ ["5"%char])%list else qf).
  assert (E1 : (if (0 <? 10 * k)
                then (singles (qi ++ "."%char :: qf) ++ ["5"%string])%list
                else singles (qi ++ "."%char :: qf))
               = singles (qi ++ "."%char :: qf')).
  { subst qf'. destruct (0 <? 10 * k); [| reflexivity].
    rewrite !singles_app. cbn [singles map]. rewrite singles_app.
    rewrite <- app_assoc. reflexivity. }
  rewrite E1.
  assert (Dqf' : digits qf' = true).
  { subst qf'. destruct (0 <? 10 * k); [| exact Dqf].
    rewrite digits_app, Dqf. reflexivity. }
  assert (Hh : exists h,
             (if last_is_point (singles (qi ++ "."%char :: qf'))
              then removelast (singles (qi ++ "."%char :: qf'))
              else singles (qi ++ "."%char :: qf')) = singles h
             /\ (h = [] \/ exists p d, h = (p ++ [d])%list /\ is_digit d = true)
             /\ (h = qi \/ h = (qi ++ "."%char :: qf')%list)).
  { destruct (digits_snoc_inv qf' Dqf') as [Eq | (q' & d & Eq & Dd)].
    - exists qi. rewrite Eq, last_is_point_snoc, removelast_singles_snoc.
      cbn [Ascii.eqb Bool.eqb]. split; [reflexivity |]. split; [| left; reflexivity].
      destruct (digits_snoc_inv qi Dqi) as [Eqi | (p & d & Eqi & Dd)].
      + left. exact Eqi.
      + right. exists p, d. split; assumption.
    - exists (qi ++ "."%char :: qf')%list.
      assert (EL : (qi ++ "."%char :: qf' = (qi ++ "."%char :: q') ++ [d])%list)
        by (rewrite Eq, <- app_assoc; reflexivity).
      assert (Hb : last_is_point (singles (qi ++ "."%char :: qf')) = false)
        by (rewrite EL, last_is_point_snoc; apply digit_not_point, Dd).
      rewrite Hb. split; [reflexivity |]. split; [| right; reflexivity].
      right. exists (qi ++ "."%char :: q')%list, d. split; [exact EL | exact Dd]. }
  destruct Hh as (h & Eh & Hlast & Hform). rewrite Eh.
  destruct (shift_zeros_head h) as (r & Er & (z & Ez) & Hne & Hhead).
  exists r. rewrite Er, join_singles.
  split; [reflexivity |]. split; [| split; [exact Hhead |]].
  - destruct Hlast as [-> | (p & d & Ep & Dd)].
    + left. destruct z; cbn [repeat app] in Ez; [symmetry; exact Ez |].
      discriminate Ez.
    + right. destruct (last_drop_prefix (repeat "0"%char z) r p d) as (p' & Ep').
      * rewrite <- Ez. exact Ep.
      * apply Hne. rewrite Ep. destruct p; discriminate.
      * exists p', d. split; [exact Ep' | exact Dd].
  - (* the integer part only loses zeros *)
    assert (Hz : (int_len h <= List.length i)%nat).
    { destruct Hform as [-> | ->].
      - rewrite (int_len_digits qi Dqi). lia.
      - rewrite (int_len_point qi qf' Dqi). lia. }
    rewrite Ia. rewrite Ez in Hz. unfold int_len in *.
    rewrite indexOf_repeat_zero in Hz.
    destruct (indexOf "." r); cbn [option_map] in Hz.
    + lia.
    + rewrite length_app, repeat_length in Hz. lia.
Qed.

End Shapes.

(** X11.  What [string_add] returns on well-formed decimal strings keeps
    every position of its operands: it has as many fractional digits as the
    operand with more of them (zeros included), at least as many integer
    digits as the operand with more of them, and it never ends with the
    decimal point. *)
Theorem string_add_keeps_positions (a b : string) :
  well_formed a = true -> well_formed b = true ->
  exists s,
    string_add a b = Return s
    /\ frac_digits s = Nat.max (frac_digits a) (frac_digits b)
    /\ Nat.max (int_digits a) (int_digits b) <= int_digits s
    /\ last_char s <> Some "."%char.
Proof.
  intros Wa Wb.
  destruct (string_add_spec a b Wa Wb)
    as (r & c & Er & _ & Sr & _ & Hc & Ir & _).
  destruct (string_add_last a b Wa Wb) as (r' & Er' & Hlast).
  rewrite Er in Er'. injection Er' as Er'.
  apply string_of_list_ascii_inj in Er'. subst r'.
  exists (string_of_list_ascii r). split; [exact Er |].
  unfold frac_digits, int_digits. rewrite last_char_of_list.
  rewrite list_ascii_of_string_of_list_ascii.
  split; [exact Sr |]. split; [rewrite Ir; lia |].
  apply last_digit_not_point, Hlast.
Qed.

Lemma string_add_keeps_positions_witness :
  exists s, string_add "0.50" "00.5" = Return s
            /\ frac_digits s = 2 /\ 2 <= int_digits s
            /\ last_char s <> Some "."%char.
Proof.
  destruct (string_add_keeps_positions "0.50" "00.5" eq_refl eq_refl)
    as (s & E & F & I & L).
  exists s. repeat split; assumption.
Defined.

(** X12.  What [string_half] returns on a well-formed decimal string never
    ends with the decimal point, never starts with a zero that another code
    unit follows, and has no more integer digits than its operand. *)
Theorem string_half_is_trimmed (a : string) :
  well_formed a = true ->
  last_char (string_half a) <> Some "."%char
  /\ (String.length (string_half a) <= 1
      \/ String.get 0 (string_half a) <> Some "0"%char)
  /\ int_digits (string_half a) <= int_digits a.
Proof.
  intros Wa.
  destruct (string_half_shape a Wa) as (r & E & Hlast & Hhead & Hint).
  rewrite E, last_char_of_list, get_0_hd. unfold int_digits.
  rewrite list_ascii_of_string_of_list_ascii.
  split; [apply last_digit_not_point, Hlast |]. split; [| exact Hint].
  destruct Hhead as [H | H]; [left | right; exact H].
  rewrite length_string_of_list. exact H.
Qed.

Lemma string_half_is_trimmed_witness :
  last_char (string_half "010.") <> Some "."%char
  /\ (String.length (string_half "010.") <= 1
      \/ String.get 0 (string_half "010.") <> Some "0"%char).
Proof.
  destruct (string_half_is_trimmed "010." eq_refl) as (L & H & _).
  split; assumption.
Defined.

(* ===================================================================== *)
(** ** Sums of three                                                      *)
(* ===================================================================== *)

Section Associativity.

Local Open Scope Z_scope.

Lemma digit_val_inj x y :
  is_digit x = true -> is_digit y = true -> digit_val x = digit_val y -> x = y.
Proof.
  unfold digit_val, code. intros _ _ H.
  assert (E : nat_of_ascii x = nat_of_ascii y) by lia.
  rewrite <- (ascii_nat_embedding x), <- (ascii_nat_embedding y), E.
  reflexivity.
Qed.

(** Two runs of digits of the same length that read as the same number are
    the same run. *)
Lemma digits_num_inj : forall x y,
  digits x = true -> digits y = true ->
  List.length x = List.length y -> num x = num y -> x = y.
Proof.
  induction x as [| x0 x IH]; intros [| y0 y] Dx Dy HL HN;
    try discriminate HL; [reflexivity |].
  injection HL as HL.
  simpl in Dx, Dy. apply andb_true_iff in Dx, Dy.
  destruct Dx as [Dx0 Dx]. destruct Dy as [Dy0 Dy].
  rewrite (num_cons_digit x0 x Dx0 Dx), (num_cons_digit y0 y Dy0 Dy) in HN.
  rewrite <- HL in HN.
  pose proof (num_lt_pow10 x Dx) as Bx.
  pose proof (num_lt_pow10 y Dy) as By. rewrite <- HL in By.
  pose proof (pow10_pos (List.length x)) as PP.
  assert (E0 : digit_val x0 = digit_val y0) by nia.
  rewrite E0 in HN.
  rewrite (digit_val_inj x0 y0 Dx0 Dy0 E0), (IH y Dx Dy HL); [reflexivity | lia].
Qed.

(** A decimal string that does not end with the point is determined by its
    numbers of integer and fractional digits and the number its digits
    read as. *)
Lemma decimal_canonical r r' :
  decimal_chars r = true -> decimal_chars r' = true ->
  hd_error (rev r) <> Some "."%char -> hd_error (rev r') <> Some "."%char ->
  int_len r = int_len r' -> scale r = scale r' -> num r = num r' ->
  r = r'.
Proof.
  intros W W' Hl Hl' HI HS HN.
  assert (Hshape : forall l,
    decimal_chars l = true -> hd_error (rev l) <> Some "."%char ->
    exists i f,
      digits i = true /\ digits f = true
      /\ int_len l = List.length i /\ scale l = List.length f
      /\ num l = num i * pow10 (List.length f) + num f
      /\ l = (if (List.length f =? 0)%nat then i else i ++ "."%char :: f)%list).
  { intros l Wl Hlast.
    destruct (with_point_decimal l Wl) as (i & f & Di & Df & _ & N & S & Hs).
    exists i, f. split; [exact Di |]. split; [exact Df |].
    destruct Hs as [E | [E ->]].
    - split; [rewrite E; apply int_len_point, Di |].
      split; [exact S |]. split; [exact N |].
      destruct f as [| f0 f]; [| exact E].
      exfalso. apply Hlast. rewrite E, rev_app_distr. reflexivity.
    - split; [rewrite E; apply int_len_digits, Di |].
      split; [exact S |]. split; [exact N |]. exact E. }
  destruct (Hshape r W Hl) as (i & f & Di & Df & I & S & N & E).
  destruct (Hshape r' W' Hl') as (i' & f' & Di' & Df' & I' & S' & N' & E').
  assert (Lf : List.length f = List.length f') by congruence.
  assert (Li : List.length i = List.length i') by congruence.
  rewrite N, N', <- Lf in HN.
  pose proof (num_lt_pow10 f Df) as Bf.
  pose proof (num_lt_pow10 f' Df') as Bf'. rewrite <- Lf in Bf'.
  pose proof (pow10_pos (List.length f)) as PP.
  assert (Ei : num i = num i') by nia.
  assert (Ef : num f = num f') by (rewrite Ei in HN; lia).
  rewrite E, E', <- Lf.
  rewrite (digits_num_inj i i' Di Di' Li Ei), (digits_num_inj f f' Df Df' Lf Ef).
  reflexivity.
Qed.

Lemma pow10_le_mono n m : (n <= m)%nat -> pow10 n <= pow10 m.
Proof.
  intros H. rewrite (pow10_le_split n m H).
  pose proof (pow10_pos n). pose proof (pow10_pos (m - n)). nia.
Qed.

(** The digits of a decimal string read as less than ten to the number of
    its digits. *)
Lemma decimal_num_bound l :
  decimal_chars l = true ->
  0 <= num l < pow10 (int_len l) * pow10 (scale l).
Proof.
  intros W.
  destruct (with_point_decimal l W) as (i & f & Di & Df & _ & N & S & Hs).
  assert (I : int_len l = List.length i).
  { destruct Hs as [E | [E _]]; rewrite E;
      [apply int_len_point | apply int_len_digits]; exact Di. }
  rewrite I, S, N.
  pose proof (num_lt_pow10 i Di). pose proof (num_lt_pow10 f Df).
  pose proof (pow10_pos (List.length f)). nia.
Qed.

Lemma scaled_bound n (i s M S : nat) :
  0 <= n < pow10 i * pow10 s -> (i <= M)%nat -> (s <= S)%nat ->
  0 <= n * pow10 (S - s) < pow10 M * pow10 S.
Proof.
  intros B Hi Hs.
  rewrite (pow10_le_split s S Hs).
  pose proof (pow10_le_mono i M Hi) as Hm.
  pose proof (pow10_pos (S - s)) as Pd.
  pose proof (pow10_pos s) as Ps. pose proof (pow10_pos i) as Pi.
  assert (H1 : n < pow10 M * pow10 s).
  { apply (Z.lt_le_trans _ (pow10 i * pow10 s)); [apply B |].
    apply Z.mul_le_mono_nonneg_r; lia. }
  split; [apply Z.mul_nonneg_nonneg; lia |].
  rewrite Z.mul_assoc. apply Z.mul_lt_mono_pos_r; assumption.
Qed.

(** The arithmetic of two additions in a row: the digits of the sum of
    three, and how many of them stand before the point. *)
Lemma add3_arith
  (ia ib ic sa sb sc Sab St Iab It : nat) (na nb nc Nab N cab c1 : Z) :
  0 <= na < pow10 ia * pow10 sa ->
  0 <= nb < pow10 ib * pow10 sb ->
  0 <= nc < pow10 ic * pow10 sc ->
  Sab = Nat.max sa sb ->
  Nab = na * pow10 (Sab - sa) + nb * pow10 (Sab - sb) ->
  cab = 0 \/ cab = 1 ->
  Iab = (Nat.max ia ib + Z.to_nat cab)%nat ->
  (cab = 1 <-> pow10 (Nat.max ia ib) * pow10 Sab <= Nab) ->
  St = Nat.max Sab sc ->
  N = Nab * pow10 (St - Sab) + nc * pow10 (St - sc) ->
  c1 = 0 \/ c1 = 1 ->
  It = (Nat.max Iab ic + Z.to_nat c1)%nat ->
  (c1 = 1 <-> pow10 (Nat.max Iab ic) * pow10 St <= N) ->
  St = Nat.max sa (Nat.max sb sc)
  /\ N = na * pow10 (St - sa) + nb * pow10 (St - sb) + nc * pow10 (St - sc)
  /\ It = (Nat.max ia (Nat.max ib ic)
           + (if (pow10 (Nat.max ia (Nat.max ib ic)) * pow10 St <=? N)%Z
              then 1 else 0))%nat.
Proof.
  intros Ba Bb Bc HSab HNab Hcab HIab Hiab HS HN Hc1 HI Hi.
  assert (LS : (sa <= Sab /\ sb <= Sab /\ Sab <= St /\ sc <= St)%nat)
    by (clear - HSab HS; lia).
  destruct LS as (LSa & LSb & LSab & LSc).
  split; [clear - HSab HS; lia |].
  assert (Pa : pow10 (Sab - sa) * pow10 (St - Sab) = pow10 (St - sa))
    by (rewrite <- pow10_add; f_equal; clear - LSa LSab; lia).
  assert (Pb : pow10 (Sab - sb) * pow10 (St - Sab) = pow10 (St - sb))
    by (rewrite <- pow10_add; f_equal; clear - LSb LSab; lia).
  assert (HN3 : N = na * pow10 (St - sa) + nb * pow10 (St - sb)
                    + nc * pow10 (St - sc)).
  { rewrite HN, HNab, <- Pa, <- Pb. ring. }
  split; [exact HN3 |].
  set (M := Nat.max ia (Nat.max ib ic)).
  set (Mab := Nat.max ia ib) in *.
  assert (LM : (ia <= M /\ ib <= M /\ ic <= M)%nat)
    by (unfold M; clear; lia).
  destruct LM as (LMa & LMb & LMc).
  pose proof (scaled_bound na ia sa M St Ba LMa
                (Nat.le_trans _ _ _ LSa LSab)) as [La Ua].
  pose proof (scaled_bound nb ib sb M St Bb LMb
                (Nat.le_trans _ _ _ LSb LSab)) as [Lb Ub].
  pose proof (scaled_bound nc ic sc M St Bc LMc LSc) as [Lc Uc].
  assert (Hab : Nab * pow10 (St - Sab) <= N) by (clear - HN Lc; lia).
  assert (Hup : N < 3 * (pow10 M * pow10 St))
    by (clear - HN3 Ua Ub Uc; lia).
  assert (Hsplit : pow10 St = pow10 Sab * pow10 (St - Sab))
    by (apply pow10_le_split; exact LSab).
  pose proof (pow10_pos St) as PS.
  pose proof (pow10_pos (St - Sab)) as PD.
  pose proof (pow10_pos M) as PM.
  assert (PT : 0 < pow10 M * pow10 St) by (apply Z.mul_pos_pos; assumption).
  assert (E0 : Nat.max (Mab + 0) ic = M) by (unfold M, Mab; clear; lia).
  assert (E1 : (Mab + 1 <= ic)%nat -> Nat.max (Mab + 1) ic = M)
    by (unfold M, Mab; clear; lia).
  assert (E2 : (ic < Mab + 1)%nat ->
               Nat.max (Mab + 1) ic = S M /\ M = Mab)
    by (unfold M, Mab; clear; lia).
  assert (Kab : (cab = 0 /\ Z.to_nat cab = 0%nat)
                \/ (cab = 1 /\ Z.to_nat cab = 1%nat))
    by (destruct Hcab as [-> | ->]; [left | right]; split; reflexivity).
  assert (K1 : (c1 = 0 /\ Z.to_nat c1 = 0%nat)
               \/ (c1 = 1 /\ Z.to_nat c1 = 1%nat))
    by (destruct Hc1 as [-> | ->]; [left | right]; split; reflexivity).
  rewrite HI, HIab. rewrite HIab in Hi.
  clear Ba Bb Bc HSab HNab Hcab HIab HS HN Hc1 HI HN3 Pa Pb La Lb Lc Ua Ub Uc.
  destruct (Z.leb_spec (pow10 M * pow10 St) N) as [Hge | Hlt].
  - (* a digit more than the longest operand *)
    destruct Kab as [[Cab Kab] | [Cab Kab]]; rewrite Kab in *.
    + rewrite E0 in *.
      destruct K1 as [[C1 K1] | [C1 K1]]; rewrite K1; [| reflexivity].
      exfalso. destruct Hi as [_ Hi]. specialize (Hi Hge).
      rewrite C1 in Hi. discriminate Hi.
    + destruct (Nat.le_gt_cases (Mab + 1) ic) as [Hic | Hic].
      * rewrite (E1 Hic) in *.
        destruct K1 as [[C1 K1] | [C1 K1]]; rewrite K1; [| reflexivity].
        exfalso. destruct Hi as [_ Hi]. specialize (Hi Hge).
        rewrite C1 in Hi. discriminate Hi.
      * destruct (E2 Hic) as [E3 EM]. rewrite E3 in *.
        destruct K1 as [[C1 K1] | [C1 K1]]; rewrite K1; [clear; lia |].
        exfalso. destruct Hi as [Hi _]. specialize (Hi C1).
        rewrite pow10_S, <- Z.mul_assoc in Hi.
        clear - Hi Hup PT. lia.
  - (* as many digits as the longest operand *)
    destruct Kab as [[Cab Kab] | [Cab Kab]]; rewrite Kab in *.
    + rewrite E0 in *.
      destruct K1 as [[C1 K1] | [C1 K1]]; rewrite K1; [reflexivity |].
      exfalso. destruct Hi as [Hi _]. specialize (Hi C1).
      clear - Hi Hlt. lia.
    + destruct Hiab as [Hiab _]. specialize (Hiab Cab).
      destruct (Nat.le_gt_cases (Mab + 1) ic) as [Hic | Hic].
      * rewrite (E1 Hic) in *.
        destruct K1 as [[C1 K1] | [C1 K1]]; rewrite K1; [reflexivity |].
        exfalso. destruct Hi as [Hi _]. specialize (Hi C1).
        clear - Hi Hlt. lia.
      * destruct (E2 Hic) as [_ EM]. exfalso.
        rewrite <- EM in Hiab.
        assert (pow10 M * pow10 St <= Nab * pow10 (St - Sab)).
        { rewrite Hsplit, Z.mul_assoc.
          apply Z.mul_le_mono_nonneg_r; [| exact Hiab].
          clear - PD. lia. }
        clear - H Hab Hlt. lia.
Qed.

(** The sum of three, added from the left: its digits, and how many of
    them stand before the point. *)
Lemma string_add3 a b c :
  well_formed a = true -> well_formed b = true -> well_formed c = true ->
  exists r,
    bind (string_add a b) (fun s => string_add s c)
    = Return (string_of_list_ascii r)
    /\ decimal_chars r = true
    /\ hd_error (rev r) <> Some "."%char
    /\ scale r = Nat.max (frac_digits a) (Nat.max (frac_digits b) (frac_digits c))
    /\ num r
       = num (list_ascii_of_string a) * pow10 (scale r - frac_digits a)
         + num (list_ascii_of_string b) * pow10 (scale r - frac_digits b)
         + num (list_ascii_of_string c) * pow10 (scale r - frac_digits c)
    /\ int_len r
       = (Nat.max (int_digits a) (Nat.max (int_digits b) (int_digits c))
          + (if (pow10 (Nat.max (int_digits a)
                          (Nat.max (int_digits b) (int_digits c)))
                 * pow10 (scale r) <=? num r)%Z
             then 1 else 0))%nat.
Proof.
  intros Wa Wb Wc.
  destruct (string_add_spec a b Wa Wb)
    as (rab & cab & Eab & Dab & Sab & Nab & Hcab & Iab & _ & Hiab).
  pose proof (well_formed_of_list rab Dab) as Wab.
  destruct (string_add_spec _ c Wab Wc)
    as (r & c1 & Er & Dr & Sr & Nr & Hc1 & Ir & _ & Hir).
  destruct (string_add_last _ c Wab Wc) as (r' & Er' & Hlast).
  rewrite Er in Er'. injection Er' as Er'.
  apply string_of_list_ascii_inj in Er'. subst r'.
  rewrite list_ascii_of_string_of_list_ascii in Sr, Nr, Ir, Hir.
  exists r. rewrite Eab. cbn [bind].
  split; [exact Er |]. split; [exact Dr |].
  split; [apply last_digit_not_point, Hlast |].
  unfold frac_digits, int_digits.
  exact (add3_arith _ _ _ _ _ _ _ _ _ _ _ _ _ _ _ _ _
           (decimal_num_bound _ Wa) (decimal_num_bound _ Wb)
           (decimal_num_bound _ Wc) Sab Nab Hcab Iab Hiab Sr Nr Hc1 Ir Hir).
Qed.

End Associativity.

(** X13.  [string_add] is associative on well-formed decimal strings: adding
    a third string to the sum of two returns the same string, code unit for
    code unit, as adding the first to the sum of the other two; neither
    grouping throws. *)
Theorem string_add_associative (a b c : string) :
  well_formed a = true -> well_formed b = true -> well_formed c = true ->
  exists s,
    bind (string_add a b) (fun ab => string_add ab c) = Return s
    /\ bind (string_add b c) (fun bc => string_add a bc) = Return s.
Proof.
  intros Wa Wb Wc.
  destruct (string_add3 a b c Wa Wb Wc) as (r & E & D & L & S & N & I).
  destruct (string_add3 b c a Wb Wc Wa) as (r' & E' & D' & L' & S' & N' & I').
  exists (string_of_list_ascii r). split; [exact E |].
  assert (Ecomm : bind (string_add b c) (fun bc => string_add a bc)
                  = bind (string_add b c) (fun bc => string_add bc a)).
  { destruct (string_add b c) as [bc | msg]; [| reflexivity].
    cbn [bind]. apply string_add_comm. }
  rewrite Ecomm, E'. f_equal. f_equal. symmetry.
  assert (HS : scale r = scale r') by lia.
  assert (HN : num r = num r') by (rewrite N, N', HS; ring).
  apply decimal_canonical; try assumption.
  rewrite I, I', HS, HN.
  replace (Nat.max (int_digits b) (Nat.max (int_digits c) (int_digits a)))
    with (Nat.max (int_digits a) (Nat.max (int_digits b) (int_digits c)))
    by lia.
  reflexivity.
Qed.

Lemma string_add_associative_witness :
  exists s,
    bind (string_add "99.5" "0.75") (fun ab => string_add ab "000.125")
    = Return s
    /\ bind (string_add "0.75" "000.125") (fun bc => string_add "99.5" bc)
       = Return s.
Proof.
  apply (string_add_associative "99.5" "0.75" "000.125"); reflexivity.
Defined.

(* ===================================================================== *)
(** ** Operands that [string_add] refuses                                 *)
(* ===================================================================== *)

Section Refused.

Lemma count_point_cons x l :
  count_occ ascii_dec (x :: l) "."%char
  = (if Ascii.eqb x "." then 1 else 0) + count_occ ascii_dec l "."%char.
Proof.
  cbn [count_occ]. destruct (ascii_dec x "."%char) as [E | E].
  - subst x. reflexivity.
  - destruct (Ascii.eqb_spec x "."%char); [contradiction | reflexivity].
Qed.

Lemma indexOf_None_count l :
  indexOf "." l = None -> count_occ ascii_dec l "."%char = 0.
Proof.
  induction l as [| x l IH]; [reflexivity |].
  rewrite count_point_cons. cbn [indexOf].
  destruct (Ascii.eqb x "."); [discriminate |].
  destruct (indexOf "." l); [discriminate |]. intros _. apply IH. reflexivity.
Qed.

Lemma indexOf_Some_count l p :
  indexOf "." l = Some p -> 1 <= count_occ ascii_dec l "."%char.
Proof.
  destruct l as [| x l]; [discriminate |].
  revert p. induction (x :: l) as [| y t IH]; intros p; [discriminate |].
  rewrite count_point_cons. cbn [indexOf].
  destruct (Ascii.eqb y "."); [lia |].
  destruct (indexOf "." t) as [p' |]; [| discriminate].
  intros _. specialize (IH p' eq_refl). lia.
Qed.

(** Making the point explicit: a string without point counts for one. *)
Lemma with_point_count l :
  count_occ ascii_dec (fst (with_point l)) "."%char
  = Nat.max (count_occ ascii_dec l "."%char) 1.
Proof.
  unfold with_point. destruct (indexOf "." l) as [p |] eqn:E; cbn [fst].
  - pose proof (indexOf_Some_count l p E). lia.
  - rewrite count_occ_app, (indexOf_None_count l E). reflexivity.
Qed.

Lemma repeat_zero_count k l :
  count_occ ascii_dec (repeat "0"%char k ++ l) "."%char
  = count_occ ascii_dec l "."%char.
Proof.
  induction k as [| k IH]; [reflexivity |].
  cbn [repeat app]. rewrite count_point_cons. exact IH.
Qed.

Lemma align_count a b :
  count_occ ascii_dec (fst (align a b)) "."%char
  = Nat.max (count_occ ascii_dec a "."%char) 1
  /\ count_occ ascii_dec (snd (align a b)) "."%char
     = Nat.max (count_occ ascii_dec b "."%char) 1.
Proof.
  pose proof (with_point_count a) as Ha. pose proof (with_point_count b) as Hb.
  unfold align.
  destruct (with_point a) as [a1 adi]. destruct (with_point b) as [b1 bdi].
  rewrite !pad_while_eq. cbn [fst snd] in *.
  rewrite !repeat_zero_count. split; assumption.
Qed.

(** Two strings with points at the same indices have as many of them. *)
Lemma same_points_count : forall x y : chars,
  (forall i, is_point (nth_error x i) = is_point (nth_error y i)) ->
  count_occ ascii_dec x "."%char = count_occ ascii_dec y "."%char.
Proof.
  assert (Hnone : forall y : chars,
             (forall i, is_point (nth_error y i) = false) ->
             count_occ ascii_dec y "."%char = 0).
  { induction y as [| c y IH]; intros H; [reflexivity |].
    rewrite count_point_cons. pose proof (H 0) as H0. cbn in H0. rewrite H0.
    apply IH. intros i. exact (H (S i)). }
  induction x as [| c x IH]; intros y H.
  - symmetry. apply Hnone. intros i. rewrite <- H. destruct i; reflexivity.
  - destruct y as [| d y].
    + apply Hnone. intros i. rewrite H. destruct i; reflexivity.
    + rewrite !count_point_cons. pose proof (H 0) as H0. cbn in H0. rewrite H0.
      f_equal. apply IH. intros i. exact (H (S i)).
Qed.

Lemma string_add_unequal_points a b :
  Nat.max (points a) 1 <> Nat.max (points b) 1 ->
  string_add a b = Throw "Decimal alignment error".
Proof.
  unfold points. intros Hne.
  destruct (align_count (list_ascii_of_string a) (list_ascii_of_string b))
    as [Ca Cb].
  apply string_add_throws_iff. split; [reflexivity |].
  unfold aligned_operands.
  set (a' := fst (align (list_ascii_of_string a) (list_ascii_of_string b))) in *.
  set (b' := snd (align (list_ascii_of_string a) (list_ascii_of_string b))) in *.
  set (n := Nat.max (List.length a') (List.length b')).
  assert (Hdec : forall k,
             (exists i, i < k /\ is_point (nth_error a' i)
                                 <> is_point (nth_error b' i))
             \/ (forall i, i < k -> is_point (nth_error a' i)
                                    = is_point (nth_error b' i))).
  { induction k as [| k [(i & Hi & Hm) | Hall]].
    - right. intros i Hi. lia.
    - left. exists i. split; [lia | exact Hm].
    - destruct (Bool.bool_dec (is_point (nth_error a' k))
                              (is_point (nth_error b' k))) as [E | E].
      + right. intros i Hi.
        destruct (Nat.eq_dec i k) as [-> | N]; [exact E | apply Hall; lia].
      + left. exists k. split; [lia | exact E]. }
  destruct (Hdec n) as [(i & _ & Hm) | Hall]; [exists i; exact Hm |].
  exfalso. apply Hne. rewrite <- Ca, <- Cb. apply same_points_count.
  intros i. destruct (Nat.lt_ge_cases i n) as [Hi | Hi]; [apply Hall, Hi |].
  rewrite (proj2 (nth_error_None a' i)) by (subst n; lia).
  rewrite (proj2 (nth_error_None b' i)) by (subst n; lia). reflexivity.
Qed.

End Refused.

(** X14.  [string_add] throws "Decimal alignment error" whenever its two
    operands, whatever code units they hold, do not have the same number of
    decimal points, a string without point counting for one: a second point
    on one side only is always refused. *)
Theorem string_add_refuses_unequal_points (a b : string) :
  Nat.max (points a) 1 <> Nat.max (points b) 1 ->
  string_add a b = Throw "Decimal alignment error".
Proof. apply string_add_unequal_points. Qed.

Lemma string_add_refuses_unequal_points_witness :
  string_add "1.2.3" "45" = Throw "Decimal alignment error".
Proof.
  apply (string_add_refuses_unequal_points "1.2.3" "45"). discriminate.
Defined.

(* ===================================================================== *)
(** ** The event queue when only the host runs the drain steps            *)
(* ===================================================================== *)

Section HostQueue.

Variable op : Type.
Variable call : op -> ending.
Implicit Types (g : GGRC op).

Lemma fire_the_timer g t :
  scheduled g -> In t (timers g) -> fire call t g = tick call g.
Proof.
  intros (t0 & _ & Hs) Hin. unfold tick. rewrite Hs in *.
  destruct Hin as [-> | []]. reflexivity.
Qed.

Lemma returns_not_thrown (l : list op) :
  Forall (returns call) l -> Exists (fun f => call f = Throws) l -> False.
Proof.
  intros HF HE. apply Exists_exists in HE. destruct HE as (f & Hin & Hc).
  rewrite Forall_forall in HF. specialize (HF f Hin). unfold returns in HF.
  rewrite HF in Hc. discriminate Hc.
Qed.

(** While every callback called has returned, either nothing is queued or
    scheduled, or exactly one drain step is; after one has thrown, the queue
    is stalled. *)
Lemma host_invariant g :
  host_reachable call g ->
  (Forall (returns call) (executed g)
   /\ ((idle g /\ eventqueue g = []) \/ scheduled g))
  \/ (Exists (fun f => call f = Throws) (executed g) /\ stalled g).
Proof.
  induction 1 as [| e g _ IH | t g _ IH Hin].
  - left. split; [constructor |]. left. repeat split.
  - destruct IH as [[Hall [[Hi _] | Hs]] | [Hex Hst]].
    + destruct (queue_event_idle op e g Hi) as (H1 & _ & H3).
      left. rewrite H3. split; [exact Hall | right; exact H1].
    + destruct (queue_event_armed op e g Hs) as (H1 & _ & H3).
      left. rewrite H3. split; [exact Hall | right; exact H1].
    + destruct (queue_event_stalled op e g Hst) as (H1 & _ & H3).
      right. rewrite H3. split; assumption.
  - destruct IH as [[Hall [[[_ Hm] _] | Hs]] | [_ [_ Hm]]];
      [rewrite Hm in Hin; destruct Hin | | rewrite Hm in Hin; destruct Hin].
    rewrite (fire_the_timer g t Hs Hin).
    destruct (hd_error (eventqueue g)) as [f |] eqn:Hf.
    + destruct (call f) eqn:Hc.
      * assert (Hr : head_returns call g)
          by (intros f' E; rewrite Hf in E; injection E as <-; exact Hc).
        destruct (tick_scheduled op call g Hs Hr) as (Tq & Te & Ts & Ti).
        rewrite Hf in Te. left. rewrite Te.
        split; [apply Forall_app; split; [exact Hall | repeat constructor;
                                                      exact Hc] |].
        destruct (tl (eventqueue g)) as [| f' q] eqn:E.
        -- left. split; [apply Ti; reflexivity | exact Tq].
        -- right. apply Ts. discriminate.
      * destruct (tick_thrown op call g f Hs Hf Hc) as (_ & Te & Hst).
        right. rewrite Te. split; [| exact Hst].
        apply Exists_app. right. constructor. exact Hc.
    + assert (Hr : head_returns call g)
        by (intros f' E; rewrite Hf in E; discriminate E).
      destruct (tick_scheduled op call g Hs Hr) as (Tq & Te & _ & Ti).
      rewrite Hf in Te. left. rewrite Te. split; [exact Hall |].
      left. assert (Etl : tl (eventqueue g) = [])
        by (destruct (eventqueue g); [reflexivity | discriminate Hf]).
      split; [apply Ti; exact Etl | rewrite Tq; exact Etl].
Qed.

Lemma host_idle_or_scheduled g :
  host_reachable call g -> Forall (returns call) (executed g) ->
  (idle g /\ eventqueue g = []) \/ scheduled g.
Proof.
  intros H Hall. destruct (host_invariant g H) as [[_ Hc] | [Hex _]].
  - exact Hc.
  - exfalso. apply (returns_not_thrown _ Hall Hex).
Qed.

(** From a stalled queue on, the host never runs a callback again. *)
Lemma host_run_stalled g g' :
  stalled g -> host_run call g g' ->
  executed g' = executed g
  /\ stalled g'
  /\ exists later, eventqueue g' = eventqueue g ++ later.
Proof.
  intros Hst. induction 1 as [| e g' _ IH | t g' _ IH Hin].
  - split; [reflexivity |]. split; [exact Hst |].
    exists []. rewrite app_nil_r. reflexivity.
  - destruct IH as (Ee & Hst' & later & Eq).
    destruct (queue_event_stalled op e g' Hst') as (H1 & H2 & H3).
    split; [rewrite H3; exact Ee |]. split; [exact H1 |].
    exists (later ++ as_list e). rewrite H2, Eq, app_assoc. reflexivity.
  - destruct IH as (_ & [_ Hm] & _). rewrite Hm in Hin. destruct Hin.
Qed.

End HostQueue.

(** X15.  When [queue_exec_next] only runs as the callback of the timeouts
    the queue registered, then, as long as every callback called so far has
    returned, at most one timeout is pending at any time: it is the one
    [eventqueueTimeout] names, none is pending exactly when
    [eventqueueTimeout] is null, and one is pending whenever an operation is
    queued.  So two drain steps are never scheduled at once. *)
Theorem host_never_double_schedules
  (op : Type) (call : op -> ending) (g : GGRC op) :
  host_reachable call g -> Forall (returns call) (executed g) ->
  List.length (timers g) <= 1
  /\ (timers g = [] <-> eventqueueTimeout g = None)
  /\ (forall t, eventqueueTimeout g = Some t <-> timers g = [t])
  /\ (eventqueue g <> [] -> exists t, timers g = [t]).
Proof.
  intros H Hall.
  destruct (host_idle_or_scheduled op call g H Hall)
    as [[[Ht Hm] Hq] | (t & Ht & Hm)]; rewrite Ht, Hm.
  - split; [cbn; lia |]. split; [split; reflexivity |].
    split; [intros t; split; discriminate |].
    intros Hne. contradiction.
  - split; [cbn; lia |]. split; [split; discriminate |].
    split; [| intros _; exists t; reflexivity].
    intros t'. split; intros E; injection E as ->; reflexivity.
Qed.

Lemma host_never_double_schedules_witness :
  List.length
    (timers (fire zero_throws 1%positive
               (queue_event (Fn 8) (queue_event (Fns [6; 7]) initial)))) <= 1.
Proof.
  apply (host_never_double_schedules nat zero_throws).
  - apply host_fire; [| left; reflexivity].
    apply host_queue_event, host_queue_event, host_initial.
  - repeat constructor.
Defined.

(** X16.  From any state the queue is in when only the host runs the drain
    steps and every callback called so far has returned, if the queued
    callbacks return too, letting more timeouts fire than operations are
    queued runs exactly the queued operations, in queue order, after those
    already run, and leaves nothing queued and nothing scheduled: no
    operation is stranded. *)
Theorem host_drain_runs_the_queue
  (op : Type) (call : op -> ending) (g : GGRC op) (n : nat) :
  host_reachable call g ->
  Forall (returns call) (executed g) -> Forall (returns call) (eventqueue g) ->
  List.length (eventqueue g) < n ->
  executed (drain call n g) = executed g ++ eventqueue g
  /\ eventqueue (drain call n g) = []
  /\ eventqueueTimeout (drain call n g) = None
  /\ timers (drain call n g) = [].
Proof.
  intros H Hall Hq Hn.
  destruct (host_idle_or_scheduled op call g H Hall) as [[Hi Eq] | Hs].
  - rewrite (drain_idle op call n g Eq Hi), Eq, app_nil_r.
    destruct Hi as [Ht Hm]. repeat split; assumption.
  - destruct (drain_all op call g n Hs Hn Hq) as (E1 & E2 & Ht & Hm).
    repeat split; assumption.
Qed.

Lemma host_drain_runs_the_queue_witness :
  executed (drain zero_throws 3
              (queue_event (Fn 8)
                 (fire zero_throws 1%positive
                    (queue_event (Fns [6; 7]) initial))))
  = [6; 7; 8].
Proof.
  destruct (host_drain_runs_the_queue nat zero_throws
              (queue_event (Fn 8)
                 (fire zero_throws 1%positive
                    (queue_event (Fns [6; 7]) initial))) 3)
    as (E & _).
  - apply host_queue_event. apply host_fire; [| left; reflexivity].
    apply host_queue_event, host_initial.
  - repeat constructor.
  - repeat constructor.
  - cbn. lia.
  - exact E.
Defined.

(** X17.  Enqueueing an empty list on a queue that is idle still registers
    a timeout, although nothing is queued; when that timeout fires no
    operation runs and the queue is idle again. *)
Theorem empty_list_still_schedules
  (op : Type) (call : op -> ending) (g : GGRC op) :
  host_reachable call g -> eventqueueTimeout g = None ->
  eventqueue (queue_event (Fns []) g) = []
  /\ eventqueueTimeout (queue_event (Fns []) g) = Some (next_timer g)
  /\ timers (queue_event (Fns []) g) = [next_timer g]
  /\ executed (fire call (next_timer g) (queue_event (Fns []) g)) = executed g
  /\ eventqueueTimeout (fire call (next_timer g) (queue_event (Fns []) g))
     = None
  /\ timers (fire call (next_timer g) (queue_event (Fns []) g)) = [].
Proof.
  intros H Ht.
  destruct (host_invariant op call g H)
    as [[_ [[[_ Hm] Hq] | (t & Ht' & _)]] | [_ [(t & Ht') _]]];
    [| congruence | congruence].
  destruct (queue_event_fields op (Fns []) g) as (Eq & Ee & Hn & _).
  destruct (Hn Ht) as [Ht1 Hm1]. rewrite Hm in Hm1. cbn [app] in Hm1.
  cbn [as_list] in Eq. rewrite app_nil_r, Hq in Eq.
  split; [exact Eq |]. split; [exact Ht1 |]. split; [exact Hm1 |].
  assert (Hs : scheduled (queue_event (Fns []) g))
    by (exists (next_timer g); split; assumption).
  assert (Hr : head_returns call (queue_event (Fns []) g))
    by (intros f E; rewrite Eq in E; discriminate E).
  rewrite (fire_the_timer op call _ _ Hs) by (rewrite Hm1; left; reflexivity).
  destruct (tick_scheduled op call _ Hs Hr) as (_ & Te & _ & Ti).
  rewrite Eq in Te, Ti. cbn [hd_error tl] in Te, Ti.
  destruct (Ti eq_refl) as [Ht2 Hm2].
  rewrite Te, Ee. repeat split; assumption.
Qed.

Lemma empty_list_still_schedules_witness :
  timers (queue_event (Fns []) (@initial nat)) = [1%positive]
  /\ timers (fire zero_throws 1%positive (queue_event (Fns []) (@initial nat)))
     = [].
Proof.
  destruct (empty_list_still_schedules nat zero_throws initial
              (host_initial zero_throws) eq_refl)
    as (_ & _ & H1 & _ & _ & H2).
  split; assumption.
Defined.

(** X21.  A callback that throws stops the queue for good.  When the pending
    timeout fires and the callback at the head of the queue throws, then,
    whatever [queue_event] calls follow, no callback is ever called again:
    the trace ends with the one that threw, the operations that were behind
    it stay queued in front of those enqueued later, [eventqueueTimeout]
    stays non-null and no timeout is pending. *)
Theorem thrown_callback_stops_the_queue
  (op : Type) (call : op -> ending) (g g' : GGRC op) (f : op) :
  (exists t, eventqueueTimeout g = Some t /\ timers g = [t]) ->
  hd_error (eventqueue g) = Some f -> call f = Throws ->
  host_run call (tick call g) g' ->
  executed g' = executed g ++ [f]
  /\ (exists later, eventqueue g' = tl (eventqueue g) ++ later)
  /\ (exists t, eventqueueTimeout g' = Some t)
  /\ timers g' = [].
Proof.
  intros Hs Hf Hc Hrun.
  destruct (tick_thrown op call g f Hs Hf Hc) as (Tq & Te & Hst).
  destruct (host_run_stalled op call _ g' Hst Hrun)
    as (Ee & [Ht Hm] & later & Eq).
  rewrite Ee, Te, Eq, Tq.
  split; [reflexivity |]. split; [exists later; reflexivity |].
  split; assumption.
Qed.

Lemma thrown_callback_stops_the_queue_witness :
  executed (queue_event (Fn 9)
              (tick zero_throws (queue_event (Fns [0; 7]) initial))) = [0]
  /\ timers (queue_event (Fn 9)
               (tick zero_throws (queue_event (Fns [0; 7]) initial))) = [].
Proof.
  destruct (thrown_callback_stops_the_queue nat zero_throws
              (queue_event (Fns [0; 7]) initial)
              (queue_event (Fn 9)
                 (tick zero_throws (queue_event (Fns [0; 7]) initial)))
              0)
    as (E & _ & _ & T).
  - exists 1%positive. split; reflexivity.
  - reflexivity.
  - reflexivity.
  - apply host_run_queue_event, host_run_refl.
  - split; assumption.
Defined.

(* ===================================================================== *)
(** ** The handlers of GGRC.Errors.notifierXHR                            *)
(* ===================================================================== *)

Section ErrorHandlers.

Variable payload : Type.
Variable renderer : Type.
Variable mustache : string -> renderer.

(** Every text of the table is truthy. *)
Lemma messages_truthy key text :
  lookup key messages = Some text -> truthy_string (Some text) = true.
Proof.
  unfold messages. cbn [lookup].
  repeat (match goal with
          | |- context [String.eqb ?k key] => destruct (String.eqb k key)
          end;
          [intros E; injection E as <-; reflexivity |]).
  discriminate.
Qed.

Lemma notifier_text type text :
  truthy_string (Some text) = true ->
  notifier mustache type (Some text) None
  = [(type_or_warning type, @Text payload renderer text)].
Proof.
  intros H. unfold notifier. cbn [option_map set_prop]. rewrite H. reflexivity.
Qed.

Lemma notifier_default type message :
  truthy_string message = false ->
  notifier mustache type message None
  = [(type_or_warning type, @Text payload renderer default_message)].
Proof.
  intros H. unfold notifier. destruct message as [m |]; cbn [option_map set_prop].
  - rewrite H. reflexivity.
  - reflexivity.
Qed.

(** A handler that holds a truthy message shows it at every call. *)
Lemma xhr_flashes_latched type text : forall errs,
  truthy_string (Some text) = true ->
  xhr_flashes mustache type (Some text) errs
  = map (fun _ => [(type_or_warning type, @Text payload renderer text)])
      errs.
Proof.
  intros errs H. induction errs as [| err rest IH]; [reflexivity |].
  cbn [xhr_flashes map]. unfold xhr_handler.
  assert (E : match
                match err with
                | Some e => if (status e =? 0)%N then None else Some (status e)
                | None => None
                end
              with
              | Some s =>
                if truthy_string (Some text) then Some text
                else lookup (key_of s) messages
              | None => Some text
              end = Some text)
    by (rewrite H; destruct err as [e |]; [destruct (status e =? 0)%N |];
        reflexivity).
  rewrite E, IH, (notifier_text type text H). reflexivity.
Qed.

(** Until a status with a text arrives, the handler shows the default. *)
Lemma xhr_flashes_unknown type message : forall pre rest,
  truthy_string message = false ->
  Forall (fun err => known_status err = None) pre ->
  exists message',
    truthy_string message' = false
    /\ xhr_flashes mustache type message (pre ++ rest)
       = map (fun _ =>
                [(type_or_warning type,
                  @Text payload renderer default_message)]) pre
         ++ xhr_flashes mustache type message' rest.
Proof.
  intros pre rest. revert message.
  induction pre as [| err pre IH]; intros message Hm Hpre.
  - exists message. split; [exact Hm | reflexivity].
  - inversion Hpre as [| ? ? Herr Hpre']; subst.
    cbn [app xhr_flashes map]. unfold xhr_handler.
    set (message1 :=
           match
             match err with
             | Some e => if (status e =? 0)%N then None else Some (status e)
             | None => None
             end
           with
           | Some s =>
             if truthy_string message then message
             else lookup (key_of s) messages
           | None => message
           end).
    assert (H1 : truthy_string message1 = false).
    { subst message1. unfold known_status in Herr.
      destruct err as [e |]; [| exact Hm].
      destruct (status e =? 0)%N; [exact Hm |].
      rewrite Hm, Herr. reflexivity. }
    destruct (IH message1 H1 Hpre') as (message' & H' & E).
    exists message'. split; [exact H' |].
    rewrite E, (notifier_default type message1 H1). reflexivity.
Qed.

(** From the first response whose status has an entry on, that entry's
    text is shown. *)
Lemma xhr_flashes_first_known type message pre err post text :
  truthy_string message = false ->
  Forall (fun e => known_status e = None) pre ->
  known_status err = Some text ->
  xhr_flashes mustache type message (pre ++ err :: post)
  = map (fun _ =>
           [(type_or_warning type, @Text payload renderer default_message)])
      pre
    ++ map (fun _ => [(type_or_warning type, @Text payload renderer text)])
         (err :: post).
Proof.
  intros Hm Hpre Herr.
  destruct (xhr_flashes_unknown type message pre (err :: post) Hm Hpre)
    as (message' & H' & E).
  rewrite E. f_equal.
  pose proof (xhr_flashes_latched type text (err :: post)) as L.
  unfold known_status in Herr.
  destruct err as [e |]; [| discriminate].
  destruct (status e =? 0)%N eqn:Es; [discriminate |].
  pose proof (messages_truthy _ _ Herr) as Ht.
  specialize (L Ht).
  cbn [xhr_flashes map] in L |- *. unfold xhr_handler in L |- *.
  cbn [status] in L |- *. rewrite Es in L |- *. rewrite H', Herr.
  rewrite Ht in L.
  injection L as L1 L2.
  rewrite (notifier_text type text Ht).
  rewrite (xhr_flashes_latched type text post Ht).
  reflexivity.
Qed.

(** A sequence of responses has no status with an entry, or a first one. *)
Lemma known_status_split (errs : list (option xhr)) :
  Forall (fun e => known_status e = None) errs
  \/ exists pre err post text,
       errs = pre ++ err :: post
       /\ Forall (fun e => known_status e = None) pre
       /\ known_status err = Some text.
Proof.
  induction errs as [| e errs IH]; [left; constructor |].
  destruct (known_status e) as [text |] eqn:He.
  - right. exists [], e, errs, text. repeat split; [constructor | exact He].
  - destruct IH as [H | (pre & err & post & text & -> & Hpre & Herr)].
    + left. constructor; assumption.
    + right. exists (e :: pre), err, post, text.
      split; [reflexivity |]. split; [constructor; assumption | exact Herr].
Qed.

End ErrorHandlers.

(** X18.  A handler made by [notifierXHR] keeps the first text it finds, on
    every sequence of calls.  Made with a non-empty message, it shows that
    message at every call, whatever the status.  Made without one, it shows
    the default text at every call as long as no response has a status with
    an entry in the table (the status is missing, zero or unknown); from the
    first response whose status has an entry on, it shows that entry's text
    at every later call, whatever status the later responses carry.  Every
    sequence of calls is of one of these two kinds. *)
Theorem notifierXHR_keeps_first_text
  (payload renderer : Type) (mustache : string -> renderer)
  (type message : option string) (errs : list (option xhr)) :
  type <> Some "__proto__"%string ->
  (forall m, message = Some m -> truthy_string message = true ->
   xhr_flashes (payload := payload) mustache type message errs
   = map (fun _ => [(type_or_warning type, Text m)]) errs)
  /\ (truthy_string message = false ->
      Forall (fun e => known_status e = None) errs ->
      xhr_flashes (payload := payload) mustache type message errs
      = map (fun _ => [(type_or_warning type, Text default_message)]) errs)
  /\ (truthy_string message = false ->
      forall pre err post text,
        errs = pre ++ err :: post ->
        Forall (fun e => known_status e = None) pre ->
        known_status err = Some text ->
        xhr_flashes (payload := payload) mustache type message errs
        = map (fun _ => [(type_or_warning type, Text default_message)]) pre
          ++ map (fun _ => [(type_or_warning type, Text text)]) (err :: post))
  /\ (Forall (fun e => known_status e = None) errs
      \/ exists pre err post text,
           errs = pre ++ err :: post
           /\ Forall (fun e => known_status e = None) pre
           /\ known_status err = Some text).
Proof.
  intros _. split; [| split; [| split]].
  - intros m -> Hm. apply xhr_flashes_latched. exact Hm.
  - intros Hm Hall.
    destruct (xhr_flashes_unknown payload renderer mustache type message
                errs [] Hm Hall) as (message' & _ & E).
    rewrite app_nil_r in E. rewrite E. cbn [xhr_flashes].
    apply app_nil_r.
  - intros Hm pre err post text -> Hpre Herr.
    apply xhr_flashes_first_known; assumption.
  - apply known_status_split.
Qed.

Lemma notifierXHR_keeps_first_text_witness :
  xhr_flashes (payload := unit) (fun s => s) (Some "error"%string) None
    [None; Some {| status := 500 |}; Some {| status := 403 |};
     Some {| status := 409 |}; None]
  = [ [("error"%string, Text default_message)];
      [("error"%string, Text default_message)] ]
    ++ map (fun _ =>
         [("error"%string,
           Text "You don't have the permission to access the requested resource. It is either read-protected or not readable by the server."%string)])
       [Some {| status := 403 |}; Some {| status := 409 |}; None]
  /\ xhr_flashes (payload := unit) (fun s => s) None (Some "Saved"%string)
       [None; Some {| status := 403 |}]
     = [ [("warning"%string, Text "Saved"%string)];
         [("warning"%string, Text "Saved"%string)] ]
  /\ xhr_flashes (payload := unit) (fun s => s) None None
       [None; Some {| status := 500 |}; Some {| status := 0 |}]
     = [ [("warning"%string, Text default_message)];
         [("warning"%string, Text default_message)];
         [("warning"%string, Text default_message)] ].
Proof.
  split; [| split].
  - destruct (notifierXHR_keeps_first_text unit string (fun s => s)
                (Some "error"%string) None
                [None; Some {| status := 500 |}; Some {| status := 403 |};
                 Some {| status := 409 |}; None]) as (_ & _ & H & _);
      [discriminate |].
    apply (H eq_refl [None; Some {| status := 500 |}]
             (Some {| status := 403 |}) [Some {| status := 409 |}; None]);
      [reflexivity | repeat constructor | reflexivity].
  - destruct (notifierXHR_keeps_first_text unit string (fun s => s)
                None (Some "Saved"%string)
                [None; Some {| status := 403 |}]) as (H & _);
      [discriminate |].
    apply (H "Saved"%string); reflexivity.
  - destruct (notifierXHR_keeps_first_text unit string (fun s => s)
                None None
                [None; Some {| status := 500 |}; Some {| status := 0 |}])
      as (_ & H & _); [discriminate |].
    apply H; [reflexivity | repeat constructor].
Defined.

(* ===================================================================== *)
(** ** The cached page model and page instance                            *)
(* ===================================================================== *)

Section PageCache.

Variable object : Type.
Variable model : Type.
Variable instance : Type.
Variable object_eq_dec : forall x y : object, {x = y} + {x <> y}.
Variable infer_object_type : object -> option model.
Variable build : model -> object -> instance.

Implicit Types (g h : page object instance) (i : instance).

(** [make_model_instance] never writes [_page_instance] or [page_object]. *)
Lemma make_keeps_page_instance data g r g' :
  make_model_instance object_eq_dec infer_object_type build data g
  = Return (r, g') ->
  _page_instance g' = _page_instance g /\ page_object g' = page_object g.
Proof.
  unfold make_model_instance. destruct data as [d |].
  - destruct (is_set (page_model g) && is_page_object object_eq_dec g d).
    + intros E. injection E as _ <-. split; reflexivity.
    + destruct (infer_object_type d); [| discriminate].
      intros E. injection E as _ <-. split; reflexivity.
  - intros E. injection E as _ <-. split; reflexivity.
Qed.

(** A successful build leaves its result in [page_model]. *)
Lemma make_sets_page_model d g r g' :
  make_model_instance object_eq_dec infer_object_type build (Some d) g
  = Return (r, g') ->
  exists i, r = Some i /\ page_model g' = Some i.
Proof.
  unfold make_model_instance.
  destruct (is_set (page_model g)) eqn:Es; cbn [andb].
  - destruct (is_page_object object_eq_dec g d).
    + intros E. injection E as <- <-.
      destruct (page_model g) as [i |]; [| discriminate].
      exists i. split; reflexivity.
    + destruct (infer_object_type d) as [cls |]; [| discriminate].
      intros E. injection E as <- <-. eexists. split; reflexivity.
  - destruct (infer_object_type d) as [cls |]; [| discriminate].
    intros E. injection E as <- <-. eexists. split; reflexivity.
Qed.

Lemma page_instance_set g i :
  _page_instance g = Some i ->
  page_instance object_eq_dec infer_object_type build g = Return (Some i, g).
Proof. intros E. unfold page_instance. rewrite E. reflexivity. Qed.

Lemma page_instance_result g i g' :
  page_instance object_eq_dec infer_object_type build g = Return (Some i, g') ->
  _page_instance g' = Some i.
Proof.
  unfold page_instance.
  destruct (_page_instance g) as [j |] eqn:Ej.
  - intros E. injection E as <- <-. exact Ej.
  - destruct (page_object g) as [o |].
    + destruct (make_model_instance object_eq_dec infer_object_type build
                  (Some o) g) as [[r g1] | msg]; cbn [bind].
      * intros E. injection E as -> <-. reflexivity.
      * discriminate.
    + discriminate.
Qed.

Lemma page_steps_keep_instance g g' i :
  page_steps object_eq_dec infer_object_type build g g' ->
  _page_instance g = Some i -> _page_instance g' = Some i.
Proof.
  induction 1 as [| g g1 g2 _ IH Hstep]; intros Hi; [exact Hi |].
  specialize (IH Hi).
  destruct Hstep as [data h r h' E | h r h' E | o h].
  - destruct (make_keeps_page_instance data h r h' E) as [-> _]. exact IH.
  - rewrite (page_instance_set h i IH) in E. injection E as _ <-. exact IH.
  - exact IH.
Qed.

End PageCache.

(** X19.  Once [page_instance] has returned an instance, every later call
    returns that same instance and changes nothing, whatever happened in
    between: other instances built with [make_model_instance], other reads
    of [page_instance], or another [page_object] put in place.  The page
    instance is built at most once. *)
Theorem page_instance_built_once
  (object model instance : Type)
  (object_eq_dec : forall x y : object, {x = y} + {x <> y})
  (infer_object_type : object -> option model)
  (build : model -> object -> instance)
  (g g1 g2 : page object instance) (i : instance) :
  page_instance object_eq_dec infer_object_type build g = Return (Some i, g1) ->
  page_steps object_eq_dec infer_object_type build g1 g2 ->
  page_instance object_eq_dec infer_object_type build g2 = Return (Some i, g2).
Proof.
  intros E Hsteps.
  apply page_instance_set.
  apply (page_steps_keep_instance object model instance object_eq_dec
           infer_object_type build g1 g2 i Hsteps).
  apply (page_instance_result object model instance object_eq_dec
           infer_object_type build g i g1 E).
Qed.

Lemma page_instance_built_once_witness :
  page_instance Nat.eq_dec (fun o => Some (o + 1)) pair
    {| page_object := Some 9;
       page_model := Some (8, 7);
       _page_instance := Some (5, 4) |}
  = Return (Some (5, 4),
            {| page_object := Some 9;
               page_model := Some (8, 7);
               _page_instance := Some (5, 4) |}).
Proof.
  apply (page_instance_built_once nat nat (nat * nat) Nat.eq_dec
           (fun o => Some (o + 1)) pair
           {| page_object := Some 4; page_model := None;
              _page_instance := None |}
           {| page_object := Some 4; page_model := Some (5, 4);
              _page_instance := Some (5, 4) |}).
  - reflexivity.
  - eapply page_steps_step; [eapply page_steps_step; [apply page_steps_refl |] |].
    + apply (step_make nat nat (nat * nat) Nat.eq_dec (fun o => Some (o + 1))
               pair (Some 7) _ (Some (8, 7))
               {| page_object := Some 4; page_model := Some (8, 7);
                  _page_instance := Some (5, 4) |}).
      reflexivity.
    + apply (step_page_object nat nat (nat * nat) Nat.eq_dec
               (fun o => Some (o + 1)) pair (Some 9)
               {| page_object := Some 4; page_model := Some (8, 7);
                  _page_instance := Some (5, 4) |}).
Defined.

(** X20.  The page model is cached by the identity of the page object
    alone.  After any successful [make_model_instance(data)], the instance it
    returned is the page model, and asking for the instance of the page
    object returns that instance without building anything and without
    changing a field, also when it was built from other data. *)
Theorem page_model_cache_ignores_data
  (object model instance : Type)
  (object_eq_dec : forall x y : object, {x = y} + {x <> y})
  (infer_object_type : object -> option model)
  (build : model -> object -> instance)
  (g g1 : page object instance) (d o : object) (r : option instance) :
  make_model_instance object_eq_dec infer_object_type build (Some d) g
  = Return (r, g1) ->
  page_object g = Some o ->
  exists i,
    r = Some i
    /\ page_model g1 = Some i
    /\ page_object g1 = Some o
    /\ make_model_instance object_eq_dec infer_object_type build (Some o) g1
       = Return (Some i, g1).
Proof.
  intros E Ho.
  destruct (make_sets_page_model object model instance object_eq_dec
              infer_object_type build d g r g1 E) as (i & -> & Hi).
  destruct (make_keeps_page_instance object model instance object_eq_dec
              infer_object_type build (Some d) g (Some i) g1 E) as [_ Hobj].
  rewrite Ho in Hobj.
  exists i. split; [reflexivity |]. split; [exact Hi |]. split; [exact Hobj |].
  unfold make_model_instance, is_page_object. rewrite Hi, Hobj.
  cbn [is_set andb].
  destruct (object_eq_dec o o) as [_ | Hne]; [reflexivity | contradiction].
Qed.

Lemma page_model_cache_ignores_data_witness :
  make_model_instance Nat.eq_dec (fun o => Some (o + 1)) pair (Some 4)
    {| page_object := Some 4; page_model := Some (8, 7);
       _page_instance := None |}
  = Return (Some (8, 7),
            {| page_object := Some 4; page_model := Some (8, 7);
               _page_instance := None |}).
Proof.
  destruct (page_model_cache_ignores_data nat nat (nat * nat) Nat.eq_dec
              (fun o => Some (o + 1)) pair
              {| page_object := Some 4; page_model := None;
                 _page_instance := None |}
              {| page_object := Some 4; page_model := Some (8, 7);
                 _page_instance := None |}
              7 4 (Some (8, 7)) eq_refl eq_refl)
    as (i & Hr & _ & _ & E).
  injection Hr as <-. exact E.
Defined.
